(** * webdl: selector parsing, URL resolution, extraction and the crawl loop

    A shallow embedding of the Go package [web] of frizinak/webdl
    ([selector.go], [web.go] and the files that define [HREF] and
    [page]) and the properties its design document states about it.

    Go strings are byte strings: they are modelled by [string] (lists of
    [ascii] bytes).  Go [int] values that are used as slice indices are
    modelled by [nat]; the [uint64] counters of [Recurse] are modelled by
    [Z] with their wrap-around modulo [2^64] written out. *)

From stdpp Require Import gmap strings list fin_maps.
From Stdlib Require Import ZArith Ascii String Lia.

Local Open Scope string_scope.

(** ** Results and errors *)

(** Go's [error] values that the package produces or passes on. *)
Inductive error : Type :=
| Canceled                     (* context.Canceled *)
| DeadlineExceeded             (* context.DeadlineExceeded *)
| ErrURL (msg : string)        (* url.Error from net/url *)
| ErrOther (msg : string).     (* any other error: network, HTML, callback *)

(** A Go pair [(value, error)] of which exactly one side is meaningful. *)
Inductive result (A : Type) : Type :=
| Ok (a : A)
| Err (e : error).
Arguments Ok {A} a.
Arguments Err {A} e.

#[global] Instance error_eq_dec : EqDecision error.
Proof. solve_decision. Defined.

(** ** The fragment of Go's standard library the package calls

    [strings] and [regexp] are not part of the repository.  The
    functions below model the calls that [selector.go] makes. *)

Module GoStrings.

Definition byte_of (c : ascii) : N := N_of_ascii c.

(** [strings.Split(s, ",")]: one more piece than there are commas. *)
Fixpoint Split_comma (s : string) : list string :=
  match s with
  | EmptyString => [EmptyString]
  | String c s' =>
      if Ascii.eqb c "," then EmptyString :: Split_comma s'
      else match Split_comma s' with
           | h :: t => String c h :: t
           | [] => [String c EmptyString]
           end
  end.

(** String reversal, used to look at a string from its end. *)
Fixpoint rev_append_string (s acc : string) : string :=
  match s with
  | EmptyString => acc
  | String c s' => rev_append_string s' (String c acc)
  end.
Definition rev_string (s : string) : string := rev_append_string s EmptyString.

(** UTF-8 encodings of the runes with Unicode's White_Space property
    ([unicode.IsSpace]): U+0009..U+000D, U+0020, U+0085, U+00A0,
    U+1680, U+2000..U+200A, U+2028, U+2029, U+202F, U+205F, U+3000. *)
Definition space_rune (bs : list N) : bool :=
  match bs with
  | [b] => ((9 <=? b) && (b <=? 13) || (b =? 32))%N
  | [194%N; b] => ((b =? 133) || (b =? 160))%N
  | [225%N; 154%N; 128%N] => true
  | [226%N; 128%N; b] =>
      ((128 <=? b) && (b <=? 138) || (b =? 168) || (b =? 169) || (b =? 175))%N
  | [226%N; 129%N; 159%N] => true
  | [227%N; 128%N; 128%N] => true
  | _ => false
  end.

(** Drops one leading white-space rune, if there is one. *)
Definition drop_space_rune (s : string) : option string :=
  match s with
  | String a s1 =>
      if space_rune [byte_of a] then Some s1 else
      match s1 with
      | String b s2 =>
          if space_rune [byte_of a; byte_of b] then Some s2 else
          match s2 with
          | String c s3 =>
              if space_rune [byte_of a; byte_of b; byte_of c] then Some s3 else None
          | EmptyString => None
          end
      | EmptyString => None
      end
  | EmptyString => None
  end.

(** The same on a reversed string: the rune's bytes come last first. *)
Definition drop_space_rune_rev (s : string) : option string :=
  match s with
  | String a s1 =>
      if space_rune [byte_of a] then Some s1 else
      match s1 with
      | String b s2 =>
          if space_rune [byte_of b; byte_of a] then Some s2 else
          match s2 with
          | String c s3 =>
              if space_rune [byte_of c; byte_of b; byte_of a] then Some s3 else None
          | EmptyString => None
          end
      | EmptyString => None
      end
  | EmptyString => None
  end.

(** Removes white-space runes from the front while there are any; the
    fuel bounds the number of runes removed by the length of [s]. *)
Fixpoint trim_with (drop : string -> option string) (fuel : nat) (s : string) : string :=
  match fuel with
  | O => s
  | S n => match drop s with
           | Some s' => trim_with drop n s'
           | None => s
           end
  end.

Definition TrimLeft_space (s : string) : string :=
  trim_with drop_space_rune (String.length s) s.

Definition TrimRight_space (s : string) : string :=
  rev_string (trim_with drop_space_rune_rev (String.length s) (rev_string s)).

(** [strings.TrimSpace]. *)
Definition TrimSpace (s : string) : string := TrimRight_space (TrimLeft_space s).

(** [strings.HasPrefix]. *)
Definition HasPrefix (s p : string) : bool := String.prefix p s.

(** [s[:n]] for [n <= len(s)]. *)
Definition slice_to (s : string) (n : nat) : string := String.substring 0 n s.

End GoStrings.

Module GoRegexp.

(** The class [\s] of Go's regexp syntax: [[\t\n\f\r ]]. *)
Definition re_space (c : ascii) : bool :=
  let b := N_of_ascii c in ((b =? 9) || (b =? 10) || (b =? 12) || (b =? 13) || (b =? 32))%N.

(** *** [attrRE = \[([^\]]+)\]$]

    A match that starts at a given ["["] is forced: the greedy class
    takes every byte up to the next ["]"], which must be the last byte
    of the text.  [FindStringSubmatch] returns the leftmost match. *)

(** The bytes of [s] before its first ["]"], and what follows them. *)
Fixpoint span_not_rbracket (s : string) : string * string :=
  match s with
  | EmptyString => (EmptyString, EmptyString)
  | String c s' =>
      if Ascii.eqb c "]" then (EmptyString, s)
      else let '(body, rest) := span_not_rbracket s' in (String c body, rest)
  end.

(** The match anchored at the first byte of [s]: the whole match
    [m[0]] and the group [m[1]]. *)
Definition attrRE_at (s : string) : option (string * string) :=
  match s with
  | String c s' =>
      if Ascii.eqb c "[" then
        let '(body, rest) := span_not_rbracket s' in
        if negb (String.eqb body "") && String.eqb rest "]"
        then Some (s, body) else None
      else None
  | EmptyString => None
  end.

(** [attrRE.FindStringSubmatch(s)]; [None] is the empty slice. *)
Fixpoint attrRE_FindStringSubmatch (s : string) : option (string * string) :=
  match attrRE_at s with
  | Some m => Some m
  | None => match s with
            | EmptyString => None
            | String _ s' => attrRE_FindStringSubmatch s'
            end
  end.

(** *** [commaRE = (,\s*,)+]

    One iteration is a comma, the white space after it and a second
    comma; the iterations are taken greedily.  [comma_units] scans an
    anchored match and returns its length, [0] when there is none:
    [in_unit] tells whether the first comma of an iteration has been
    read, [pos] counts the bytes read and [best] is the length up to the
    last completed iteration. *)
Fixpoint comma_units (in_unit : bool) (pos best : nat) (s : string) : nat :=
  match s with
  | EmptyString => best
  | String c s' =>
      if in_unit then
        if Ascii.eqb c "," then comma_units false (S pos) (S pos) s'
        else if re_space c then comma_units true (S pos) best s'
        else best
      else
        if Ascii.eqb c "," then comma_units true (S pos) best s'
        else best
  end.

(** [commaRE.ReplaceAllString(s, ",")]: every leftmost match is
    replaced by one comma and the search resumes after it; [skip] is
    the number of bytes of the current match still to pass over. *)
Fixpoint commaRE_replace (skip : nat) (s : string) : string :=
  match s with
  | EmptyString => EmptyString
  | String c s' =>
      match skip with
      | S k => commaRE_replace k s'
      | O => match comma_units false 0 0 s with
             | O => String c (commaRE_replace 0 s')
             | S n => String "," (commaRE_replace n s')
             end
      end
  end.

Definition commaRE_ReplaceAllString (s : string) : string := commaRE_replace 0 s.

End GoRegexp.

(** ** [selector.go] *)

Record Selector : Type := mkSelector { Query : string; Attr : string }.

Module Selectors.
Record t : Type := mk {
  Links : list Selector;
  Downloads : list Selector;
  Prints : list Selector;
  Titles : list Selector
}.
End Selectors.

#[global] Instance Selector_eq_dec : EqDecision Selector.
Proof. solve_decision. Defined.

(** [newSelector]: the trailing bracket group, when there is one, is cut
    off the query and its content is the attribute. *)
Definition newSelector (s : string) : Selector :=
  match GoRegexp.attrRE_FindStringSubmatch s with
  | None => mkSelector s ""
  | Some (m0, m1) =>
      mkSelector (GoStrings.slice_to s (String.length s - String.length m0)) m1
  end.

(** The loop of [NewSelector] over the pieces of the split. *)
Fixpoint NewSelector_loop (sp : list string) : list Selector :=
  match sp with
  | [] => []
  | s :: sp' =>
      let s := GoStrings.TrimSpace s in
      if String.eqb s "" then NewSelector_loop sp'
      else newSelector s :: NewSelector_loop sp'
  end.

Definition NewSelector (s : string) : list Selector :=
  let s := GoRegexp.commaRE_ReplaceAllString s in
  let sp := GoStrings.Split_comma s in
  NewSelector_loop sp.

(** [NewSelectors]: the parses of the strings, one after the other. *)
Fixpoint NewSelectors (s : list string) : list Selector :=
  match s with
  | [] => []
  | x :: s' => (NewSelector x ++ NewSelectors s')%list
  end.

(** ** [net/url]

    The type [url.URL] with the fields of Go's struct.  [HREF] and the
    crawl loop use two functions of the package, [url.Parse] and
    [URL.String]; they are parameters of the sections below, so that
    what is proved of the repository's code holds whatever the library
    does.  [GoURL] gives an executable model of the two functions on
    plain URLs, for the concrete equations. *)

Record Userinfo : Type := mkUserinfo {
  username : string;
  password : string;
  passwordSet : bool
}.

Record URL : Type := mkURL {
  Scheme : string;
  Opaque : string;
  User : option Userinfo;
  Host : string;
  Path : string;
  RawPath : string;
  OmitHost : bool;
  ForceQuery : bool;
  RawQuery : string;
  Fragment : string;
  RawFragment : string
}.

#[global] Instance Userinfo_eq_dec : EqDecision Userinfo.
Proof. solve_decision. Defined.
#[global] Instance URL_eq_dec : EqDecision URL.
Proof. solve_decision. Defined.

(** Field updates, as Go's assignments to one field of a struct. *)
Definition set_Scheme (u : URL) (v : string) : URL :=
  mkURL v (Opaque u) (User u) (Host u) (Path u) (RawPath u) (OmitHost u)
        (ForceQuery u) (RawQuery u) (Fragment u) (RawFragment u).
Definition set_Path (u : URL) (v : string) : URL :=
  mkURL (Scheme u) (Opaque u) (User u) (Host u) v (RawPath u) (OmitHost u)
        (ForceQuery u) (RawQuery u) (Fragment u) (RawFragment u).
Definition set_RawQuery (u : URL) (v : string) : URL :=
  mkURL (Scheme u) (Opaque u) (User u) (Host u) (Path u) (RawPath u) (OmitHost u)
        (ForceQuery u) v (Fragment u) (RawFragment u).

Module GoURL.

(** Model of [url.Parse] and [URL.String] of Go's standard library
    (not part of the repository) on plain URLs: the text is made of
    ASCII letters, digits and the bytes [- . _ ~ / : ? = &], with at
    most one [#], so that no component is percent-encoded or needs
    escaping, there is no userinfo and no IPv6 literal.  On such text
    escaping and unescaping are the identity and [RawPath] and
    [RawFragment] stay empty.  Any other text is reported as
    [outside_model]. *)

Definition outside_model : error := ErrOther "text outside the model of net/url".

Definition is_alpha (c : ascii) : bool :=
  let b := N_of_ascii c in ((65 <=? b) && (b <=? 90) || (97 <=? b) && (b <=? 122))%N.
Definition is_digit (c : ascii) : bool :=
  let b := N_of_ascii c in ((48 <=? b) && (b <=? 57))%N.

Definition plain_byte (c : ascii) : bool :=
  is_alpha c || is_digit c ||
  existsb (Ascii.eqb c) ["-"; "."; "_"; "~"; "/"; ":"; "?"; "="; "&"; "#"]%char.

Fixpoint count_byte (c : ascii) (s : string) : nat :=
  match s with
  | EmptyString => 0
  | String d s' => (if Ascii.eqb c d then 1 else 0) + count_byte c s'
  end.

Definition plain (s : string) : bool :=
  forallb plain_byte (list_ascii_of_string s) && (count_byte "#" s <=? 1)%nat.

(** [strings.Cut(s, sep)] for a one-byte separator: the text before
    the first [sep], the text after it, and whether [sep] occurs. *)
Fixpoint Cut (sep : ascii) (s : string) : string * string * bool :=
  match s with
  | EmptyString => (EmptyString, EmptyString, false)
  | String c s' =>
      if Ascii.eqb c sep then (EmptyString, s', true)
      else let '(a, b, f) := Cut sep s' in (String c a, b, f)
  end.

Definition contains (c : ascii) (s : string) : bool := negb (count_byte c s =? 0)%nat.

Definition to_lower_byte (c : ascii) : ascii :=
  let b := N_of_ascii c in
  if ((65 <=? b) && (b <=? 90))%N then ascii_of_N (b + 32) else c.
Fixpoint ToLower (s : string) : string :=
  match s with
  | EmptyString => EmptyString
  | String c s' => String (to_lower_byte c) (ToLower s')
  end.

(** [getScheme]: [Ok (scheme, rest)], with an empty scheme when the
    text does not start with one.  [i] is the index of the byte read
    and [acc] the bytes read so far, last first. *)
Fixpoint getScheme_loop (rawURL : string) (i : nat) (acc : string) (s : string)
  : result (string * string) :=
  match s with
  | EmptyString => Ok (EmptyString, rawURL)
  | String c s' =>
      if is_alpha c then getScheme_loop rawURL (S i) (String c acc) s'
      else if is_digit c || Ascii.eqb c "+" || Ascii.eqb c "-" || Ascii.eqb c "." then
        if (i =? 0)%nat then Ok (EmptyString, rawURL)
        else getScheme_loop rawURL (S i) (String c acc) s'
      else if Ascii.eqb c ":" then
        if (i =? 0)%nat then Err (ErrURL "missing protocol scheme")
        else Ok (GoStrings.rev_string acc, s')
      else Ok (EmptyString, rawURL)
  end.
Definition getScheme (rawURL : string) : result (string * string) :=
  getScheme_loop rawURL 0 EmptyString rawURL.

(** [validOptionalPort]: empty, or a colon followed by digits. *)
Definition validOptionalPort (port : string) : bool :=
  match port with
  | EmptyString => true
  | String c ds => Ascii.eqb c ":" && forallb is_digit (list_ascii_of_string ds)
  end.

(** The text of [host] from its last colon on, when it has one. *)
Fixpoint from_last_colon (host : string) : option string :=
  match host with
  | EmptyString => None
  | String c s' =>
      match from_last_colon s' with
      | Some p => Some p
      | None => if Ascii.eqb c ":" then Some host else None
      end
  end.

(** [parseHost], without the IPv6 and percent-encoded forms. *)
Definition parseHost (host : string) : result string :=
  match from_last_colon host with
  | Some colonPort =>
      if validOptionalPort colonPort then Ok host
      else Err (ErrURL "invalid port after host")
  | None => Ok host
  end.

Definition empty_URL : URL :=
  mkURL "" "" None "" "" "" false false "" "" "".

(** [parse(rawURL, false)]: the text before the fragment. *)
Definition parse (rawURL : string) : result URL :=
  if String.eqb rawURL "*" then Ok (set_Path empty_URL "*") else
  match getScheme rawURL with
  | Err e => Err e
  | Ok (scheme, rest) =>
      let scheme := ToLower scheme in
      let '(rest, rawQuery, forceQuery) :=
        let '(a, b, found) := Cut "?" rest in
        if found && String.eqb b "" then (a, "", true) else (a, b, false) in
      if negb (GoStrings.HasPrefix rest "/") && negb (String.eqb scheme "") then
        Ok (mkURL scheme rest None "" "" "" false forceQuery rawQuery "" "")
      else if negb (GoStrings.HasPrefix rest "/")
              && contains ":" (fst (fst (Cut "/" rest))) then
        Err (ErrURL "first path segment in URL cannot contain colon")
      else if (negb (String.eqb scheme "") || negb (GoStrings.HasPrefix rest "///"))
              && GoStrings.HasPrefix rest "//" then
        let authority := String.substring 2 (String.length rest - 2) rest in
        let '(authority, rest) :=
          let '(a, b, found) := Cut "/" authority in
          if found then (a, String "/" b) else (authority, "") in
        match parseHost authority with
        | Err e => Err e
        | Ok host =>
            Ok (mkURL scheme "" None host rest "" false forceQuery rawQuery "" "")
        end
      else
        let omitHost := negb (String.eqb scheme "") && GoStrings.HasPrefix rest "/" in
        Ok (mkURL scheme "" None "" rest "" omitHost forceQuery rawQuery "" "")
  end.

(** [url.Parse]. *)
Definition Parse (rawURL : string) : result URL :=
  if negb (plain rawURL) then Err outside_model else
  let '(u, frag, _) := Cut "#" rawURL in
  match parse u with
  | Err e => Err e
  | Ok url =>
      Ok (mkURL (Scheme url) (Opaque url) (User url) (Host url) (Path url)
                (RawPath url) (OmitHost url) (ForceQuery url) (RawQuery url)
                frag "")
  end.

(** [Userinfo.String]. *)
Definition Userinfo_String (ui : Userinfo) : string :=
  if passwordSet ui then username ui ++ ":" ++ password ui else username ui.

(** [URL.String], with the identity for the escaping functions. *)
Definition String (u : URL) : string :=
  let buf := if String.eqb (Scheme u) "" then "" else Scheme u ++ ":" in
  let buf :=
    if negb (String.eqb (Opaque u) "") then buf ++ Opaque u
    else
      let buf :=
        if negb (String.eqb (Scheme u) "") || negb (String.eqb (Host u) "")
           || bool_decide (User u ≠ None) then
          if OmitHost u && String.eqb (Host u) "" && bool_decide (User u = None)
          then buf
          else
            let buf :=
              if negb (String.eqb (Host u) "") || negb (String.eqb (Path u) "")
                 || bool_decide (User u ≠ None)
              then buf ++ "//" else buf in
            let buf :=
              match User u with
              | Some ui => buf ++ Userinfo_String ui ++ "@"
              | None => buf
              end in
            buf ++ Host u
        else buf in
      let path := Path u in
      let buf :=
        if negb (String.eqb path "") && negb (GoStrings.HasPrefix path "/")
           && negb (String.eqb (Host u) "")
        then buf ++ "/" else buf in
      let buf :=
        if String.eqb buf "" && contains ":" (fst (fst (Cut "/" path)))
        then buf ++ "./" else buf in
      buf ++ path in
  let buf :=
    if ForceQuery u || negb (String.eqb (RawQuery u) "")
    then buf ++ "?" ++ RawQuery u else buf in
  if negb (String.eqb (Fragment u) "") then buf ++ "#" ++ Fragment u else buf.

End GoURL.

(** ** [HREF] *)

Section Resolver.

(** [url.Parse] and [URL.String]. *)
Context (url_Parse : string -> result URL) (URL_String : URL -> string).

(** [absURLRE = ^https?:] *)
Definition absURLRE_MatchString (href : string) : bool :=
  GoStrings.HasPrefix href "http:" || GoStrings.HasPrefix href "https:".

(** [HREF(page, href)].  [uri] starts as a copy of [page]. *)
Definition HREF (page : URL) (href : string) : result URL :=
  let uri := page in
  match href with
  | EmptyString => Ok uri
  | String c _ =>
      if absURLRE_MatchString href || GoStrings.HasPrefix href "//" then
        match url_Parse href with
        | Err err => Err err
        | Ok uri =>
            let uri := if String.eqb (Scheme uri) "" then set_Scheme uri (Scheme page)
                       else uri in
            Ok uri
        end
      else if Ascii.eqb c "/" then
        let uri := set_Path uri "" in
        let uri := set_RawQuery uri "" in
        url_Parse (URL_String uri ++ href)
      else
        let uri := set_RawQuery uri "" in
        url_Parse (URL_String uri ++ "/" ++ href)
  end.

End Resolver.

(** ** [web.go]: pages and tasks *)

Module PageInfo.
#[warnings="-register-all"]
Inductive t : Type := mk {
  URL : URL;
  Ref : option t;
  Title : string;
  Index : Z
}.
Definition set_Title (p : t) (v : string) : t := mk (URL p) (Ref p) v (Index p).
End PageInfo.

Module Page.
Record t : Type := mk {
  PageInfo : PageInfo.t;
  Links : list URL;
  Downloads : list URL;
  Prints : list (list string)
}.
End Page.

Module pageTask.
Record t : Type := mk {
  PageInfo : PageInfo.t;
  Download : bool
}.
End pageTask.

Definition newPage (p : PageInfo.t) : Page.t := Page.mk p [] [] [].

(** ** [page]: the extractor

    goquery is consumed as a capability: [doc.Find(query)] yields the
    matched elements in document order, an element has a text and
    attributes. *)

Record Element : Type := mkElement {
  Text : string;
  attributes : list (string * string)
}.

(** [s.Attr(name)]: the value of the first attribute with that key. *)
Fixpoint Element_Attr (attrs : list (string * string)) (name : string) : option string :=
  match attrs with
  | [] => None
  | (k, v) :: attrs' => if String.eqb k name then Some v else Element_Attr attrs' name
  end.

Definition Document : Type := string -> list Element.

(** [multispaceRE = \s+], replaced by one space: [in_run] tells whether
    the previous byte was white space. *)
Fixpoint multispaceRE_replace (in_run : bool) (s : string) : string :=
  match s with
  | EmptyString => EmptyString
  | String c s' =>
      if GoRegexp.re_space c then
        if in_run then multispaceRE_replace true s'
        else String " " (multispaceRE_replace true s')
      else String c (multispaceRE_replace false s')
  end.

Section Extractor.

(** The closures passed to [qry] update the page under construction;
    [St] is the part of it a closure writes.  [None] stands for a
    run-time panic (an index out of range). *)
Context {St : Type}.

(** The body of [Each] in [qry], over the matched elements. *)
Fixpoint qry_each (sel : Selector) (qix : nat) (els : list Element)
    (add : nat -> string -> St -> option St) (st : St) : option St :=
  match els with
  | [] => Some st
  | e :: els' =>
      let r :=
        if String.eqb (Attr sel) "" then add qix (Text e) st
        else match Element_Attr (attributes e) (Attr sel) with
             | Some val => add qix val st
             | None => Some st
             end in
      match r with
      | Some st' => qry_each sel qix els' add st'
      | None => None
      end
  end.

(** [for qix, qry := range q], from index [qix] on. *)
Fixpoint qry_loop (doc : Document) (q : list Selector) (qix : nat)
    (add : nat -> string -> St -> option St) (st : St) : option St :=
  match q with
  | [] => Some st
  | sel :: q' =>
      match qry_each sel qix (doc (Query sel)) add st with
      | Some st' => qry_loop doc q' (S qix) add st'
      | None => None
      end
  end.

Definition qry (doc : Document) (q : list Selector)
    (add : nat -> string -> St -> option St) (st : St) : option St :=
  qry_loop doc q 0 add st.

End Extractor.

Section PageExtraction.

Context (url_Parse : string -> result URL) (URL_String : URL -> string).

(** [addLink(list)]: a reference that does not resolve is dropped. *)
Definition addLink (pi : PageInfo.t) (qix : nat) (data : string) (lst : list URL)
  : option (list URL) :=
  match HREF url_Parse URL_String (PageInfo.URL pi) data with
  | Err _ => Some lst
  | Ok href => Some (lst ++ [href])%list
  end.

(** The closure for the titles: the first match sets the title. *)
Definition addTitle (qix : nat) (data : string) (title : string) : option string :=
  if String.eqb title ""
  then Some (GoStrings.TrimSpace (multispaceRE_replace false data))
  else Some title.

(** The closure for the prints.  [entries] counts the matches of each
    clause, [prints] is [p.Prints] and [n] is [len(s.Prints)]. *)
Definition addPrint (n : nat) (qix : nat) (data : string)
    (st : gmap nat nat * list (list string)) : option (gmap nat nat * list (list string)) :=
  let '(entries, prints) := st in
  let entries := <[qix := S (default 0 (entries !! qix))]> entries in
  let k := default 0 (entries !! qix) in
  let prints := if (List.length prints <? k)%nat then (prints ++ [replicate n ""])%list else prints in
  match k with
  | O => None
  | S k' =>
      match prints !! k' with
      | None => None
      | Some row =>
          if (qix <? List.length row)%nat
          then Some (entries, <[k' := <[qix := data]> row]> prints)
          else None
      end
  end.

(** The extraction of [page], after the document has been fetched and
    parsed. *)
Definition extract (doc : Document) (pi : PageInfo.t) (s : Selectors.t) : option Page.t :=
  let p := newPage pi in
  match qry doc (Selectors.Links s) (addLink pi) (Page.Links p) with
  | None => None
  | Some links =>
  match qry doc (Selectors.Downloads s) (addLink pi) (Page.Downloads p) with
  | None => None
  | Some downloads =>
  match qry doc (Selectors.Titles s) addTitle (PageInfo.Title (Page.PageInfo p)) with
  | None => None
  | Some title =>
  match qry doc (Selectors.Prints s) (addPrint (List.length (Selectors.Prints s)))
            (∅, Page.Prints p) with
  | None => None
  | Some (_, prints) =>
      Some (Page.mk (PageInfo.set_Title (Page.PageInfo p) title) links downloads prints)
  end end end end.

End PageExtraction.

(** What an element gives to the closure of [qry] for clause [sel]: its
    text when the clause has no attribute, else the value of the
    attribute when the element has it. *)
Definition element_data (sel : Selector) (e : Element) : option string :=
  if String.eqb (Attr sel) "" then Some (Text e)
  else Element_Attr (attributes e) (Attr sel).

(** The data that clause [sel] hands to its closure, in order: the
    matches that the clause produces. *)
Definition clause_data (doc : Document) (sel : Selector) : list string :=
  omap (element_data sel) (doc (Query sel)).

(** ** [web.go]: the crawl loop

    [Recurse] is modelled as a transition system.  Its goroutines (the
    workers, the goroutines that feed the children of a page to [ch],
    and the caller of [Recurse]) take their steps one at a time, in any
    order; a step is one access to a variable that the goroutines
    share, one operation on a channel, one critical section of the lock
    [sem], or one call to the outside (the HTTP client, a callback).
    The arguments of [c.Progress] are read from left to right.  The
    clock advances and the context is cancelled by steps of their own. *)

Module Config.
Record t : Type := mk {
  UserAgent : string;
  Concurrency : Z
}.
End Config.

Record Web : Type := mkWeb { Web_c : Config.t }.

(** [New]: the default number of workers is 8.  The HTTP client is the
    parameter [http_get] of the crawl loop below. *)
Definition New (c : Config.t) : Web :=
  mkWeb (if (Config.Concurrency c <=? 0)%Z
         then Config.mk (Config.UserAgent c) 8
         else c).

Module RecursiveConfig.
(** A function value is [None] when it is [nil].  The two sinks that
    return nothing, [PrintCallback] and [Progress], are represented by
    whether they are set; their calls are recorded in the trace of the
    run.  [ProgressInterval] is in nanoseconds. *)
Record t : Type := mk {
  Selectors : Selectors.t;
  URLs : list string;
  Download : option (PageInfo.t -> bool);
  DownloadCallback : option (PageInfo.t -> string -> option error);
  PrintCallback : bool;
  ProgressInterval : Z;
  Progress : bool;
  ReverseLinks : bool;
  ReverseDownloads : bool
}.
End RecursiveConfig.

(** What a run does to the outside world, and what [page] returns. *)
Inductive event : Type :=
| EvGet (url : string) (referer : option string)
    (* get: one HTTP GET request *)
| EvExtracted (p : Page.t)
    (* page returned p *)
| EvDownload (pi : PageInfo.t) (b : bool)
    (* c.Download(pi) returned b *)
| EvDownloadCallback (pi : PageInfo.t) (err : option error)
    (* c.DownloadCallback(pi, r) returned err *)
| EvPrint (pi : PageInfo.t) (rows : list (list string))
    (* c.PrintCallback(pi, rows) *)
| EvProgress (err : option error) (current total : Z).
    (* c.Progress(err, current, total) *)

(** The control points of a call of the closure [progress]. *)
Inductive prog_pc : Type :=
| PCheck                 (* lines 114 and 117: the two tests *)
| PRead                  (* line 118: dlCount is read *)
| PCall (current : Z)    (* line 118: dlTotal is read, c.Progress is called *)
| PStamp.                (* line 119: lastProgress = time.Now() *)

(** The control points of a worker goroutine (lines 125 to 215). *)
Inductive wstate : Type :=
| WRecv                                   (* 126: for u := range ch *)
| WGerr (u : pageTask.t)                  (* 127: if gerr != nil *)
| WCtx (u : pageTask.t)                   (* 130: ctx.Err() *)
| WSetGerr (e : error)                    (* 131: gerr = err *)
| WCount (u : pageTask.t)                 (* 135: dlCount += 1 *)
| WRLock (u : pageTask.t)                 (* 137-143: the test under the read lock *)
| WLock (u : pageTask.t)                  (* 144-151: test and insertion under the lock *)
| WWork (u : pageTask.t)                  (* 153-156: download task or page task *)
| WDownload (u : pageTask.t)              (* 161: w.download, the request *)
| WCallback (u : pageTask.t) (r : string) (* 161: w.download, the callback *)
| WPage (u : pageTask.t)                  (* 167: w.page *)
| WAddTasks (u : pageTask.t) (p : Page.t) (* 173 *)
| WAddTotal (u : pageTask.t) (p : Page.t) (* 174 *)
| WPrint (u : pageTask.t) (p : Page.t)    (* 176-178 *)
| WSpawn (u : pageTask.t) (p : Page.t)    (* 180: go func() *)
| WProgress (err : option error) (pc : prog_pc)   (* 162, 169, 211 *)
| WDoDone                                 (* doDone(); continue *)
| WChDone                                 (* 214: chDone <- struct{}{} *)
| WExit                                   (* the goroutine has ended *)
| WPanic.                                 (* the goroutine has panicked *)

(** The control points of the goroutine that runs [Recurse] itself
    (lines 218 to 235, then the deferred call of line 122). *)
Inductive mstate : Type :=
| MSeed (urls : list URL)                        (* 218-220 *)
| MWait (cnt : Z)                                (* 223-235 *)
| MReturn (ret : option error) (pc : prog_pc)    (* 122: progress(nil, true) *)
| MDone (ret : option error).

(** The variables that the goroutines of [Recurse] share, the goroutines
    themselves and the world around them. *)
Record state : Type := mkState {
  (* the channel [ch], oldest task first *)
  ch : list pageTask.t;
  (* the number of values waiting in [chDone] *)
  chDone : nat;
  (* the keys of the map [done] *)
  done : gset string;
  tasks : Z;
  dlCount : Z;
  dlTotal : Z;
  gerr : option error;
  (* [None] is the zero [time.Time] *)
  lastProgress : option Z;
  (* [ctx.Err()] *)
  ctx_err : option error;
  (* the package variable [context.Canceled] *)
  context_Canceled : error;
  (* the clock, in nanoseconds *)
  clock : Z;
  (* the worker goroutines *)
  pool : list wstate;
  (* the goroutines of line 180: what each has still to send *)
  feeders : list (list pageTask.t);
  (* the goroutine that called [Recurse] *)
  main : mstate;
  (* what the run has done so far, latest first *)
  trace : list event;
  (* a goroutine has panicked *)
  panicked : bool
}.

(** Assignments to one variable of the run. *)
Definition set_ch (s : state) (v : list pageTask.t) : state :=
  mkState v (chDone s) (done s) (tasks s) (dlCount s) (dlTotal s) (gerr s) (lastProgress s) (ctx_err s) (context_Canceled s) (clock s) (pool s) (feeders s) (main s) (trace s) (panicked s).
Definition set_chDone (s : state) (v : nat) : state :=
  mkState (ch s) v (done s) (tasks s) (dlCount s) (dlTotal s) (gerr s) (lastProgress s) (ctx_err s) (context_Canceled s) (clock s) (pool s) (feeders s) (main s) (trace s) (panicked s).
Definition set_done (s : state) (v : gset string) : state :=
  mkState (ch s) (chDone s) v (tasks s) (dlCount s) (dlTotal s) (gerr s) (lastProgress s) (ctx_err s) (context_Canceled s) (clock s) (pool s) (feeders s) (main s) (trace s) (panicked s).
Definition set_tasks (s : state) (v : Z) : state :=
  mkState (ch s) (chDone s) (done s) v (dlCount s) (dlTotal s) (gerr s) (lastProgress s) (ctx_err s) (context_Canceled s) (clock s) (pool s) (feeders s) (main s) (trace s) (panicked s).
Definition set_dlCount (s : state) (v : Z) : state :=
  mkState (ch s) (chDone s) (done s) (tasks s) v (dlTotal s) (gerr s) (lastProgress s) (ctx_err s) (context_Canceled s) (clock s) (pool s) (feeders s) (main s) (trace s) (panicked s).
Definition set_dlTotal (s : state) (v : Z) : state :=
  mkState (ch s) (chDone s) (done s) (tasks s) (dlCount s) v (gerr s) (lastProgress s) (ctx_err s) (context_Canceled s) (clock s) (pool s) (feeders s) (main s) (trace s) (panicked s).
Definition set_gerr (s : state) (v : option error) : state :=
  mkState (ch s) (chDone s) (done s) (tasks s) (dlCount s) (dlTotal s) v (lastProgress s) (ctx_err s) (context_Canceled s) (clock s) (pool s) (feeders s) (main s) (trace s) (panicked s).
Definition set_lastProgress (s : state) (v : option Z) : state :=
  mkState (ch s) (chDone s) (done s) (tasks s) (dlCount s) (dlTotal s) (gerr s) v (ctx_err s) (context_Canceled s) (clock s) (pool s) (feeders s) (main s) (trace s) (panicked s).
Definition set_ctx_err (s : state) (v : option error) : state :=
  mkState (ch s) (chDone s) (done s) (tasks s) (dlCount s) (dlTotal s) (gerr s) (lastProgress s) v (context_Canceled s) (clock s) (pool s) (feeders s) (main s) (trace s) (panicked s).
Definition set_context_Canceled (s : state) (v : error) : state :=
  mkState (ch s) (chDone s) (done s) (tasks s) (dlCount s) (dlTotal s) (gerr s) (lastProgress s) (ctx_err s) v (clock s) (pool s) (feeders s) (main s) (trace s) (panicked s).
Definition set_clock (s : state) (v : Z) : state :=
  mkState (ch s) (chDone s) (done s) (tasks s) (dlCount s) (dlTotal s) (gerr s) (lastProgress s) (ctx_err s) (context_Canceled s) v (pool s) (feeders s) (main s) (trace s) (panicked s).
Definition set_pool (s : state) (v : list wstate) : state :=
  mkState (ch s) (chDone s) (done s) (tasks s) (dlCount s) (dlTotal s) (gerr s) (lastProgress s) (ctx_err s) (context_Canceled s) (clock s) v (feeders s) (main s) (trace s) (panicked s).
Definition set_feeders (s : state) (v : list (list pageTask.t)) : state :=
  mkState (ch s) (chDone s) (done s) (tasks s) (dlCount s) (dlTotal s) (gerr s) (lastProgress s) (ctx_err s) (context_Canceled s) (clock s) (pool s) v (main s) (trace s) (panicked s).
Definition set_main (s : state) (v : mstate) : state :=
  mkState (ch s) (chDone s) (done s) (tasks s) (dlCount s) (dlTotal s) (gerr s) (lastProgress s) (ctx_err s) (context_Canceled s) (clock s) (pool s) (feeders s) v (trace s) (panicked s).
Definition set_trace (s : state) (v : list event) : state :=
  mkState (ch s) (chDone s) (done s) (tasks s) (dlCount s) (dlTotal s) (gerr s) (lastProgress s) (ctx_err s) (context_Canceled s) (clock s) (pool s) (feeders s) (main s) v (panicked s).
Definition set_panicked (s : state) (v : bool) : state :=
  mkState (ch s) (chDone s) (done s) (tasks s) (dlCount s) (dlTotal s) (gerr s) (lastProgress s) (ctx_err s) (context_Canceled s) (clock s) (pool s) (feeders s) (main s) (trace s) v.

Definition log (e : event) (s : state) : state := set_trace s (e :: trace s).

(** [uint64] arithmetic. *)
Definition uint64_add (a b : Z) : Z := ((a + b) mod 2 ^ 64)%Z.
Definition uint64_of_nat (n : nat) : Z := (Z.of_nat n mod 2 ^ 64)%Z.
(** [^uint64(0)] *)
Definition MaxUint64 : Z := (2 ^ 64 - 1)%Z.

(** [doDone]: the decrement is the addition of [^uint64(0)]. *)
Definition doDone (s : state) : state := set_tasks s (uint64_add (tasks s) MaxUint64).

(** [time.Since(t)], which saturates at the largest [time.Duration];
    the zero [time.Time] is more than that before any present. *)
Definition maxDuration : Z := (2 ^ 63 - 1)%Z.
Definition time_Since (clock : Z) (t : option Z) : Z :=
  match t with
  | None => maxDuration
  | Some t0 => Z.min maxDuration (clock - t0)
  end.

(** [errors.As(err, &context.Canceled)].  The target has the type
    [*error]: [errors.As] looks for the first error in the chain of
    [err] that is assignable to the interface [error], and every error
    is.  So for an [err] that is not [nil] it stores [err] in the
    target, which is the package variable [context.Canceled], and
    reports [true]; for [nil] it reports [false] and stores nothing. *)
Definition errors_As_Canceled (err : option error) (s : state) : bool * state :=
  match err with
  | Some e => (true, set_context_Canceled s e)
  | None => (false, s)
  end.

(** The key of a task in [done]: [u.URL.String()]. *)
Definition task_URL (u : pageTask.t) : URL := PageInfo.URL (pageTask.PageInfo u).

(** The number of children of a page: [len(p.Links)+len(p.Downloads)]. *)
Definition children_count (p : Page.t) : nat :=
  (List.length (Page.Links p) + List.length (Page.Downloads p))%nat.

(** The loops of the goroutine of line 180: the tasks it sends, in the
    order it sends them.  [i] is the index of the head of the list and
    [n] the length of the whole slice. *)
Fixpoint download_tasks (rev : bool) (p : Page.t) (u : pageTask.t) (n i : nat)
    (l : list URL) : list pageTask.t :=
  match l with
  | [] => []
  | su :: l' =>
      let ix := if rev then (Z.of_nat n - Z.of_nat i - 1)%Z else Z.of_nat i in
      pageTask.mk (PageInfo.mk su (Some (Page.PageInfo p))
                               (PageInfo.Title (pageTask.PageInfo u)) ix) true
      :: download_tasks rev p u n (S i) l'
  end.

Fixpoint link_tasks (rev : bool) (p : Page.t) (n i : nat) (l : list URL)
    : list pageTask.t :=
  match l with
  | [] => []
  | su :: l' =>
      let ix := if rev then (Z.of_nat n - Z.of_nat i - 1)%Z else Z.of_nat i in
      pageTask.mk (PageInfo.mk su (Some (Page.PageInfo p)) "" ix) false
      :: link_tasks rev p n (S i) l'
  end.

Definition spawned (c : RecursiveConfig.t) (u : pageTask.t) (p : Page.t) : list pageTask.t :=
  (download_tasks (RecursiveConfig.ReverseDownloads c) p u
                  (List.length (Page.Downloads p)) 0 (Page.Downloads p)
   ++ link_tasks (RecursiveConfig.ReverseLinks c) p
                 (List.length (Page.Links p)) 0 (Page.Links p))%list.

(** The scheduler's choices: which goroutine moves, the passing of time
    and the cancellation of the context.  [ACancel e] is the moment
    from which [ctx.Err()] is [e]: for a context of
    [context.WithCancel], [e] is what the variable [context.Canceled]
    holds when the cancel function is called; for a deadline it is
    [context.DeadlineExceeded]; another implementation of
    [context.Context] may give any error. *)
Inductive action : Type :=
| AWorker (i : nat)
| AFeeder (j : nat)
| AMain
| ATimeout           (* the timer of line 230 fires *)
| ATick (dt : Z)
| ACancel (e : error).

(** The steps that leave everything but the clock as it is: the passing
    of time, and the timer of [Recurse] when [tasks] is not zero. *)
Definition idle (a : action) (s : state) : Prop :=
  match a with
  | ATick _ => True
  | ATimeout => tasks s <> 0%Z
  | _ => False
  end.

Section Crawl.

Context (url_Parse : string -> result URL) (URL_String : URL -> string).

(** The HTTP client and the network: the outcome of a GET request for
    a URL with a referer header, sent at a given time under a context
    whose [Err()] is given; [Ok] carries the body of the response. *)
Context (http_get : string -> option string -> Z -> option error -> result string).

(** [goquery.NewDocumentFromReader] *)
Context (NewDocumentFromReader : string -> result Document).

Context (w : Web) (c : RecursiveConfig.t).

(** Lines 85 to 88. *)
Definition workers : nat :=
  Z.to_nat (if (Config.Concurrency (Web_c w) <=? 0)%Z then 8%Z
            else Config.Concurrency (Web_c w)).

Definition url_key (u : pageTask.t) : string := URL_String (task_URL u).

Definition referer (p : PageInfo.t) : option string :=
  match PageInfo.Ref p with
  | Some r => Some (URL_String (PageInfo.URL r))
  | None => None
  end.

(** [w.get(ctx, p)] *)
Definition get (p : PageInfo.t) (s : state) : result string * state :=
  (http_get (URL_String (PageInfo.URL p)) (referer p) (clock s) (ctx_err s),
   log (EvGet (URL_String (PageInfo.URL p)) (referer p)) s).

(** [w.page(ctx, pi, s)]; [None] is a panic inside the extraction. *)
Definition page (pi : PageInfo.t) (sel : Selectors.t) (s : state)
  : option (result Page.t) * state :=
  let '(r, s) := get pi s in
  match r with
  | Err e => (Some (Err e), s)
  | Ok body =>
      match NewDocumentFromReader body with
      | Err e => (Some (Err e), s)
      | Ok doc =>
          match extract url_Parse URL_String doc pi sel with
          | None => (None, s)
          | Some p => (Some (Ok p), log (EvExtracted p) s)
          end
      end
  end.

(** One step of a call [progress(err, force)] that is at [pc]: the
    control point it moves to ([None] when the call returns) and the
    new state.  Calling a [nil] [c.Progress] panics. *)
Definition progress_step (err : option error) (force : bool) (pc : prog_pc) (s : state)
  : option prog_pc * state :=
  match pc with
  | PCheck =>
      let '(found, s) := errors_As_Canceled err s in
      if found then (None, s)
      else if force || bool_decide (err <> None)
              || (RecursiveConfig.ProgressInterval c <? time_Since (clock s) (lastProgress s))%Z
      then (Some PRead, s)
      else (None, s)
  | PRead => (Some (PCall (dlCount s)), s)
  | PCall current =>
      if RecursiveConfig.Progress c
      then (Some PStamp, log (EvProgress err current (dlTotal s)) s)
      else (None, set_panicked s true)
  | PStamp => (None, set_lastProgress s (Some (clock s)))
  end.

(** One step of a worker that is at [ws]: its next control point and
    the new state; [None] when the worker cannot move. *)
Definition worker_step (ws : wstate) (s : state) : option (wstate * state) :=
  match ws with
  | WRecv =>
      match ch s with
      | [] => None
      | u :: rest => Some (WGerr u, set_ch s rest)
      end
  | WGerr u =>
      match gerr s with
      | Some _ => Some (WChDone, s)
      | None => Some (WCtx u, s)
      end
  | WCtx u =>
      match ctx_err s with
      | Some err => Some (WSetGerr err, s)
      | None => Some (WCount u, s)
      end
  | WSetGerr err => Some (WChDone, set_gerr s (Some err))
  | WCount u => Some (WRLock u, set_dlCount s (uint64_add (dlCount s) 1))
  | WRLock u =>
      if bool_decide (url_key u ∈ done s) then Some (WDoDone, s)
      else Some (WLock u, s)
  | WLock u =>
      if bool_decide (url_key u ∈ done s) then Some (WDoDone, s)
      else Some (WWork u, set_done s ({[url_key u]} ∪ done s))
  | WWork u =>
      if pageTask.Download u then
        match RecursiveConfig.Download c with
        | None => Some (WDoDone, s)
        | Some pred =>
            match RecursiveConfig.DownloadCallback c with
            | None => Some (WDoDone, s)
            | Some _ =>
                let b := pred (pageTask.PageInfo u) in
                let s := log (EvDownload (pageTask.PageInfo u) b) s in
                if b then Some (WDownload u, s) else Some (WDoDone, s)
            end
        end
      else Some (WPage u, s)
  | WDownload u =>
      let '(r, s) := get (pageTask.PageInfo u) s in
      match r with
      | Err err => Some (WProgress (Some err) PCheck, s)
      | Ok body => Some (WCallback u body, s)
      end
  | WCallback u body =>
      match RecursiveConfig.DownloadCallback c with
      | None => Some (WPanic, set_panicked s true)
      | Some cb =>
          let err := cb (pageTask.PageInfo u) body in
          Some (WProgress err PCheck,
                log (EvDownloadCallback (pageTask.PageInfo u) err) s)
      end
  | WPage u =>
      let '(r, s) := page (pageTask.PageInfo u) (RecursiveConfig.Selectors c) s in
      match r with
      | None => Some (WPanic, set_panicked s true)
      | Some (Err err) => Some (WProgress (Some err) PCheck, s)
      | Some (Ok p) => Some (WAddTasks u p, s)
      end
  | WAddTasks u p =>
      Some (WAddTotal u p,
            set_tasks s (uint64_add (tasks s) (uint64_of_nat (children_count p))))
  | WAddTotal u p =>
      Some (WPrint u p,
            set_dlTotal s (uint64_add (dlTotal s) (uint64_of_nat (children_count p))))
  | WPrint u p =>
      if RecursiveConfig.PrintCallback c && negb (List.length (Page.Prints p) =? 0)%nat
      then Some (WSpawn u p, log (EvPrint (Page.PageInfo p) (Page.Prints p)) s)
      else Some (WSpawn u p, s)
  | WSpawn u p =>
      Some (WProgress None PCheck, set_feeders s (feeders s ++ [spawned c u p])%list)
  | WProgress err pc =>
      match progress_step err false pc s with
      | (Some pc', s') => Some (WProgress err pc', s')
      | (None, s') => Some (WDoDone, s')
      end
  | WDoDone => Some (WRecv, doDone s)
  | WChDone => Some (WExit, set_chDone s (S (chDone s)))
  | WExit => None
  | WPanic => None
  end.

(** A send on [ch], which holds at most [workers] tasks. *)
Definition send (t : pageTask.t) (s : state) : option state :=
  if (List.length (ch s) <? workers)%nat then Some (set_ch s (ch s ++ [t])%list)
  else None.

(** One step of the goroutine of [Recurse], other than the timer. *)
Definition main_step (m : mstate) (s : state) : option (mstate * state) :=
  match m with
  | MSeed [] => Some (MWait (Z.of_nat workers), s)
  | MSeed (u :: urls) =>
      match send (pageTask.mk (PageInfo.mk u None "" 0) false) s with
      | Some s' => Some (MSeed urls, s')
      | None => None
      end
  | MWait cnt =>
      match chDone s with
      | O => None
      | S k =>
          let s := set_chDone s k in
          let cnt := (cnt - 1)%Z in
          if (cnt =? 0)%Z then Some (MReturn (gerr s) PCheck, s)
          else Some (MWait cnt, s)
      end
  | MReturn ret pc =>
      match progress_step None true pc s with
      | (Some pc', s') => Some (MReturn ret pc', s')
      | (None, s') => Some (MDone ret, s')
      end
  | MDone _ => None
  end.

(** Line 230: the timer fires while [Recurse] waits. *)
Definition main_timeout (m : mstate) (s : state) : option (mstate * state) :=
  match m with
  | MWait cnt =>
      if (tasks s =? 0)%Z then Some (MReturn (gerr s) PCheck, s)
      else Some (MWait cnt, s)
  | _ => None
  end.

(** One step of the run; nothing moves after a panic. *)
Definition step (a : action) (s : state) : option state :=
  if panicked s then None else
  match a with
  | AWorker i =>
      match pool s !! i with
      | None => None
      | Some ws =>
          match worker_step ws s with
          | None => None
          | Some (ws', s') => Some (set_pool s' (<[i := ws']> (pool s')))
          end
      end
  | AFeeder j =>
      match feeders s !! j with
      | Some (t :: rest) =>
          match send t s with
          | Some s' => Some (set_feeders s' (<[j := rest]> (feeders s')))
          | None => None
          end
      | _ => None
      end
  | AMain =>
      match main_step (main s) s with
      | Some (m', s') => Some (set_main s' m')
      | None => None
      end
  | ATimeout =>
      match main_timeout (main s) s with
      | Some (m', s') => Some (set_main s' m')
      | None => None
      end
  | ATick dt => if (0 <? dt)%Z then Some (set_clock s (clock s + dt)%Z) else None
  | ACancel e =>
      match ctx_err s with
      | None => Some (set_ctx_err s (Some e))
      | Some _ => None
      end
  end.

(** Lines 90 to 97. *)
Fixpoint parse_seeds (uris : list string) : result (list URL) :=
  match uris with
  | [] => Ok []
  | uri :: uris' =>
      match url_Parse uri with
      | Err err => Err err
      | Ok u =>
          match parse_seeds uris' with
          | Err err => Err err
          | Ok us => Ok (u :: us)
          end
      end
  end.

(** Lines 90 to 124: the state in which the goroutines start, for a
    context whose [Err()] is [ctx0] and a clock that shows [t0];
    [context.Canceled] holds the error that the package gives it. *)
Definition Recurse_init (ctx0 : option error) (t0 : Z) : result state :=
  match parse_seeds (RecursiveConfig.URLs c) with
  | Err err => Err err
  | Ok urls =>
      Ok (mkState [] 0 ∅
                  (uint64_of_nat (List.length urls)) 0 (uint64_of_nat (List.length urls))
                  None None ctx0 Canceled t0
                  (replicate workers WRecv) [] (MSeed urls) [] false)
  end.

(** The states of the runs whose actions all satisfy [allowed]. *)
Inductive reachable_by (allowed : action -> Prop) (s0 : state) : state -> Prop :=
| reachable_start : reachable_by allowed s0 s0
| reachable_next s a s' :
    reachable_by allowed s0 s -> allowed a -> step a s = Some s' ->
    reachable_by allowed s0 s'.

Definition reachable : state -> state -> Prop := reachable_by (fun _ => True).

(** The same states, with the number of the steps of the run that are
    not idle. *)
Inductive reachable_in (allowed : action -> Prop) (s0 : state) : nat -> state -> Prop :=
| reachable_in_start : reachable_in allowed s0 0 s0
| reachable_in_idle n s a s' :
    reachable_in allowed s0 n s -> allowed a -> idle a s -> step a s = Some s' ->
    reachable_in allowed s0 n s'
| reachable_in_busy n s a s' :
    reachable_in allowed s0 n s -> allowed a -> ~ idle a s -> step a s = Some s' ->
    reachable_in allowed s0 (S n) s'.

Definition not_cancel (a : action) : Prop :=
  match a with ACancel _ => False | _ => True end.

(** The value that [Recurse] returns, once it has. *)
Definition returned (s : state) : option (option error) :=
  match main s with
  | MDone ret => Some ret
  | _ => None
  end.

End Crawl.

(** ** The equations of the design document for the resolver *)

(** The resolver on the text of URLs, as the design document writes its
    equations: [base] is parsed, [ref] is resolved against it by [HREF]
    and the result is serialised. *)
Definition resolve (base ref : string) : result string :=
  match GoURL.Parse base with
  | Err e => Err e
  | Ok page =>
      match HREF GoURL.Parse GoURL.String page ref with
      | Err e => Err e
      | Ok uri => Ok (GoURL.String uri)
      end
  end.

(** The rule of the design document for a reference that is a URL of
    its own: it is parsed alone and, when it has no scheme, it takes the
    scheme of the base. *)
Definition parsed_as_own_URL (url_Parse : string -> result URL)
    (page : URL) (href : string) : result URL :=
  match url_Parse href with
  | Err err => Err err
  | Ok uri => Ok (if String.eqb (Scheme uri) "" then set_Scheme uri (Scheme page) else uri)
  end.

(** A text that begins with some scheme and a colon. *)
Definition has_scheme_prefix (href : string) : bool :=
  match GoURL.getScheme href with
  | Ok (scheme, _) => negb (String.eqb scheme "")
  | Err _ => false
  end.

(** ** The table of prints, for the statement and proof of its shape *)

(** What [qry_each] does with the data of a clause. *)
Fixpoint feed {St : Type} (add : nat -> string -> St -> option St) (qix : nat)
    (ds : list string) (st : St) : option St :=
  match ds with
  | [] => Some st
  | d :: ds' => match add qix d st with
                | Some st' => feed add qix ds' st'
                | None => None
                end
  end.


Definition max_len (cols : list (list string)) : nat :=
  foldr (fun col m => Nat.max (List.length col) m) 0%nat cols.

Definition table_row (cols : list (list string)) (k : nat) : list string :=
  (fun col => default "" (col !! k)) <$> cols.

Definition table (cols : list (list string)) : list (list string) :=
  table_row cols <$> seq 0 (max_len cols).

Definition counts_ok (entries : gmap nat nat) (cols : list (list string)) : Prop :=
  forall j, default 0%nat (entries !! j) = List.length (default [] (cols !! j)).

(** Clause A matches three elements and clause B one. *)
Definition example_doc : Document := fun q =>
  if String.eqb q "A" then [mkElement "a0" []; mkElement "a1" []; mkElement "a2" []]
  else if String.eqb q "B" then [mkElement "b0" []]
  else [].

Definition example_prints : Selectors.t :=
  Selectors.mk [] [] [mkSelector "A" ""; mkSelector "B" ""] [].

Definition example_seed : PageInfo.t := PageInfo.mk GoURL.empty_URL None "" 0.

(** ** The accounting of a run

    The measures below count the tasks of a run where they are: still
    to be sent by [Recurse], in the channel, with a feeder, or in the
    hands of a worker. *)

Definition seeds_left (m : mstate) : nat :=
  match m with
  | MSeed urls => List.length urls
  | _ => 0%nat
  end.

(** The tasks that are waiting to be received by a worker. *)
Definition queued (s : state) : nat :=
  (seeds_left (main s) + List.length (ch s)
   + sum_list_with (fun l : list pageTask.t => List.length l) (feeders s))%nat.

(** What a worker accounts for in [tasks]: the task it has received and
    not yet reported done (a worker that leaves its loop keeps its task
    for ever), and the children it has added to [tasks] and not yet
    handed to a feeder. *)
Definition w_out (ws : wstate) : nat :=
  match ws with
  | WRecv => 0
  | WAddTotal _ p | WPrint _ p | WSpawn _ p => 1 + children_count p
  | _ => 1
  end%nat.

(** The tasks that [tasks] counts. *)
Definition outstanding (s : state) : nat :=
  (queued s + sum_list_with w_out (pool s))%nat.

(** The children a worker has found and not yet added to [tasks]. *)
Definition w_unadded_tasks (ws : wstate) : nat :=
  match ws with
  | WAddTasks _ p => children_count p
  | _ => 0%nat
  end.

(** The children a worker has found and not yet added to [dlTotal]. *)
Definition w_unadded_total (ws : wstate) : nat :=
  match ws with
  | WAddTasks _ p | WAddTotal _ p => children_count p
  | _ => 0%nat
  end.

(** What a worker accounts for in [dlTotal] and not in [dlCount]: the
    task it has received and not yet counted, and the children it has
    added to [dlTotal] and not yet handed to a feeder. *)
Definition w_uncounted (ws : wstate) : nat :=
  match ws with
  | WGerr _ | WCtx _ | WCount _ | WSetGerr _ | WChDone | WExit => 1
  | WPrint _ p | WSpawn _ p => children_count p
  | _ => 0
  end%nat.

(** The number of children of the pages that [page] has returned. *)
Definition discovered (tr : list event) : nat :=
  sum_list_with (fun e => match e with
                          | EvExtracted p => children_count p
                          | _ => 0%nat
                          end) tr.

(** The URLs of the GET requests of a trace, latest first. *)
Definition gets (tr : list event) : list string :=
  omap (fun e => match e with
                 | EvGet url _ => Some url
                 | _ => None
                 end) tr.

(** The number of GET requests of a trace for the URL [x]. *)
Definition get_count (x : string) (tr : list event) : nat :=
  sum_list_with (fun e => match e with
                          | EvGet url _ => if decide (url = x) then 1%nat else 0%nat
                          | _ => 0%nat
                          end) tr.

(** Whether a worker has entered [x] in [done] and has not yet sent the
    request for it. *)
Definition w_holds (URL_String : URL -> string) (x : string) (ws : wstate) : nat :=
  match ws with
  | WWork u | WDownload u | WPage u =>
      if decide (URL_String (task_URL u) = x) then 1%nat else 0%nat
  | _ => 0%nat
  end.

(** The fact that records that a call of [progress] which has read
    [dlCount] will report no more than [total]. *)
Definition prog_read_le (total : Z) (pc : prog_pc) : Prop :=
  match pc with
  | PCall current => (current <= total)%Z
  | _ => True
  end.

Definition w_read_le (total : Z) (ws : wstate) : Prop :=
  match ws with
  | WProgress _ pc => prog_read_le total pc
  | _ => True
  end.

Definition m_read_le (total : Z) (m : mstate) : Prop :=
  match m with
  | MReturn _ pc => prog_read_le total pc
  | _ => True
  end.

(** The reports of a trace all have [current <= total]. *)
Definition progress_ordered (tr : list event) : Prop :=
  Forall (fun e => match e with
                   | EvProgress _ current total => (current <= total)%Z
                   | _ => True
                   end) tr.

(** The reports of a trace that carry an error. *)
Definition is_error_report (e : event) : bool :=
  match e with
  | EvProgress (Some _) _ _ => true
  | _ => false
  end.

Definition error_reports (tr : list event) : list event :=
  List.filter is_error_report tr.



Definition is_callback_event (e : event) : bool :=
  match e with
  | EvDownloadCallback _ _ => true
  | _ => false
  end.


(** A call of [progress] with an error does not get past its first
    test. *)
Definition w_error_stopped (ws : wstate) : Prop :=
  match ws with
  | WProgress (Some _) PCheck => True
  | WProgress (Some _) _ => False
  | _ => True
  end.

(** ** Invariants of the runs *)

(** The counters of a run whose seeds are [n] in number. *)
Record counts_inv (n : nat) (s : state) : Prop := {
  ci_tasks :
    (outstanding s + sum_list_with w_unadded_tasks (pool s)
     <= n + discovered (trace s))%nat;
  ci_exact :
    (Z.of_nat n + Z.of_nat (discovered (trace s)) < 2 ^ 64)%Z ->
    tasks s = Z.of_nat (outstanding s) /\
    (dlTotal s + Z.of_nat (sum_list_with w_unadded_total (pool s))
     = Z.of_nat n + Z.of_nat (discovered (trace s)))%Z /\
    (dlCount s + Z.of_nat (queued s) + Z.of_nat (sum_list_with w_uncounted (pool s))
     = dlTotal s)%Z /\
    (0 <= dlCount s)%Z /\
    Forall (w_read_le (dlTotal s)) (pool s) /\
    m_read_le (dlTotal s) (main s) /\
    progress_ordered (trace s)
}.

(** Each URL is requested or about to be requested at most once, and
    only after it has been entered in [done]. *)
Definition fetch_inv (URL_String : URL -> string) (s : state) : Prop :=
  forall x,
    (get_count x (trace s) + sum_list_with (w_holds URL_String x) (pool s) <= 1)%nat /\
    ((1 <= get_count x (trace s) + sum_list_with (w_holds URL_String x) (pool s))%nat ->
     x ∈ done s).

(** No report carries an error, and no call of [progress] with an error
    is past its first test. *)
Definition silent_inv (s : state) : Prop :=
  error_reports (trace s) = [] /\ Forall w_error_stopped (pool s).


(** ** Schedules *)

(** The state that a list of scheduler choices leads to, when each of
    them is possible in turn. *)
Fixpoint run_actions (step : action -> state -> option state)
    (acts : list action) (s : state) : option state :=
  match acts with
  | [] => Some s
  | a :: acts' =>
      match step a s with
      | Some s' => run_actions step acts' s'
      | None => None
      end
  end.

(** The state of a run without seeds or workers, before its first step. *)
Definition blank_state : state :=
  mkState [] 0 ∅ 0 0 0 None None None Canceled 0 [] [] (MSeed []) [] false.

Definition state_of_result (r : result state) : state :=
  match r with
  | Ok s => s
  | Err _ => blank_state
  end.

(** A crawl of one seed with one worker, on a network that refuses
    every connection. *)
Module Offline.

Definition http_get (url : string) (referer : option string) (clock : Z)
    (ctx : option error) : result string :=
  Err (ErrOther "connection refused").

Definition NewDocumentFromReader (body : string) : result Document :=
  Ok (fun _ => []).

Definition web : Web := New (Config.mk "" 1).

Definition conf : RecursiveConfig.t :=
  RecursiveConfig.mk (Selectors.mk [] [] [] []) ["https://a.com/"]
                     None None false 0 true false false.

Definition step : action -> state -> option state :=
  step GoURL.Parse GoURL.String http_get NewDocumentFromReader web conf.

Definition init : result state := Recurse_init GoURL.Parse web conf None 0.

(** [Recurse] sends the seed and waits; the worker takes the task,
    fails to fetch it, calls [progress] and reports the task done;
    the timer fires and [Recurse] returns through the deferred call. *)
Definition schedule : list action :=
  [AMain; AMain]
  ++ replicate 10 (AWorker 0)
  ++ [ATimeout; AMain; AMain; AMain; AMain].

Definition start : state := Eval vm_compute in state_of_result init.

Definition at_end : state :=
  Eval vm_compute in default blank_state (run_actions step schedule start).

End Offline.

(** ** Termination of a run without cancellation

    [U] is a finite set of URLs that holds the seeds and the children of
    every page that can be fetched from it, and [B] bounds the number of
    children of such a page. *)

(** The steps that a call of [progress] has still to take. *)
Definition prog_cost (pc : prog_pc) : nat :=
  match pc with
  | PCheck => 4
  | PRead => 3
  | PCall _ => 2
  | PStamp => 1
  end.

(** The steps that a worker has still to take for the task it holds,
    with the steps that receiving and handling each child of its page
    will take; a task that is not yet in [done] is charged to [U]. *)
Definition w_cost (B : nat) (ws : wstate) : nat :=
  match ws with
  | WRecv => 0
  | WGerr _ => 6
  | WCtx _ => 5
  | WCount _ => 4
  | WRLock _ => 3
  | WLock _ => 2
  | WWork _ => 11 + 8 * B
  | WDownload _ => 7
  | WCallback _ _ => 6
  | WPage _ => 10 + 8 * B
  | WAddTasks _ p => 9 + 8 * children_count p
  | WAddTotal _ p => 8 + 8 * children_count p
  | WPrint _ p => 7 + 8 * children_count p
  | WSpawn _ p => 6 + 8 * children_count p
  | WProgress _ pc => 1 + prog_cost pc
  | WDoDone => 1
  | WSetGerr _ => 3
  | WChDone => 2
  | WExit => 0
  | WPanic => 0
  end%nat.

Definition m_cost (m : mstate) : nat :=
  match m with
  | MSeed urls => 6 + 8 * List.length urls
  | MWait _ => 5
  | MReturn _ pc => prog_cost pc
  | MDone _ => 0
  end%nat.

(** A bound on the number of steps that the goroutines can still take. *)
Definition potential (U : gset string) (B : nat) (s : state) : nat :=
  (m_cost (main s) + chDone s + 7 * List.length (ch s)
   + 8 * sum_list_with (fun l : list pageTask.t => List.length l) (feeders s)
   + sum_list_with (w_cost B) (pool s)
   + (11 + 8 * B) * size (U ∖ done s))%nat.

Definition page_in (URL_String : URL -> string) (U : gset string) (B : nat)
    (p : Page.t) : Prop :=
  Forall (fun u => URL_String u ∈ U) (Page.Downloads p) /\
  Forall (fun u => URL_String u ∈ U) (Page.Links p) /\
  (children_count p <= B)%nat.

Definition task_in (URL_String : URL -> string) (U : gset string) (t : pageTask.t) : Prop :=
  URL_String (task_URL t) ∈ U.

Definition w_in (URL_String : URL -> string) (U : gset string) (B : nat)
    (ws : wstate) : Prop :=
  match ws with
  | WGerr u | WCtx u | WCount u | WRLock u | WLock u | WWork u
  | WDownload u | WCallback u _ | WPage u => task_in URL_String U u
  | WAddTasks _ p | WAddTotal _ p | WPrint _ p | WSpawn _ p => page_in URL_String U B p
  | _ => True
  end.

Definition m_in (URL_String : URL -> string) (U : gset string) (m : mstate) : Prop :=
  match m with
  | MSeed urls => Forall (fun u => URL_String u ∈ U) urls
  | _ => True
  end.

(** Every task of the run is for a URL of [U]. *)
Record universe_inv (URL_String : URL -> string) (U : gset string) (B : nat)
    (s : state) : Prop := {
  ui_ch : Forall (task_in URL_String U) (ch s);
  ui_feeders : Forall (Forall (task_in URL_String U)) (feeders s);
  ui_pool : Forall (w_in URL_String U B) (pool s);
  ui_main : m_in URL_String U (main s);
  ui_done : done s ⊆ U;
  ui_discovered : (discovered (trace s) <= B * List.length (gets (trace s)))%nat
}.

(** A worker that has not left its loop and will not panic. *)
Definition w_alive (c : RecursiveConfig.t) (ws : wstate) : Prop :=
  match ws with
  | WSetGerr _ | WChDone | WExit | WPanic => False
  | WDownload _ | WCallback _ _ => RecursiveConfig.DownloadCallback c <> None
  | _ => True
  end.

Definition m_quiet (s : state) : Prop :=
  match main s with
  | MReturn ret _ | MDone ret => ret = None /\ outstanding s = 0%nat
  | _ => True
  end.

(** What holds of a run that is not cancelled. *)
Record quiet_inv (c : RecursiveConfig.t) (nworkers : nat) (s : state) : Prop := {
  qi_ctx : ctx_err s = None;
  qi_gerr : gerr s = None;
  qi_panicked : panicked s = false;
  qi_chDone : chDone s = 0%nat;
  qi_pool : Forall (w_alive c) (pool s);
  qi_workers : List.length (pool s) = nworkers;
  qi_main : m_quiet s
}.

(** A crawl of one seed with two workers.  Every page is the same: it
    links to the seed and shows one image.  Nothing is downloaded, the
    predicate and the callback being [nil]. *)
Module Online.

Definition http_get (url : string) (referer : option string) (clock : Z)
    (ctx : option error) : result string :=
  Ok "<html>".

Definition document : Document := fun q =>
  if String.eqb q "a" then [mkElement "home" [("href", "https://a.com/")]]
  else if String.eqb q "img" then [mkElement "" [("src", "https://a.com/i.png")]]
  else [].

Definition NewDocumentFromReader (body : string) : result Document := Ok document.

Definition web : Web := New (Config.mk "" 2).

Definition conf : RecursiveConfig.t :=
  RecursiveConfig.mk
    (Selectors.mk (NewSelector "a[href]") (NewSelector "img[src]") [] [])
    ["https://a.com/"] None None false 0 true false false.

Definition step : action -> state -> option state :=
  step GoURL.Parse GoURL.String http_get NewDocumentFromReader web conf.

Definition init : result state := Recurse_init GoURL.Parse web conf None 0.

Definition universe : gset string := {["https://a.com/"; "https://a.com/i.png"]}.

(** [Recurse] sends the seed and waits; worker 0 fetches the seed and
    starts a feeder; the feeder sends the download task, which worker
    1 takes up to the test of the predicate. *)
Definition schedule_to_download : list action :=
  [AMain; AMain]
  ++ replicate 17 (AWorker 0)
  ++ [AFeeder 0]
  ++ replicate 6 (AWorker 1).

(** Worker 1 skips the download; the feeder sends the link, which
    worker 0 finds in [done]; the timer fires and [Recurse] returns. *)
Definition schedule_to_end : list action :=
  replicate 2 (AWorker 1)
  ++ [AFeeder 0]
  ++ replicate 6 (AWorker 0)
  ++ [ATimeout; AMain; AMain; AMain; AMain].

Definition start : state := Eval vm_compute in state_of_result init.

Definition at_download : state :=
  Eval vm_compute in
    default blank_state (run_actions step schedule_to_download start).

Definition at_end : state :=
  Eval vm_compute in
    default blank_state (run_actions step schedule_to_end at_download).




End Online.

(** The crawl of [Online] without a progress sink: [Recurse] sends the
    seed and waits; worker 0 fetches the seed, counts its two children,
    starts the feeder and calls [progress], which calls the [nil]
    [c.Progress]. *)
Module Unwatched.

Definition conf : RecursiveConfig.t :=
  RecursiveConfig.mk (RecursiveConfig.Selectors Online.conf)
                     (RecursiveConfig.URLs Online.conf)
                     None None false 0 false false false.

Definition step : action -> state -> option state :=
  step GoURL.Parse GoURL.String Online.http_get Online.NewDocumentFromReader
       Online.web conf.

Definition init : result state := Recurse_init GoURL.Parse Online.web conf None 0.

Definition schedule : list action :=
  [AMain; AMain] ++ replicate 15 (AWorker 0).

Definition start : state := Eval vm_compute in state_of_result init.

Definition at_panic : state :=
  Eval vm_compute in default blank_state (run_actions step schedule start).

End Unwatched.
(** ** Selector parsing: the pieces of a selector list *)

(** A text made of the bytes of the class [\s] only. *)
Fixpoint all_space (s : string) : bool :=
  match s with
  | EmptyString => true
  | String c s' => GoRegexp.re_space c && all_space s'
  end.

(** A text made of commas and of bytes of the class [\s]. *)
Fixpoint sepchars (s : string) : bool :=
  match s with
  | EmptyString => true
  | String c s' => (Ascii.eqb c "," || GoRegexp.re_space c) && sepchars s'
  end.

(** The clause as it is written: the query, then the attribute between
    brackets when there is one. *)
Definition Selector_text (sel : Selector) : string :=
  if String.eqb (Attr sel) "" then Query sel
  else Query sel ++ "[" ++ Attr sel ++ "]".

(** The pieces of a selector list that [NewSelector] keeps: the texts
    between the commas, trimmed, without the empty ones. *)
Definition selector_pieces (s : string) : list string :=
  List.filter (fun p => negb (String.eqb p ""))
              (GoStrings.TrimSpace <$> GoStrings.Split_comma s).

(** ** The extractor: links and titles *)

(** The data that the clauses of a group hand to their closure, in the
    order of the calls: clause after clause, and for each clause its
    matches in document order. *)
Definition group_data (doc : Document) (q : list Selector) : list string :=
  List.concat (clause_data doc <$> q).

(** A reference resolved against the URL of the page, when it
    resolves. *)
Definition resolved (url_Parse : string -> result URL) (URL_String : URL -> string)
    (page : URL) (data : string) : option URL :=
  match HREF url_Parse URL_String page data with
  | Ok href => Some href
  | Err _ => None
  end.

(** The title that the closure for the titles makes of a match:
    [strings.TrimSpace(multispaceRE.ReplaceAllString(data, " "))]. *)
Definition title_text (data : string) : string :=
  GoStrings.TrimSpace (multispaceRE_replace false data).

(** The first text of a list that is not empty, or the empty text. *)
Fixpoint first_nonempty (l : list string) : string :=
  match l with
  | [] => ""
  | t :: l' => if String.eqb t "" then first_nonempty l' else t
  end.

(** A text in which white space of the class [\s] only occurs as single
    spaces; [prev] tells whether the byte before the text is a space. *)
Fixpoint single_spaced (prev : bool) (s : string) : bool :=
  match s with
  | EmptyString => true
  | String c s' =>
      if Ascii.eqb c " " then negb prev && single_spaced true s'
      else negb (GoRegexp.re_space c) && single_spaced false s'
  end.

(** ** More invariants of the runs *)

(** The error that a worker is about to store in [gerr] is the error of
    the context. *)
Definition w_gerr_from_ctx (ctx : option error) (ws : wstate) : Prop :=
  match ws with
  | WSetGerr e => ctx = Some e
  | _ => True
  end.

(** The error that [Recurse] is about to return is the error of the
    context. *)
Definition m_ret_from_ctx (ctx : option error) (m : mstate) : Prop :=
  match m with
  | MReturn (Some e) _ | MDone (Some e) => ctx = Some e
  | _ => True
  end.

Definition gerr_inv (s : state) : Prop :=
  (forall e, gerr s = Some e -> ctx_err s = Some e) /\
  Forall (w_gerr_from_ctx (ctx_err s)) (pool s) /\
  m_ret_from_ctx (ctx_err s) (main s).

(** A report without an error. *)
Definition is_nil_report (e : event) : bool :=
  match e with
  | EvProgress None _ _ => true
  | _ => false
  end.

(** Once the deferred call of [progress] is past its call of
    [c.Progress], the trace holds a report without an error. *)
Definition final_report_inv (s : state) : Prop :=
  match main s with
  | MReturn _ PStamp | MDone _ => existsb is_nil_report (trace s) = true
  | _ => True
  end.

(** The deferred call of [progress] gets past its call of [c.Progress]
    by a panic only. *)
Definition final_panic_inv (s : state) : Prop :=
  match main s with
  | MReturn _ PStamp | MDone _ => panicked s = true
  | _ => True
  end.

(** A crawl of one seed with one worker under a context that is
    already cancelled. *)
Module Cancelled.

Definition step : action -> state -> option state := Offline.step.

Definition init : result state :=
  Recurse_init GoURL.Parse Offline.web Offline.conf (Some Canceled) 0.

(** [Recurse] sends the seed and waits; the worker takes the task, sees
    the error of the context, stores it and leaves its loop; [Recurse]
    counts the worker out and returns through the deferred call. *)
Definition schedule : list action :=
  [AMain; AMain] ++ replicate 5 (AWorker 0) ++ replicate 5 AMain.

Definition start : state := Eval vm_compute in state_of_result init.

Definition at_end : state :=
  Eval vm_compute in default blank_state (run_actions step schedule start).

End Cancelled.

(** The crawl of [Offline] without a progress sink. *)
Module NoProgress.

Definition conf : RecursiveConfig.t :=
  RecursiveConfig.mk (Selectors.mk [] [] [] []) ["https://a.com/"]
                     None None false 0 false false false.

Definition step : action -> state -> option state :=
  step GoURL.Parse GoURL.String Offline.http_get Offline.NewDocumentFromReader
       Offline.web conf.

Definition init : result state := Recurse_init GoURL.Parse Offline.web conf None 0.

(** As in [Offline], up to the call of [c.Progress]. *)
Definition schedule : list action :=
  [AMain; AMain] ++ replicate 10 (AWorker 0) ++ [ATimeout; AMain; AMain; AMain].

Definition start : state := Eval vm_compute in state_of_result init.

Definition at_end : state :=
  Eval vm_compute in default blank_state (run_actions step schedule start).

End NoProgress.

(** A crawl of one seed with one worker.  Every page is the same: it
    has a title, links to a second page and shows one image.  Every
    download is accepted and the callback succeeds. *)
Module Gallery.

Definition http_get (url : string) (referer : option string) (clock : Z)
    (ctx : option error) : result string :=
  Ok "<html>".

Definition document : Document := fun q =>
  if String.eqb q "a" then [mkElement "next" [("href", "https://a.com/b")]]
  else if String.eqb q "img" then [mkElement "" [("src", "https://a.com/i.png")]]
  else if String.eqb q "h1" then [mkElement "A  gallery" []]
  else [].

Definition NewDocumentFromReader (body : string) : result Document := Ok document.

Definition web : Web := New (Config.mk "" 1).

Definition conf : RecursiveConfig.t :=
  RecursiveConfig.mk
    (Selectors.mk (NewSelector "a[href]") (NewSelector "img[src]")
                  (NewSelector "h1") (NewSelector "h1"))
    ["https://a.com/"]
    (Some (fun _ => true)) (Some (fun _ _ => None)) true 0 true false false.

Definition step : action -> state -> option state :=
  step GoURL.Parse GoURL.String http_get NewDocumentFromReader web conf.

Definition init : result state := Recurse_init GoURL.Parse web conf None 0.

(** [Recurse] sends the seed and waits.  The worker fetches the seed,
    calls the print callback and starts a feeder; it takes the image
    from the feeder and downloads it; it takes the second page and
    fetches it, which starts a second feeder; the image and the link of
    the second page are in [done].  The timer fires and [Recurse]
    returns. *)
Definition schedule : list action :=
  [AMain; AMain]
  ++ replicate 17 (AWorker 0)
  ++ [AFeeder 0] ++ replicate 11 (AWorker 0)
  ++ [AFeeder 0] ++ replicate 14 (AWorker 0)
  ++ [AFeeder 1] ++ replicate 6 (AWorker 0)
  ++ [AFeeder 1] ++ replicate 6 (AWorker 0)
  ++ [ATimeout; AMain; AMain; AMain; AMain].

Definition start : state := Eval vm_compute in state_of_result init.

Definition at_end : state :=
  Eval vm_compute in default blank_state (run_actions step schedule start).

End Gallery.

(** ** The referer of a request *)

(** Every request of a trace (latest first) that carries a referer
    names a URL that was requested before it. *)
Fixpoint referers_known (tr : list event) : Prop :=
  match tr with
  | [] => True
  | EvGet _ (Some r) :: tr' => r ∈ gets tr' /\ referers_known tr'
  | _ :: tr' => referers_known tr'
  end.

(** The page that a task refers to, when there is one, has been
    requested: its URL is in [G]. *)
Definition ref_ok (URL_String : URL -> string) (G : list string) (t : pageTask.t) : Prop :=
  match PageInfo.Ref (pageTask.PageInfo t) with
  | Some r => URL_String (PageInfo.URL r) ∈ G
  | None => True
  end.

(** The same for the task that a worker has not yet requested, and for
    the page that it has extracted. *)
Definition w_ref_ok (URL_String : URL -> string) (G : list string) (ws : wstate) : Prop :=
  match ws with
  | WGerr u | WCtx u | WCount u | WRLock u | WLock u | WWork u
  | WDownload u | WPage u => ref_ok URL_String G u
  | WAddTasks _ p | WAddTotal _ p | WPrint _ p | WSpawn _ p =>
      URL_String (PageInfo.URL (Page.PageInfo p)) ∈ G
  | _ => True
  end.

Definition referer_inv (URL_String : URL -> string) (s : state) : Prop :=
  Forall (ref_ok URL_String (gets (trace s))) (ch s) /\
  Forall (Forall (ref_ok URL_String (gets (trace s)))) (feeders s) /\
  Forall (w_ref_ok URL_String (gets (trace s))) (pool s) /\
  referers_known (trace s).

(** ** What the callbacks are given *)

(** A download task that was found on the page [p] (lines 181 to 195):
    it refers to [p], its URL is one of the downloads of [p], and its
    index is the position of that download, counted from the end when
    [c.ReverseDownloads] is set. *)
Definition found_on (c : RecursiveConfig.t) (p : Page.t) (pi : PageInfo.t) : Prop :=
  PageInfo.Ref pi = Some (Page.PageInfo p) /\
  exists i : nat,
    Page.Downloads p !! i = Some (PageInfo.URL pi) /\
    PageInfo.Index pi
    = if RecursiveConfig.ReverseDownloads c
      then (Z.of_nat (List.length (Page.Downloads p)) - Z.of_nat i - 1)%Z
      else Z.of_nat i.

(** The page that a download task comes from: a page that [page] has
    returned, by the trace [tr], and that the task was found on. *)
Definition from_page (c : RecursiveConfig.t) (tr : list event) (pi : PageInfo.t) : Prop :=
  exists p, EvExtracted p ∈ tr /\ found_on c p pi.

(** The tasks of a run: the title of a task is empty (the title of a
    page is in the page that its children refer to), and a download
    task comes from a page that [page] has returned. *)
Definition task_shape (c : RecursiveConfig.t) (tr : list event) (t : pageTask.t) : Prop :=
  PageInfo.Title (pageTask.PageInfo t) = "" /\
  (pageTask.Download t = true -> from_page c tr (pageTask.PageInfo t)).

(** The task that a worker holds. *)
Definition w_task (ws : wstate) : option pageTask.t :=
  match ws with
  | WGerr u | WCtx u | WCount u | WRLock u | WLock u | WWork u
  | WDownload u | WCallback u _ | WPage u
  | WAddTasks u _ | WAddTotal u _ | WPrint u _ | WSpawn u _ => Some u
  | _ => None
  end.

(** What the trace (latest event first) holds when a worker is inside
    [w.download] or has a page in hand. *)
Definition w_called (URL_String : URL -> string) (tr : list event) (ws : wstate) : Prop :=
  match ws with
  | WDownload u =>
      pageTask.Download u = true /\ EvDownload (pageTask.PageInfo u) true ∈ tr
  | WCallback u _ =>
      pageTask.Download u = true /\ EvDownload (pageTask.PageInfo u) true ∈ tr /\
      EvGet (URL_String (PageInfo.URL (pageTask.PageInfo u)))
            (referer URL_String (pageTask.PageInfo u)) ∈ tr
  | WAddTasks _ p | WAddTotal _ p | WPrint _ p | WSpawn _ p => EvExtracted p ∈ tr
  | _ => True
  end.

Definition w_shape (URL_String : URL -> string) (c : RecursiveConfig.t)
    (tr : list event) (ws : wstate) : Prop :=
  match w_task ws with
  | Some u => task_shape c tr u
  | None => True
  end /\ w_called URL_String tr ws.

(** The calls of the predicate and of the callback in a trace (latest
    event first): both are given a task with an empty title that was
    found on a page that [page] had returned before, and the callback
    is called for a task that the predicate has accepted and that has
    been requested. *)
Fixpoint downloads_ok (URL_String : URL -> string) (c : RecursiveConfig.t)
    (tr : list event) : Prop :=
  match tr with
  | [] => True
  | EvDownload pi _ :: tr' =>
      (PageInfo.Title pi = "" /\ from_page c tr' pi) /\
      downloads_ok URL_String c tr'
  | EvDownloadCallback pi _ :: tr' =>
      (PageInfo.Title pi = "" /\ from_page c tr' pi /\
       EvDownload pi true ∈ tr' /\
       EvGet (URL_String (PageInfo.URL pi)) (referer URL_String pi) ∈ tr') /\
      downloads_ok URL_String c tr'
  | _ :: tr' => downloads_ok URL_String c tr'
  end.

(** The calls of the print callback in a trace: the callback is set,
    and it is given the page information and the rows of a page that
    [page] has returned, the rows being at least one. *)
Fixpoint prints_ok (c : RecursiveConfig.t) (tr : list event) : Prop :=
  match tr with
  | [] => True
  | EvPrint pi rows :: tr' =>
      (RecursiveConfig.PrintCallback c = true /\ rows <> [] /\
       exists p, EvExtracted p ∈ tr' /\ pi = Page.PageInfo p /\ rows = Page.Prints p) /\
      prints_ok c tr'
  | _ :: tr' => prints_ok c tr'
  end.

Definition callback_inv (URL_String : URL -> string) (c : RecursiveConfig.t)
    (s : state) : Prop :=
  Forall (task_shape c (trace s)) (ch s) /\
  Forall (Forall (task_shape c (trace s))) (feeders s) /\
  Forall (w_shape URL_String c (trace s)) (pool s) /\
  downloads_ok URL_String c (trace s) /\
  prints_ok c (trace s).

(** ** One call of the predicate and of the callback for a URL *)

(** The URL for which an event is a call of [c.Download], and the URL
    for which it is a call of [c.DownloadCallback]. *)
Definition predicate_call (URL_String : URL -> string) (e : event) : option string :=
  match e with
  | EvDownload pi _ => Some (URL_String (PageInfo.URL pi))
  | _ => None
  end.

Definition callback_call (URL_String : URL -> string) (e : event) : option string :=
  match e with
  | EvDownloadCallback pi _ => Some (URL_String (PageInfo.URL pi))
  | _ => None
  end.

(** The number of events of a trace that [f] maps to [x]. *)
Definition key_count (f : event -> option string) (x : string) (tr : list event) : nat :=
  sum_list_with (fun e => match f e with
                          | Some y => if decide (y = x) then 1%nat else 0%nat
                          | None => 0%nat
                          end) tr.

(** Whether a worker has entered [x] in [done] and has not yet come to
    the call of the predicate, or to the call of the callback. *)
Definition w_before_predicate (URL_String : URL -> string) (x : string) (ws : wstate) : nat :=
  match ws with
  | WWork u => if decide (URL_String (task_URL u) = x) then 1%nat else 0%nat
  | _ => 0%nat
  end.

Definition w_before_callback (URL_String : URL -> string) (x : string) (ws : wstate) : nat :=
  match ws with
  | WWork u | WDownload u | WCallback u _ =>
      if decide (URL_String (task_URL u) = x) then 1%nat else 0%nat
  | _ => 0%nat
  end.

Definition once_inv (URL_String : URL -> string) (s : state) : Prop :=
  forall x,
    let np := (key_count (predicate_call URL_String) x (trace s)
               + sum_list_with (w_before_predicate URL_String x) (pool s))%nat in
    let nc := (key_count (callback_call URL_String) x (trace s)
               + sum_list_with (w_before_callback URL_String x) (pool s))%nat in
    (np <= 1)%nat /\ (nc <= 1)%nat /\
    ((1 <= np)%nat -> x ∈ done s) /\ ((1 <= nc)%nat -> x ∈ done s).

(** ** The channels, and a run under a cancelled context *)

(** A worker that has sent its value on [chDone]. *)
Definition w_exited (ws : wstate) : nat :=
  match ws with
  | WExit => 1%nat
  | _ => 0%nat
  end.

(** A worker that holds a task and has not sent its value on
    [chDone]. *)
Definition w_busy (ws : wstate) : nat :=
  match ws with
  | WRecv | WExit => 0%nat
  | _ => 1%nat
  end.

(** The values in the channels are no more than the channels hold. *)
Definition channel_inv (nworkers : nat) (s : state) : Prop :=
  (List.length (ch s) <= nworkers)%nat /\
  (chDone s <= sum_list_with w_exited (pool s))%nat /\
  List.length (pool s) = nworkers.

(** The control points of a worker that finds the context cancelled. *)
Definition w_stopping (ws : wstate) : Prop :=
  match ws with
  | WRecv | WGerr _ | WCtx _ | WSetGerr _ | WChDone | WExit => True
  | _ => False
  end.

(** The values that [Recurse] has still to receive from [chDone] before
    it returns, as the workers that have left their loop account for
    them. *)
Definition m_waiting (nworkers : nat) (s : state) : Prop :=
  match main s with
  | MSeed _ => chDone s = sum_list_with w_exited (pool s)
  | MWait cnt =>
      (cnt + Z.of_nat (sum_list_with w_exited (pool s))
       = Z.of_nat nworkers + Z.of_nat (chDone s))%Z
  | _ => False
  end.

(** A run of [n] seeds under a context that was cancelled before the
    call: nothing is requested, the tasks that the workers take are not
    reported done, and the workers that have not taken one wait. *)
Record cancelled_inv (e : error) (n nworkers : nat) (s : state) : Prop := {
  ca_ctx : ctx_err s = Some e;
  ca_panicked : panicked s = false;
  ca_trace : trace s = [];
  ca_feeders : feeders s = [];
  ca_tasks : tasks s = Z.of_nat n;
  ca_pool : Forall w_stopping (pool s);
  ca_workers : List.length (pool s) = nworkers;
  ca_count :
    (seeds_left (main s) + List.length (ch s)
     + sum_list_with w_busy (pool s) + sum_list_with w_exited (pool s) = n)%nat;
  ca_main : m_waiting nworkers s
}.

(** The crawl of [Offline] with two workers, under a context that is
    already cancelled. *)
Module Stuck.

Definition web : Web := New (Config.mk "" 2).

Definition step : action -> state -> option state :=
  step GoURL.Parse GoURL.String Offline.http_get Offline.NewDocumentFromReader
       web Offline.conf.

Definition init : result state :=
  Recurse_init GoURL.Parse web Offline.conf (Some Canceled) 0.

(** [Recurse] sends the seed and waits; worker 0 takes the task, stores
    the error of the context and leaves its loop; [Recurse] counts it
    out; the timer fires again and again. *)
Definition schedule : list action :=
  [AMain; AMain] ++ replicate 5 (AWorker 0) ++ [AMain; ATimeout; ATick 300000000; ATimeout].

Definition start : state := Eval vm_compute in state_of_result init.

Definition at_end : state :=
  Eval vm_compute in default blank_state (run_actions step schedule start).

End Stuck.

(** ** The command [webdl]: file names

    The closures of [main] that turn a task into the fields of a
    template and that clean a text for use in a file name.  [path],
    [strings] and [regexp] are Go's; the functions that model them read
    a text from its end through [GoStrings.rev_string]. *)

Module GoPath.

(** The loop of [path.Ext]: [r] holds the bytes [path[:i+1]], last
    first, and [acc] is [path[i+1:]]. *)
Fixpoint Ext_scan (r acc : string) : string :=
  match r with
  | EmptyString => ""
  | String c r' =>
      if Ascii.eqb c "/" then ""
      else if Ascii.eqb c "." then String "." acc
      else Ext_scan r' (String c acc)
  end.

(** [path.Ext]: the text from the last dot of the last element on. *)
Definition Ext (path : string) : string := Ext_scan (GoStrings.rev_string path) "".

(** A text, last byte first, without its trailing slashes. *)
Fixpoint strip_slashes (r : string) : string :=
  match r with
  | EmptyString => ""
  | String c r' => if Ascii.eqb c "/" then strip_slashes r' else r
  end.

(** The bytes after the last slash of a text given last byte first. *)
Fixpoint last_element (r acc : string) : string :=
  match r with
  | EmptyString => acc
  | String c r' => if Ascii.eqb c "/" then acc else last_element r' (String c acc)
  end.

(** [path.Base]. *)
Definition Base (path : string) : string :=
  if String.eqb path "" then "." else
  let path := last_element (strip_slashes (GoStrings.rev_string path)) "" in
  if String.eqb path "" then "/" else path.

End GoPath.

Module TplData.
Record t : Type := mk {
  URL : string;
  Referer : string;
  Index : Z;
  PageIndex : Z;
  Title : string;
  Name : string;
  Ext : string;
  Data : list (list string)
}.
End TplData.

(** [pageToTpl], for a task whose URL and whose referring URL are not
    [nil], as the tasks of [Recurse] are. *)
Definition pageToTpl (URL_String : URL -> string) (p : PageInfo.t) : TplData.t :=
  let fn := GoStrings.TrimSpace (GoPath.Base (URL_String (PageInfo.URL p))) in
  let ext := GoPath.Ext fn in
  let ext := match ext with
             | String c ext' => if Ascii.eqb c "." then ext' else ext
             | EmptyString => ext
             end in
  let '(refurl, reftitle, refindex) :=
    match PageInfo.Ref p with
    | Some r => (URL_String (PageInfo.URL r), PageInfo.Title r, PageInfo.Index r)
    | None => ("", "", 0%Z)
    end in
  TplData.mk (URL_String (PageInfo.URL p)) refurl (PageInfo.Index p) refindex
             (GoStrings.TrimSpace reftitle)
             (GoStrings.slice_to fn (String.length fn - String.length ext))
             ext [].

(** [strings.HasSuffix]. *)
Definition strings_HasSuffix (s suffix : string) : bool :=
  (String.length suffix <=? String.length s)%nat &&
  String.eqb (String.substring (String.length s - String.length suffix)
                               (String.length suffix) s) suffix.

(** The name of the temporary file of [DownloadCallback]:
    [fmt.Sprintf("%s.%s-%s.webdl.tmp", dest, stamp, rnd)]. *)
Definition tmp_name (dest stamp rnd : string) : string :=
  dest ++ "." ++ stamp ++ "-" ++ rnd ++ ".webdl.tmp".

(** The test of [cleanup]: the files that it removes. *)
Definition cleanup_removes (path : string) : bool :=
  strings_HasSuffix path ".webl.tmp".

(** [strings.Trim(s, "-")]: the cutset is one ASCII byte, which is
    taken off the end and then off the start. *)
Fixpoint TrimLeft_byte (c : ascii) (s : string) : string :=
  match s with
  | EmptyString => ""
  | String d s' => if Ascii.eqb d c then TrimLeft_byte c s' else s
  end.

Definition TrimRight_byte (c : ascii) (s : string) : string :=
  GoStrings.rev_string (TrimLeft_byte c (GoStrings.rev_string s)).

Definition Trim_byte (c : ascii) (s : string) : string :=
  TrimLeft_byte c (TrimRight_byte c s).

(** The last byte of a text. *)
Definition last_byte (s : string) : option ascii :=
  match GoStrings.rev_string s with
  | String c _ => Some c
  | EmptyString => None
  end.

Definition first_byte (s : string) : option ascii :=
  match s with
  | String c _ => Some c
  | EmptyString => None
  end.

(** *** [alphanumRE = (?i)[^a-z0-9\-_ ]+]

    The class is negated after case folding: besides the ASCII letters
    of both cases, the digits and the bytes [-], [_] and space, it
    leaves out the two runes that fold to an ASCII letter, U+017F (long
    s, bytes C5 BF) and U+212A (Kelvin sign, bytes E2 84 AA).  Every
    other rune, every byte of it and every byte that is not valid UTF-8
    is matched; the bytes of a match are none of them the first byte of
    a rune that is left out. *)

Definition alphanum_keep (c : ascii) : bool :=
  GoURL.is_alpha c || GoURL.is_digit c ||
  Ascii.eqb c "-" || Ascii.eqb c "_" || Ascii.eqb c " ".

(** The number of bytes that follow the first byte of [s] in a rune
    that folds to an ASCII letter, when [s] starts with one. *)
Definition folded_rune_tail (s : string) : option nat :=
  match s with
  | String a (String b s') =>
      if ((N_of_ascii a =? 197) && (N_of_ascii b =? 191))%N then Some 1%nat
      else match s' with
           | String d _ =>
               if ((N_of_ascii a =? 226) && (N_of_ascii b =? 132)
                   && (N_of_ascii d =? 170))%N
               then Some 2%nat else None
           | EmptyString => None
           end
  | _ => None
  end.

(** [alphanumRE.ReplaceAllString(s, "-")]: [copy] is the number of
    bytes of a rune that is left out still to copy, [in_run] tells
    whether the previous byte was part of a match. *)
Fixpoint alphanumRE_replace (copy : nat) (in_run : bool) (s : string) : string :=
  match s with
  | EmptyString => ""
  | String c s' =>
      match copy with
      | S k => String c (alphanumRE_replace k false s')
      | O =>
          if alphanum_keep c then String c (alphanumRE_replace 0 false s')
          else match folded_rune_tail s with
               | Some k => String c (alphanumRE_replace k false s')
               | None =>
                   if in_run then alphanumRE_replace 0 true s'
                   else String "-" (alphanumRE_replace 0 true s')
               end
      end
  end.

(** The template function [alphanum]. *)
Definition tpl_alphanum (s : string) : string :=
  Trim_byte "-" (alphanumRE_replace 0 false s).

(** What [alphanum] lets through: the ASCII bytes of the class, and
    bytes of runes that are not ASCII. *)
Definition alphanum_byte (c : ascii) : bool :=
  alphanum_keep c || (128 <=? N_of_ascii c)%N.

Fixpoint string_forallb (f : ascii -> bool) (s : string) : bool :=
  match s with
  | EmptyString => true
  | String c s' => f c && string_forallb f s'
  end.

(** *** [slashRE = ^\.\.+|\\+|\/+|\.\.+$] *)

Definition backslash : ascii := ascii_of_N 92.

Fixpoint all_dots (s : string) : bool :=
  match s with
  | EmptyString => true
  | String c s' => Ascii.eqb c "." && all_dots s'
  end.

(** [slashRE.ReplaceAllString(s, "-")].  A match is a run of one byte:
    backslashes, slashes, or dots, the dots being two or more and
    either at the start of the text or up to its end.  [start] tells
    whether the byte read is the first of the text, [run] is the byte
    of the match that the previous byte was part of. *)
Fixpoint slashRE_replace (start : bool) (run : option ascii) (s : string) : string :=
  match s with
  | EmptyString => ""
  | String c s' =>
      if bool_decide (run = Some c) then slashRE_replace false run s'
      else if Ascii.eqb c backslash || Ascii.eqb c "/" then
        String "-" (slashRE_replace false (Some c) s')
      else if Ascii.eqb c "."
              && match s' with
                 | String d _ => Ascii.eqb d "."
                 | EmptyString => false
                 end
              && (start || all_dots s') then
        String "-" (slashRE_replace false (Some c) s')
      else String c (slashRE_replace false None s')
  end.

(** The template function [path]. *)
Definition tpl_path (s : string) : string :=
  Trim_byte "-" (slashRE_replace true None s).

(** ** [HREF] on simple URLs

    A simple URL has a scheme, a host and a path, written with bytes
    that need no escaping: [scheme://host/path]. *)

Definition is_lower (c : ascii) : bool :=
  let b := N_of_ascii c in ((97 <=? b) && (b <=? 122))%N.

(** The bytes of a scheme after its first: lower-case letters, digits,
    [-] and [.]. *)
Definition scheme_byte (c : ascii) : bool :=
  is_lower c || GoURL.is_digit c || Ascii.eqb c "-" || Ascii.eqb c ".".

Definition simple_scheme (s : string) : bool :=
  match s with
  | String c s' => is_lower c && string_forallb scheme_byte s'
  | EmptyString => false
  end.

(** The bytes of a host name. *)
Definition host_byte (c : ascii) : bool :=
  GoURL.is_alpha c || GoURL.is_digit c ||
  Ascii.eqb c "-" || Ascii.eqb c "." || Ascii.eqb c "_" || Ascii.eqb c "~".

Definition simple_host (h : string) : bool :=
  negb (String.eqb h "") && string_forallb host_byte h.

(** The bytes of a path. *)
Definition path_byte (c : ascii) : bool :=
  host_byte c || Ascii.eqb c "/" || Ascii.eqb c ":" || Ascii.eqb c "=" || Ascii.eqb c "&".

(** A path is empty or starts with a slash. *)
Definition simple_path (p : string) : bool :=
  match p with
  | EmptyString => true
  | String c _ => Ascii.eqb c "/" && string_forallb path_byte p
  end.

(** A relative reference: it does not start with a slash nor with
    [http:] or [https:]. *)
Definition simple_ref (r : string) : bool :=
  match r with
  | EmptyString => false
  | String c _ =>
      negb (Ascii.eqb c "/") && string_forallb path_byte r
      && negb (absURLRE_MatchString r)
  end.

Definition simple_URL (scheme host path query : string) : URL :=
  mkURL scheme "" None host path "" false false query "" "".

(** The template function [href]: a base that does not parse is
    replaced by a fixed URL, a reference that does not resolve gives a
    fixed text.  [None] stands for the panic of [HREF] on a [nil]
    base, the fixed URL parsing being left to [url_Parse]. *)
Definition tpl_href (url_Parse : string -> result URL) (URL_String : URL -> string)
    (base href : string) : option string :=
  let u := match url_Parse base with
           | Ok u => Some u
           | Err _ => match url_Parse "https://invalid-base.url" with
                      | Ok u => Some u
                      | Err _ => None
                      end
           end in
  match u with
  | None => None
  | Some u =>
      match HREF url_Parse URL_String u href with
      | Err _ => Some "https://invalid-href.url"
      | Ok uri => Some (URL_String uri)
      end
  end.

(** ** What [progress] leaves in [context.Canceled] *)

(** The cancel function of [context.WithCancel], called in the state
    [s]: from then on [ctx.Err()] is what [context.Canceled] holds in
    [s]. *)
Definition cancel_func (s : state) : action := ACancel (context_Canceled s).






(** A crawl of two seeds with one worker, on the network that refuses
    every connection, under a context that is cancelled after the first
    request. *)
Module Overwritten.

Definition conf : RecursiveConfig.t :=
  RecursiveConfig.mk (Selectors.mk [] [] [] []) ["https://a.com/"; "https://b.com/"]
                     None None false 0 true false false.

Definition step : action -> state -> option state :=
  step GoURL.Parse GoURL.String Offline.http_get Offline.NewDocumentFromReader
       Offline.web conf.

Definition init : result state := Recurse_init GoURL.Parse Offline.web conf None 0.

(** [Recurse] sends the first seed, and the second one once the worker
    has taken the first; the worker fails to fetch the first seed and
    calls [progress], which stores the error of the request in
    [context.Canceled] and returns. *)
Definition schedule_to_failure : list action :=
  [AMain; AWorker 0; AMain; AMain] ++ replicate 8 (AWorker 0).

Definition start : state := Eval vm_compute in state_of_result init.

Definition at_failure : state :=
  Eval vm_compute in
    default blank_state (run_actions step schedule_to_failure start).

(** The cancel function is called. *)
Definition at_cancel : state :=
  Eval vm_compute in
    default blank_state (run_actions step [cancel_func at_failure] at_failure).

(** The worker reports the first task done, takes the second, sees the
    error of the context, stores it and leaves its loop; [Recurse]
    counts the worker out and returns through the deferred call. *)
Definition schedule_to_end : list action :=
  replicate 6 (AWorker 0) ++ replicate 5 AMain.

Definition at_end : state :=
  Eval vm_compute in
    default blank_state (run_actions step schedule_to_end at_cancel).

End Overwritten.


(** * Properties *)

(** ** Selector parsing *)

(** C7. [NewSelector "div>a[href]"] is the one clause with query
    [div>a] and attribute [href]; [NewSelector "a, , b"] is the two
    clauses with queries [a] and [b], the empty clause being dropped and
    the white space trimmed; [NewSelector "a[href=^x][href]"] is the one
    clause with query [a[href=^x]] and attribute [href]: only the last
    bracket group is cut off. *)
Theorem NewSelector_examples :
  NewSelector "div>a[href]" = [mkSelector "div>a" "href"] /\
  NewSelector "a, , b" = [mkSelector "a" ""; mkSelector "b" ""] /\
  NewSelector "a[href=^x][href]" = [mkSelector "a[href=^x]" "href"].
Proof. repeat split; vm_compute; reflexivity. Qed.

(** ** URL resolution *)

Section ResolverFacts.

Context (url_Parse : string -> result URL) (URL_String : URL -> string).

Lemma HREF_empty (page : URL) : HREF url_Parse URL_String page "" = Ok page.
Proof. reflexivity. Qed.

Lemma HREF_own_URL (page : URL) (href : string) :
  absURLRE_MatchString href || GoStrings.HasPrefix href "//" = true ->
  HREF url_Parse URL_String page href = parsed_as_own_URL url_Parse page href.
Proof.
  intros Hpre. unfold HREF, parsed_as_own_URL.
  destruct href as [|a href]; [discriminate Hpre|].
  rewrite Hpre. reflexivity.
Qed.

End ResolverFacts.

(** C5, as the code has it.  [HREF page ""] is [page], whatever
    [net/url] does; [/z] against [https://a.com/x/y] is
    [https://a.com/z]; [//b.com/p] against [https://a.com] is
    [https://b.com/p]; and [z] against [https://a.com/x/y] is
    [https://a.com/x/y/z], the reference being appended to the whole
    path of the base. *)
Theorem resolve_equations :
  (forall url_Parse URL_String page, HREF url_Parse URL_String page "" = Ok page) /\
  resolve "https://a.com/x/y" "/z" = Ok "https://a.com/z" /\
  resolve "https://a.com/x/y" "z" = Ok "https://a.com/x/y/z" /\
  resolve "https://a.com" "//b.com/p" = Ok "https://b.com/p".
Proof.
  split; [intros; apply HREF_empty|].
  repeat split; vm_compute; reflexivity.
Qed.

(** C5 as stated fails in its third equation: [z] resolved against
    [https://a.com/x/y] is not [https://a.com/x/z]. *)
Lemma resolve_relative_counterexample :
  resolve "https://a.com/x/y" "z" <> Ok "https://a.com/x/z".
Proof. vm_compute. discriminate. Qed.

(** C6, as the code has it.  A reference that begins with [http:], with
    [https:] or with [//] is parsed as a URL of its own, and takes the
    scheme of the base when it has none. *)
Theorem HREF_absolute_or_protocol_relative
    (url_Parse : string -> result URL) (URL_String : URL -> string)
    (page : URL) (href : string) :
  GoStrings.HasPrefix href "http:" || GoStrings.HasPrefix href "https:"
    || GoStrings.HasPrefix href "//" = true ->
  HREF url_Parse URL_String page href = parsed_as_own_URL url_Parse page href.
Proof. intros H. apply HREF_own_URL. exact H. Qed.

Lemma HREF_absolute_or_protocol_relative_witness :
  GoStrings.HasPrefix "//b.com/p" "http:" || GoStrings.HasPrefix "//b.com/p" "https:"
    || GoStrings.HasPrefix "//b.com/p" "//" = true /\
  HREF GoURL.Parse GoURL.String GoURL.empty_URL "//b.com/p"
  = parsed_as_own_URL GoURL.Parse GoURL.empty_URL "//b.com/p".
Proof.
  split; [reflexivity|].
  apply (HREF_absolute_or_protocol_relative GoURL.Parse GoURL.String GoURL.empty_URL
           "//b.com/p").
  reflexivity.
Defined.

(** C6 as stated fails for a scheme other than [http] and [https]:
    [ftp://b.com/f] begins with a scheme, and against
    [https://a.com/x] it is not parsed as a URL of its own but appended
    to the path of the base. *)
Lemma HREF_other_scheme_counterexample :
  has_scheme_prefix "ftp://b.com/f" = true /\
  GoURL.Parse "https://a.com/x"
  = Ok (mkURL "https" "" None "a.com" "/x" "" false false "" "" "") /\
  HREF GoURL.Parse GoURL.String (mkURL "https" "" None "a.com" "/x" "" false false "" "" "")
       "ftp://b.com/f"
  <> parsed_as_own_URL GoURL.Parse (mkURL "https" "" None "a.com" "/x" "" false false "" "" "")
       "ftp://b.com/f".
Proof. repeat split; vm_compute; discriminate. Qed.

(** ** The children of a page *)

Lemma download_tasks_lookup rev p u n i l j :
  download_tasks rev p u n i l !! j
  = (fun su => pageTask.mk
       (PageInfo.mk su (Some (Page.PageInfo p)) (PageInfo.Title (pageTask.PageInfo u))
          (if rev then (Z.of_nat n - Z.of_nat (i + j) - 1)%Z else Z.of_nat (i + j)))
       true) <$> l !! j.
Proof.
  revert i j. induction l as [|su l IH]; intros i j; [by destruct j|].
  destruct j as [|j]; simpl.
  - by rewrite Nat.add_0_r.
  - rewrite IH. by replace (S i + j)%nat with (i + S j)%nat by lia.
Qed.

Lemma link_tasks_lookup rev p n i l j :
  link_tasks rev p n i l !! j
  = (fun su => pageTask.mk
       (PageInfo.mk su (Some (Page.PageInfo p)) ""
          (if rev then (Z.of_nat n - Z.of_nat (i + j) - 1)%Z else Z.of_nat (i + j)))
       false) <$> l !! j.
Proof.
  revert i j. induction l as [|su l IH]; intros i j; [by destruct j|].
  destruct j as [|j]; simpl.
  - by rewrite Nat.add_0_r.
  - rewrite IH. by replace (S i + j)%nat with (i + S j)%nat by lia.
Qed.

Lemma download_tasks_length rev p u n i l :
  List.length (download_tasks rev p u n i l) = List.length l.
Proof. revert i. induction l; intros; simpl; auto. Qed.

Lemma link_tasks_length rev p n i l :
  List.length (link_tasks rev p n i l) = List.length l.
Proof. revert i. induction l; intros; simpl; auto. Qed.

Lemma spawned_length c u p : List.length (spawned c u p) = children_count p.
Proof.
  unfold spawned, children_count.
  rewrite length_app, download_tasks_length, link_tasks_length. lia.
Qed.


(** ** The table of prints *)

Lemma qry_each_feed {St : Type} sel qix els (add : nat -> string -> St -> option St) st :
  qry_each sel qix els add st = feed add qix (omap (element_data sel) els) st.
Proof.
  revert st. induction els as [|e els IH]; intros st; [done|].
  simpl. unfold element_data at 1.
  destruct (String.eqb (Attr sel) "").
  - simpl. destruct (add qix (Text e) st); [apply IH|done].
  - destruct (Element_Attr (attributes e) (Attr sel)); simpl.
    + destruct (add qix s st); [apply IH|done].
    + apply IH.
Qed.

Lemma max_len_ge cols j col : cols !! j = Some col -> (List.length col <= max_len cols)%nat.
Proof.
  revert j. induction cols as [|c0 cols IH]; intros j Hj; [done|].
  destruct j; simpl in *.
  - inversion Hj; subst. lia.
  - specialize (IH _ Hj). lia.
Qed.

Lemma max_len_alter cols j col d :
  cols !! j = Some col ->
  max_len (alter (fun col => (col ++ [d])%list) j cols)
  = Nat.max (max_len cols) (S (List.length col)).
Proof.
  revert j. induction cols as [|c0 cols IH]; intros j Hj; [done|].
  destruct j; simpl in *.
  - inversion Hj; subst. rewrite length_app. simpl. lia.
  - specialize (IH _ Hj). unfold alter in IH. rewrite IH. lia.
Qed.

Lemma table_length cols : List.length (table cols) = max_len cols.
Proof. unfold table. by rewrite length_fmap, length_seq. Qed.

Lemma table_lookup cols k :
  table cols !! k = if decide (k < max_len cols)%nat then Some (table_row cols k) else None.
Proof.
  unfold table. rewrite list_lookup_fmap.
  case_decide.
  - by rewrite lookup_seq_lt.
  - by rewrite lookup_seq_ge by lia.
Qed.

Lemma table_row_length cols k : List.length (table_row cols k) = List.length cols.
Proof. unfold table_row. by rewrite length_fmap. Qed.

Lemma table_row_beyond cols k :
  (max_len cols <= k)%nat -> table_row cols k = replicate (List.length cols) "".
Proof.
  intros Hk. apply list_eq. intros j. unfold table_row. rewrite list_lookup_fmap.
  destruct (cols !! j) as [col|] eqn:Hj; simpl.
  - rewrite lookup_replicate_2 by (by eapply lookup_lt_Some).
    pose proof (max_len_ge _ _ _ Hj).
    by rewrite lookup_ge_None_2 by lia.
  - apply lookup_ge_None in Hj. symmetry. apply lookup_replicate_None. lia.
Qed.

Lemma table_row_alter cols j col d k :
  cols !! j = Some col ->
  table_row (alter (fun col => (col ++ [d])%list) j cols) k
  = if decide (k = List.length col) then <[j := d]> (table_row cols k) else table_row cols k.
Proof.
  intros Hj. apply list_eq. intros i. unfold table_row.
  rewrite list_lookup_fmap.
  destruct (decide (i = j)) as [->|Hne].
  - rewrite list_lookup_alter_eq, Hj. simpl.
    case_decide as Hk.
    + subst k. rewrite list_lookup_insert_eq
        by (rewrite length_fmap; by eapply lookup_lt_Some).
      by rewrite lookup_app_r, Nat.sub_diag by lia.
    + rewrite list_lookup_fmap, Hj. simpl. f_equal.
      destruct (decide (k < List.length col)%nat).
      * by rewrite lookup_app_l by lia.
      * rewrite lookup_ge_None_2 by (rewrite length_app; simpl; lia).
        by rewrite lookup_ge_None_2 by lia.
  - rewrite list_lookup_alter_ne by done.
    case_decide.
    + rewrite list_lookup_insert_ne by done. by rewrite list_lookup_fmap.
    + by rewrite list_lookup_fmap.
Qed.

Lemma addPrint_table cols entries qix data :
  (qix < List.length cols)%nat -> counts_ok entries cols ->
  exists entries',
    addPrint (List.length cols) qix data (entries, table cols)
    = Some (entries', table (alter (fun col => (col ++ [data])%list) qix cols))
    /\ counts_ok entries' (alter (fun col => (col ++ [data])%list) qix cols).
Proof.
  intros Hq Hc.
  destruct (lookup_lt_is_Some_2 cols qix Hq) as [col Hcol].
  pose proof (max_len_ge _ _ _ Hcol) as Hle.
  assert (Hk : default 0%nat (entries !! qix) = List.length col).
  { rewrite (Hc qix), Hcol. done. }
  exists (<[qix := S (List.length col)]> entries). split.
  - unfold addPrint. rewrite Hk, lookup_insert_eq. simpl.
    rewrite table_length.
    assert (Heq : forall X,
      (forall k, X !! k = if decide (k < Nat.max (max_len cols) (S (List.length col)))%nat
                          then Some (if decide (k = List.length col)
                                     then <[qix := data]> (table_row cols k)
                                     else table_row cols k)
                          else None) ->
      X = table (alter (fun col => (col ++ [data])%list) qix cols)).
    { intros X HX. apply list_eq. intros k. rewrite HX, table_lookup.
      rewrite (max_len_alter _ _ _ _ Hcol).
      case_decide; [|done]. by rewrite (table_row_alter _ _ _ _ _ Hcol). }
    destruct (max_len cols <? S (List.length col))%nat eqn:Hlt.
    + apply Nat.ltb_lt in Hlt.
      assert (HM : max_len cols = List.length col) by lia.
      rewrite lookup_app_r by (rewrite table_length; lia).
      rewrite table_length, HM, Nat.sub_diag. simpl.
      rewrite length_replicate.
      apply Nat.ltb_lt in Hq as Hq'. rewrite Hq'.
      do 2 f_equal. apply Heq. intros k.
      destruct (decide (k = List.length col)) as [->|Hne].
      * rewrite list_lookup_insert_eq
          by (rewrite length_app, table_length; simpl; lia).
        rewrite decide_True by lia.
        by rewrite table_row_beyond by lia.
      * rewrite list_lookup_insert_ne by done.
        destruct (decide (k < List.length col)%nat).
        -- rewrite lookup_app_l by (rewrite table_length; lia).
           rewrite table_lookup. rewrite !decide_True by lia. done.
        -- rewrite lookup_ge_None_2
             by (rewrite length_app, table_length; simpl; lia).
           by rewrite decide_False by lia.
    + apply Nat.ltb_ge in Hlt.
      rewrite table_lookup, decide_True by lia.
      rewrite table_row_length.
      apply Nat.ltb_lt in Hq as Hq'. rewrite Hq'.
      do 2 f_equal. apply Heq. intros k.
      destruct (decide (k = List.length col)) as [->|Hne].
      * rewrite list_lookup_insert_eq by (rewrite table_length; lia).
        by rewrite decide_True by lia.
      * rewrite list_lookup_insert_ne by done.
        rewrite table_lookup.
        destruct (decide (k < max_len cols)%nat).
        -- by rewrite decide_True by lia.
        -- by rewrite decide_False by lia.
  - intros j. destruct (decide (j = qix)) as [->|Hne].
    + rewrite lookup_insert_eq, list_lookup_alter_eq, Hcol. simpl.
      rewrite length_app. simpl. lia.
    + rewrite lookup_insert_ne by done.
      rewrite list_lookup_alter_ne by done. apply Hc.
Qed.

Lemma feed_addPrint ds : forall cols entries qix,
  (qix < List.length cols)%nat -> counts_ok entries cols ->
  exists entries',
    feed (addPrint (List.length cols)) qix ds (entries, table cols)
    = Some (entries', table (alter (fun col => (col ++ ds)%list) qix cols))
    /\ counts_ok entries' (alter (fun col => (col ++ ds)%list) qix cols).
Proof.
  induction ds as [|d ds IH]; intros cols entries qix Hq Hc.
  - exists entries. simpl.
    assert (Hid : alter (fun col : list string => (col ++ [])%list) qix cols = cols).
    { apply list_alter_id. intros col. by rewrite app_nil_r. }
    rewrite Hid. done.
  - cbn [feed]. destruct (addPrint_table cols entries qix d Hq Hc) as (e1 & H1 & Hc1).
    rewrite H1.
    set (cols1 := alter (fun col => (col ++ [d])%list) qix cols) in *.
    assert (Hl : List.length cols1 = List.length cols) by apply length_alter.
    destruct (IH cols1 e1 qix) as (e2 & H2 & Hc2); [lia|done|].
    rewrite Hl in H2.
    assert (Hcomp : alter (fun col => (col ++ ds)%list) qix cols1
                    = alter (fun col => (col ++ d :: ds)%list) qix cols).
    { unfold cols1. rewrite list_alter_alter_eq. apply list_alter_ext; [|done].
      intros col _. simpl. by rewrite <-app_assoc. }
    rewrite Hcomp in H2, Hc2. eauto.
Qed.

Section PrintsLoop.

Context (doc : Document).

Lemma qry_loop_addPrint q : forall qix cols entries,
  (qix + List.length q = List.length cols)%nat ->
  counts_ok entries cols ->
  (forall i, (i < List.length q)%nat -> cols !! (qix + i)%nat = Some []) ->
  exists entries',
    qry_loop doc q qix (addPrint (List.length cols)) (entries, table cols)
    = Some (entries', table (take qix cols ++ (clause_data doc <$> q))%list).
Proof.
  induction q as [|sel q IH]; intros qix cols entries Hlen Hc Hempty.
  - exists entries. simpl in *. rewrite app_nil_r.
    by rewrite take_ge by lia.
  - cbn [qry_loop List.length] in *. rewrite qry_each_feed.
    destruct (feed_addPrint (clause_data doc sel) cols entries qix)
      as (e1 & H1 & Hc1); [lia|done|].
    fold (clause_data doc sel). rewrite H1.
    set (cols1 := alter (fun col => (col ++ clause_data doc sel)%list) qix cols) in *.
    assert (Hl : List.length cols1 = List.length cols) by apply length_alter.
    destruct (IH (S qix) cols1 e1) as [e2 H2]; [lia|done| |].
    { intros i Hi. unfold cols1. rewrite list_lookup_alter_ne by lia.
      replace (S qix + i)%nat with (qix + S i)%nat by lia. apply Hempty. lia. }
    rewrite Hl in H2. exists e2. rewrite H2. do 3 f_equal.
    assert (Hq : cols1 !! qix = Some (clause_data doc sel)).
    { unfold cols1. rewrite list_lookup_alter_eq.
      specialize (Hempty 0%nat). rewrite Nat.add_0_r in Hempty.
      rewrite Hempty by lia. done. }
    rewrite (take_S_r _ _ _ Hq). unfold cols1.
    rewrite take_alter_ge by lia. by rewrite <-app_assoc.
Qed.

Lemma qry_addPrint (sels : list Selector) :
  exists entries',
    qry doc sels (addPrint (List.length sels)) (∅, [])
    = Some (entries', table (clause_data doc <$> sels)).
Proof.
  pose (cols := replicate (List.length sels) ([] : list string)).
  assert (Hl : List.length cols = List.length sels) by apply length_replicate.
  destruct (qry_loop_addPrint sels 0 cols ∅) as [e He].
  - lia.
  - intros j. rewrite lookup_empty. unfold cols. simpl.
    destruct (replicate _ _ !! j) eqn:Hj; [|done].
    apply lookup_replicate in Hj as [-> _]. done.
  - intros i Hi. unfold cols. by apply lookup_replicate_2.
  - exists e. unfold qry.
    assert (Ht : table cols = []).
    { unfold table. replace (max_len cols) with 0%nat; [done|].
      unfold cols. clear. induction (List.length sels); simpl; [done|]. done. }
    rewrite Ht, Hl in He. rewrite He. done.
Qed.

End PrintsLoop.

Lemma feed_total {St : Type} (add : nat -> string -> St -> option St) qix ds st :
  (forall qix d st, is_Some (add qix d st)) -> is_Some (feed add qix ds st).
Proof.
  intros Hadd. revert st. induction ds as [|d ds IH]; intros st; simpl; [eauto|].
  destruct (Hadd qix d st) as [st' ->]. apply IH.
Qed.

Lemma qry_total {St : Type} doc q (add : nat -> string -> St -> option St) st :
  (forall qix d st, is_Some (add qix d st)) -> is_Some (qry doc q add st).
Proof.
  intros Hadd. unfold qry. generalize 0%nat. revert st.
  induction q as [|sel q IH]; intros st qix; simpl; [eauto|].
  rewrite qry_each_feed.
  destruct (feed_total add qix (omap (element_data sel) (doc (Query sel))) st Hadd)
    as [st' ->].
  apply IH.
Qed.

Lemma max_len_lt cols k :
  (k < max_len cols)%nat <->
  exists j col, cols !! j = Some col /\ (k < List.length col)%nat.
Proof.
  split.
  - induction cols as [|c0 cols IH]; simpl; [lia|]. intros Hk.
    destruct (decide (k < List.length c0)%nat).
    + exists 0%nat, c0. done.
    + destruct IH as (j & col & Hj & Hlt); [lia|]. exists (S j), col. done.
  - intros (j & col & Hj & Hlt). pose proof (max_len_ge _ _ _ Hj). lia.
Qed.

Section ExtractFacts.

Context (url_Parse : string -> result URL) (URL_String : URL -> string).

Lemma extract_prints doc pi s :
  exists p, extract url_Parse URL_String doc pi s = Some p /\
    Page.Prints p = table (clause_data doc <$> Selectors.Prints s).
Proof.
  unfold extract.
  destruct (qry_total doc (Selectors.Links s) (addLink url_Parse URL_String pi)
              (Page.Links (newPage pi))) as [links ->].
  { intros qix d st. unfold addLink. destruct (HREF _ _ _ _); eauto. }
  destruct (qry_total doc (Selectors.Downloads s) (addLink url_Parse URL_String pi)
              (Page.Downloads (newPage pi))) as [downloads ->].
  { intros qix d st. unfold addLink. destruct (HREF _ _ _ _); eauto. }
  destruct (qry_total doc (Selectors.Titles s) addTitle
              (PageInfo.Title (Page.PageInfo (newPage pi)))) as [title ->].
  { intros qix d st. unfold addTitle. destruct (String.eqb st ""); eauto. }
  destruct (qry_addPrint doc (Selectors.Prints s)) as [e He].
  simpl. rewrite He. eauto.
Qed.

End ExtractFacts.

(** C4. The extraction always returns a page, and its prints are a
    positional table: every row has one column for each print clause;
    the [k]-th match that clause [i] produces is in row [k], column [i];
    a cell whose clause has no [k]-th match is empty; and there is a row
    [k] exactly when some clause has a [k]-th match. *)
Theorem extract_prints_table
    (url_Parse : string -> result URL) (URL_String : URL -> string)
    (doc : Document) (pi : PageInfo.t) (s : Selectors.t) :
  exists p,
    extract url_Parse URL_String doc pi s = Some p /\
    (forall k row,
       Page.Prints p !! k = Some row ->
       List.length row = List.length (Selectors.Prints s)) /\
    (forall i sel k d,
       Selectors.Prints s !! i = Some sel -> clause_data doc sel !! k = Some d ->
       exists row, Page.Prints p !! k = Some row /\ row !! i = Some d) /\
    (forall i sel k row,
       Selectors.Prints s !! i = Some sel -> clause_data doc sel !! k = None ->
       Page.Prints p !! k = Some row -> row !! i = Some "") /\
    (forall k,
       is_Some (Page.Prints p !! k) <->
       exists i sel, Selectors.Prints s !! i = Some sel /\
                     (k < List.length (clause_data doc sel))%nat).
Proof.
  destruct (extract_prints url_Parse URL_String doc pi s) as (p & Hp & HT).
  exists p. split; [exact Hp|]. rewrite HT.
  set (cols := clause_data doc <$> Selectors.Prints s).
  assert (Hcol : forall i sel, Selectors.Prints s !! i = Some sel ->
                               cols !! i = Some (clause_data doc sel)).
  { intros i sel Hi. unfold cols. by rewrite list_lookup_fmap, Hi. }
  repeat split.
  - intros k row. rewrite table_lookup. case_decide; [|done].
    intros [= <-]. rewrite table_row_length. apply length_fmap.
  - intros i sel k d Hi Hk. pose proof (Hcol _ _ Hi) as Hc.
    exists (table_row cols k). split.
    + rewrite table_lookup, decide_True; [done|].
      apply max_len_lt. exists i, (clause_data doc sel). split; [done|].
      by eapply lookup_lt_Some.
    + unfold table_row. by rewrite list_lookup_fmap, Hc; simpl; rewrite Hk.
  - intros i sel k row Hi Hk. pose proof (Hcol _ _ Hi) as Hc.
    rewrite table_lookup. case_decide; [|done]. intros [= <-].
    unfold table_row. by rewrite list_lookup_fmap, Hc; simpl; rewrite Hk.
  - rewrite table_lookup. case_decide as Hlt; [|by intros [? ?]].
    intros _. apply max_len_lt in Hlt as (j & col & Hj & Hlt).
    unfold cols in Hj. rewrite list_lookup_fmap in Hj.
    destruct (Selectors.Prints s !! j) as [sel|] eqn:Hsel; [|done].
    injection Hj as <-. eauto.
  - intros (i & sel & Hi & Hlt). rewrite table_lookup, decide_True; [eauto|].
    apply max_len_lt. exists i, (clause_data doc sel). split; [by apply Hcol|done].
Qed.

Lemma extract_prints_table_witness :
  exists p,
    extract GoURL.Parse GoURL.String example_doc example_seed example_prints = Some p /\
    (exists r0 r1 r2,
       Page.Prints p !! 0%nat = Some r0 /\ Page.Prints p !! 1%nat = Some r1 /\
       Page.Prints p !! 2%nat = Some r2 /\
       r0 !! 0%nat = Some "a0" /\ r0 !! 1%nat = Some "b0" /\
       r1 !! 0%nat = Some "a1" /\ r1 !! 1%nat = Some "" /\
       r2 !! 0%nat = Some "a2" /\ r2 !! 1%nat = Some "") /\
    Page.Prints p !! 3%nat = None.
Proof.
  destruct (extract_prints_table GoURL.Parse GoURL.String example_doc example_seed
              example_prints) as (p & Hp & Hlen & Hfill & Hempty & Hrows).
  exists p. split; [exact Hp|].
  destruct (Hfill 0%nat (mkSelector "A" "") 0%nat "a0" eq_refl eq_refl) as (r0 & H0 & H00).
  destruct (Hfill 0%nat (mkSelector "A" "") 1%nat "a1" eq_refl eq_refl) as (r1 & H1 & H10).
  destruct (Hfill 0%nat (mkSelector "A" "") 2%nat "a2" eq_refl eq_refl) as (r2 & H2 & H20).
  destruct (Hfill 1%nat (mkSelector "B" "") 0%nat "b0" eq_refl eq_refl) as (r0' & H0' & H01).
  assert (r0' = r0) by congruence. subst r0'.
  split.
  - exists r0, r1, r2. repeat split; try assumption.
    + exact (Hempty 1%nat (mkSelector "B" "") 1%nat r1 eq_refl eq_refl H1).
    + exact (Hempty 1%nat (mkSelector "B" "") 2%nat r2 eq_refl eq_refl H2).
  - destruct (Page.Prints p !! 3%nat) as [r3|] eqn:H3; [|reflexivity].
    exfalso. destruct (proj1 (Hrows 3%nat)) as (i & sel & Hi & Hlt).
    + rewrite H3. eauto.
    + destruct i as [|[|i]]; simpl in Hi; try discriminate;
        injection Hi as <-; vm_compute in Hlt; lia.
Defined.

(** ** The crawl loop *)

Local Open Scope Z_scope.

Lemma uint64_add_small a b : 0 <= a + b < 2 ^ 64 -> uint64_add a b = a + b.
Proof. intros. unfold uint64_add. by apply Z.mod_small. Qed.

Lemma uint64_add_MaxUint64 a : 1 <= a < 2 ^ 64 -> uint64_add a MaxUint64 = a - 1.
Proof.
  intros. unfold uint64_add, MaxUint64.
  replace (a + (2 ^ 64 - 1)) with (a - 1 + 1 * 2 ^ 64) by ring.
  rewrite Z.mod_add by lia. apply Z.mod_small. lia.
Qed.

Lemma uint64_of_nat_small n : Z.of_nat n < 2 ^ 64 -> uint64_of_nat n = Z.of_nat n.
Proof. intros. unfold uint64_of_nat. apply Z.mod_small. lia. Qed.

Local Close Scope Z_scope.

Lemma sum_list_with_insert {A} (g : A -> nat) (l : list A) i x y :
  l !! i = Some x ->
  (sum_list_with g (<[i := y]> l) + g x = sum_list_with g l + g y)%nat.
Proof.
  revert i. induction l as [|a l IH]; intros i Hi; [done|].
  destruct i as [|i]; simpl in *.
  - injection Hi as ->. lia.
  - specialize (IH _ Hi). lia.
Qed.

Lemma sum_list_with_snoc {A} (g : A -> nat) (l : list A) x :
  sum_list_with g (l ++ [x]) = (sum_list_with g l + g x)%nat.
Proof. rewrite sum_list_with_app. simpl. lia. Qed.

Lemma Forall_read_le_insert t t' l i ws :
  (t <= t')%Z -> Forall (w_read_le t) l -> w_read_le t' ws ->
  Forall (w_read_le t') (<[i := ws]> l).
Proof.
  intros Ht Hl Hws. apply Forall_insert; [|done].
  eapply Forall_impl; [exact Hl|].
  intros [] H; simpl in *; try done. destruct pc; simpl in *; try done. lia.
Qed.

Lemma m_read_le_mono t t' m : (t <= t')%Z -> m_read_le t m -> m_read_le t' m.
Proof. intros Ht. destruct m; simpl; try done. destruct pc; simpl; try done. lia. Qed.

Lemma sum_list_with_lookup_le {A} (g : A -> nat) (l : list A) i x :
  l !! i = Some x -> (g x <= sum_list_with g l)%nat.
Proof.
  revert i. induction l as [|a l IH]; intros i Hi; [done|].
  destruct i as [|i]; simpl in *.
  - injection Hi as ->. lia.
  - specialize (IH _ Hi). lia.
Qed.

Lemma pool_lookup_facts (l : list wstate) i ws :
  l !! i = Some ws ->
  (w_out ws <= sum_list_with w_out l)%nat /\
  (w_unadded_tasks ws <= sum_list_with w_unadded_tasks l)%nat /\
  (w_unadded_total ws <= sum_list_with w_unadded_total l)%nat /\
  (w_uncounted ws <= sum_list_with w_uncounted l)%nat.
Proof. intros H. repeat split; by eapply sum_list_with_lookup_le. Qed.

Section CrawlFacts.

Context (url_Parse : string -> result URL) (URL_String : URL -> string).
Context (http_get : string -> option string -> Z -> option error -> result string).
Context (NewDocumentFromReader : string -> result Document).
Context (w : Web) (c : RecursiveConfig.t).

#[local] Abbreviation step :=
  (step url_Parse URL_String http_get NewDocumentFromReader w c).
#[local] Abbreviation worker_step :=
  (worker_step url_Parse URL_String http_get NewDocumentFromReader c).
#[local] Abbreviation Recurse_init := (Recurse_init url_Parse w c).


Ltac sums :=
  repeat match goal with
  | H : pool ?s !! ?i = Some ?x |- context [sum_list_with ?g (<[?i := ?y]> (pool ?s))] =>
      lazymatch goal with
      | _ : (sum_list_with g (<[i := y]> (pool s)) + g x = _)%nat |- _ => fail
      | _ => pose proof (sum_list_with_insert g (pool s) i x y H)
      end
  | H : feeders ?s !! ?i = Some ?x |- context [sum_list_with ?g (<[?i := ?y]> (feeders ?s))] =>
      lazymatch goal with
      | _ : (sum_list_with g (<[i := y]> (feeders s)) + g x = _)%nat |- _ => fail
      | _ => pose proof (sum_list_with_insert g (feeders s) i x y H)
      end
  end.

Ltac rew_state :=
  repeat match goal with
  | H : ch ?s = _ |- _ => rewrite H in *; clear H
  | H : chDone ?s = _ |- _ => rewrite H in *; clear H
  | H : main ?s = _ |- _ => rewrite H in *; clear H
  end.

Ltac lookup_facts :=
  try match goal with
  | H : pool ?s !! ?i = Some ?x |- _ =>
      pose proof (pool_lookup_facts _ _ _ H) as (? & ? & ? & ?);
      try match goal with
      | F : Forall (w_read_le _) (pool s) |- _ =>
          pose proof (Forall_lookup_1 _ _ _ _ F H)
      end
  end.

Ltac arith :=
  unfold outstanding, queued in *; simpl in *; rew_state; simpl in *;
  sums; simpl in *;
  rewrite ?sum_list_with_snoc, ?spawned_length, ?length_app in *; simpl in *;
  rewrite ?uint64_of_nat_small by lia;
  rewrite ?uint64_add_small by lia;
  rewrite ?uint64_add_MaxUint64 by lia;
  try lia.

Ltac finish :=
  first
    [ done
    | arith; fail
    | eapply Forall_read_le_insert; [|eassumption|]; arith; done
    | repeat (apply Forall_cons; split; [arith; done|]); assumption
    | eapply m_read_le_mono; [|eassumption]; arith; done ].

Lemma counts_inv_step n a s s' :
  step a s = Some s' -> counts_inv n s -> counts_inv n s'.
Proof.
  intros Hstep [Hst Hex]. unfold step in Hstep.
  destruct (panicked s); [done|].
  destruct a; simpl in Hstep.
  1:{ destruct (pool s !! i) as [ws|] eqn:Hws; [|done].
    destruct ws; simpl in Hstep;
      unfold progress_step, errors_As_Canceled, page, get, send, log, doDone in Hstep; simpl in Hstep;
      repeat case_match; simplify_eq.
    all: split;
      [arith
      |intros Hb; destruct Hex as (E1 & E2 & E3 & E5 & F1 & F2 & F3);
       [simpl in *; lia|]; lookup_facts; simpl in *; repeat split; try finish]. }
  all: unfold main_step, main_timeout, progress_step, errors_As_Canceled, send, log in Hstep;
    simpl in Hstep; repeat case_match; simplify_eq.
  all: split;
    [arith
    |intros Hb; destruct Hex as (E1 & E2 & E3 & E5 & F1 & F2 & F3);
     [simpl in *; lia|]; simpl in *; repeat split; try finish].
Qed.


Lemma fetch_inv_step a s s' : step a s = Some s' -> fetch_inv URL_String s -> fetch_inv URL_String s'.
Proof.
  intros Hstep Hinv x. destruct (Hinv x) as [H1 H2]. unfold step in Hstep.
  destruct (panicked s); [done|].
  destruct a; simpl in Hstep.
  1:{ destruct (pool s !! i) as [ws|] eqn:Hws; [|done].
    pose proof (sum_list_with_lookup_le (w_holds URL_String x) _ _ _ Hws) as Hle.
    destruct ws; simpl in Hstep;
      unfold progress_step, errors_As_Canceled, page, get, send, log, doDone, url_key, task_URL in *;
      simpl in Hstep; repeat case_match; simplify_eq.
    all: simpl in *; sums; simpl in *; unfold task_URL in *.
    all: repeat case_decide; simplify_eq.
    all: try match goal with
         | Hn : ?k ∉ done ?s, Hd : (1 <= ?cnt)%nat -> ?k ∈ done ?s |- _ =>
             assert (cnt = 0%nat)
               by (destruct (decide (1 <= cnt)%nat); [exfalso; apply Hn, Hd; done|lia])
         end.
    all: split; try lia; try (intros; apply H2; lia);
      try (intros; apply elem_of_union; right; apply H2; lia);
      try (intros; set_solver). }
  all: unfold main_step, main_timeout, progress_step, errors_As_Canceled, send, log in Hstep;
    simpl in Hstep; repeat case_match; simplify_eq; simpl; done.
Qed.


(** No report carries an error: [progress] returns at its first test
    when [err] is not [nil]. *)

Lemma silent_inv_step a s s' : step a s = Some s' -> silent_inv s -> silent_inv s'.
Proof.
  intros Hstep [Hinv HF]. unfold step in Hstep.
  destruct (panicked s); [done|].
  destruct a; simpl in Hstep.
  1:{ destruct (pool s !! i) as [ws|] eqn:Hws; [|done].
    pose proof (Forall_lookup_1 _ _ _ _ HF Hws) as Hi.
    destruct ws; simpl in Hstep;
      unfold progress_step, errors_As_Canceled, page, get, send, log, doDone in Hstep;
      simpl in Hstep; repeat case_match; simplify_eq; simpl in *.
    all: try (destruct err; simpl in *; try done).
    all: split; [try done|apply Forall_insert; simpl; try done].
    all: by case_match. }
  all: unfold main_step, main_timeout, progress_step, errors_As_Canceled, send, log in Hstep;
    simpl in Hstep; repeat case_match; simplify_eq; simpl; done.
Qed.




Lemma sum_list_with_replicate {A} (g : A -> nat) n x :
  sum_list_with g (replicate n x) = (n * g x)%nat.
Proof. induction n; simpl; lia. Qed.

Lemma parse_seeds_length uris urls :
  parse_seeds url_Parse uris = Ok urls -> List.length urls = List.length uris.
Proof.
  revert urls. induction uris as [|uri uris IH]; intros urls H; simpl in *.
  - by injection H as <-.
  - destruct (url_Parse uri); [|done].
    destruct (parse_seeds url_Parse uris); [|done].
    injection H as <-. simpl. by rewrite (IH _ eq_refl).
Qed.

Section Run.

Context (ctx0 : option error) (t0 : Z) (s0 : state).
Context (Hinit : Recurse_init ctx0 t0 = Ok s0).

Lemma init_state :
  exists urls,
    parse_seeds url_Parse (RecursiveConfig.URLs c) = Ok urls /\
    s0 = mkState [] 0 ∅
           (uint64_of_nat (List.length urls)) 0 (uint64_of_nat (List.length urls))
           None None ctx0 Canceled t0
           (replicate (workers w) WRecv) [] (MSeed urls) [] false.
Proof.
  unfold Recurse_init in Hinit.
  destruct (parse_seeds url_Parse (RecursiveConfig.URLs c)) as [urls|]; [|done].
  injection Hinit as <-. eauto.
Qed.

Lemma counts_inv_init : counts_inv (List.length (RecursiveConfig.URLs c)) s0.
Proof.
  destruct init_state as (urls & Hp & ->).
  apply parse_seeds_length in Hp. rewrite <-Hp.
  split; unfold outstanding, queued; simpl; rewrite ?sum_list_with_replicate; simpl.
  - lia.
  - intros Hb. rewrite uint64_of_nat_small by lia.
    repeat split; try lia.
    + apply Forall_replicate. done.
    + apply Forall_nil. done.
Qed.

Lemma fetch_inv_init : fetch_inv URL_String s0.
Proof.
  destruct init_state as (urls & Hp & ->). intros x. simpl.
  rewrite sum_list_with_replicate. simpl. split; lia.
Qed.



Lemma silent_inv_init : silent_inv s0.
Proof.
  destruct init_state as (urls & Hp & ->). split; simpl; [done|].
  by apply Forall_replicate.
Qed.

Lemma reachable_inv (P : state -> Prop) allowed s :
  P s0 -> (forall a s s', step a s = Some s' -> P s -> P s') ->
  reachable_by url_Parse URL_String http_get NewDocumentFromReader w c allowed s0 s ->
  P s.
Proof. intros H0 Hstep Hr. induction Hr; eauto. Qed.

End Run.

End CrawlFacts.

Lemma get_count_elem x tr : x ∈ gets tr -> (1 <= get_count x tr)%nat.
Proof.
  induction tr as [|e tr IH]; simpl; [by intros ?%elem_of_nil|].
  destruct e; simpl; try (intros H; specialize (IH H); lia).
  intros [->|H]%elem_of_cons.
  - rewrite decide_True by done. lia.
  - specialize (IH H). lia.
Qed.

Lemma get_count_NoDup tr : (forall x, get_count x tr <= 1)%nat -> NoDup (gets tr).
Proof.
  induction tr as [|e tr IH]; simpl; intros H; [apply NoDup_nil_2|].
  destruct e; simpl in *; try (apply IH; intros x; specialize (H x); lia).
  apply NoDup_cons. split.
  - intros Hin%get_count_elem. specialize (H url).
    rewrite decide_True in H by done. lia.
  - apply IH. intros x. specialize (H x). lia.
Qed.

(** C1. In every state of every run, no URL has been requested twice,
    and every URL that has been requested is in [done]. *)
Theorem each_URL_fetched_at_most_once
    (url_Parse : string -> result URL) (URL_String : URL -> string)
    (http_get : string -> option string -> Z -> option error -> result string)
    (NewDocumentFromReader : string -> result Document)
    (w : Web) (c : RecursiveConfig.t)
    (ctx0 : option error) (t0 : Z) (s0 s : state) :
  Recurse_init url_Parse w c ctx0 t0 = Ok s0 ->
  reachable url_Parse URL_String http_get NewDocumentFromReader w c s0 s ->
  NoDup (gets (trace s)) /\ (forall x, x ∈ gets (trace s) -> x ∈ done s).
Proof.
  intros Hinit Hr.
  assert (Hinv : fetch_inv URL_String s).
  { eapply reachable_inv; eauto using fetch_inv_init, fetch_inv_step. }
  split.
  - apply get_count_NoDup. intros x. destruct (Hinv x). lia.
  - intros x Hx%get_count_elem. destruct (Hinv x) as [_ H]. apply H. lia.
Qed.

(** C9. In every state of every run in which the seeds and the children
    found so far are fewer than [2^64], every report made so far has
    [current <= total]; [dlTotal] started at the number of seeds, and
    it already counts every task that waits in a queue, so that
    [dlCount] does not exceed it. *)
Theorem progress_current_le_total
    (url_Parse : string -> result URL) (URL_String : URL -> string)
    (http_get : string -> option string -> Z -> option error -> result string)
    (NewDocumentFromReader : string -> result Document)
    (w : Web) (c : RecursiveConfig.t)
    (ctx0 : option error) (t0 : Z) (s0 s : state) :
  Recurse_init url_Parse w c ctx0 t0 = Ok s0 ->
  reachable url_Parse URL_String http_get NewDocumentFromReader w c s0 s ->
  (Z.of_nat (List.length (RecursiveConfig.URLs c)) + Z.of_nat (discovered (trace s))
   < 2 ^ 64)%Z ->
  (forall err current total,
     EvProgress err current total ∈ trace s -> (current <= total)%Z) /\
  dlTotal s0 = Z.of_nat (List.length (RecursiveConfig.URLs c)) /\
  (dlCount s + Z.of_nat (queued s) <= dlTotal s)%Z.
Proof.
  intros Hinit Hr Hb.
  assert (Hinv : counts_inv (List.length (RecursiveConfig.URLs c)) s).
  { eapply reachable_inv; eauto using counts_inv_init, counts_inv_step. }
  destruct Hinv as [_ Hex]. destruct (Hex Hb) as (_ & _ & E3 & _ & _ & _ & F3).
  split; [|split].
  - intros err current total Hin. unfold progress_ordered in F3.
    rewrite Forall_forall in F3. exact (F3 _ Hin).
  - destruct (init_state _ _ _ _ _ _ Hinit) as (urls & Hp & ->). simpl.
    apply parse_seeds_length in Hp. rewrite Hp.
    apply uint64_of_nat_small. lia.
  - lia.
Qed.

Lemma run_actions_reachable
    (url_Parse : string -> result URL) (URL_String : URL -> string)
    (http_get : string -> option string -> Z -> option error -> result string)
    (NewDocumentFromReader : string -> result Document)
    (w : Web) (c : RecursiveConfig.t) (allowed : action -> Prop) acts s0 s :
  Forall allowed acts ->
  run_actions (step url_Parse URL_String http_get NewDocumentFromReader w c) acts s0 = Some s ->
  reachable_by url_Parse URL_String http_get NewDocumentFromReader w c allowed s0 s.
Proof.
  intros Hall H.
  assert (Hgen : forall s1,
    reachable_by url_Parse URL_String http_get NewDocumentFromReader w c allowed s0 s1 ->
    run_actions (step url_Parse URL_String http_get NewDocumentFromReader w c) acts s1
    = Some s ->
    reachable_by url_Parse URL_String http_get NewDocumentFromReader w c allowed s0 s).
  { clear H. induction acts as [|a acts IH]; intros s1 Hr H; simpl in H.
    - by injection H as <-.
    - destruct (step _ _ _ _ _ _ a s1) as [s2|] eqn:Hs; [|done].
      apply Forall_cons in Hall as [Ha Hall].
      eapply (IH Hall s2); [|done]. eapply reachable_next; eauto. }
  apply (Hgen s0); [apply reachable_start|done].
Qed.

(** No report of a run carries an error. *)
Lemma reports_carry_no_error
    (url_Parse : string -> result URL) (URL_String : URL -> string)
    (http_get : string -> option string -> Z -> option error -> result string)
    (NewDocumentFromReader : string -> result Document)
    (w : Web) (c : RecursiveConfig.t)
    (ctx0 : option error) (t0 : Z) (s0 s : state) :
  Recurse_init url_Parse w c ctx0 t0 = Ok s0 ->
  reachable url_Parse URL_String http_get NewDocumentFromReader w c s0 s ->
  forall err current total, EvProgress err current total ∈ trace s -> err = None.
Proof.
  intros Hinit Hr.
  assert (Hinv : silent_inv s).
  { eapply reachable_inv; eauto using silent_inv_init, silent_inv_step. }
  destruct Hinv as [Hinv _]. intros err current total Hin.
  destruct err as [e|]; [|done]. exfalso.
  assert (Hf : EvProgress (Some e) current total ∈ error_reports (trace s)).
  { unfold error_reports. apply list_elem_of_In, filter_In.
    split; [by apply list_elem_of_In|done]. }
  rewrite Hinv in Hf. by apply elem_of_nil in Hf.
Qed.

(** C3, on the code.  The only page of the crawl cannot be fetched: the
    worker calls [progress] with the error of the fetch, [Recurse]
    returns [nil], and [c.Progress] has been called once, by the
    deferred call and with a [nil] error.  The error of the task has
    not reached the sink. *)
Theorem failed_fetch_is_not_reported :
  exists s0 s,
    Offline.init = Ok s0 /\
    run_actions Offline.step Offline.schedule s0 = Some s /\
    returned s = Some None /\
    tasks s = 0%Z /\
    trace s = [EvProgress None 1 1; EvGet "https://a.com/" None].
Proof.
  eexists _, _. split; [vm_compute; reflexivity|].
  split; [vm_compute; reflexivity|].
  repeat split.
Qed.

Section DownloadFacts.

Context (url_Parse : string -> result URL) (URL_String : URL -> string).
Context (http_get : string -> option string -> Z -> option error -> result string).
Context (NewDocumentFromReader : string -> result Document).
Context (w : Web) (c : RecursiveConfig.t).

#[local] Abbreviation stepc :=
  (step url_Parse URL_String http_get NewDocumentFromReader w c).


End DownloadFacts.


(** ** The example runs *)

Lemma Offline_run :
  Offline.init = Ok Offline.start /\
  run_actions Offline.step Offline.schedule Offline.start = Some Offline.at_end.
Proof. split; vm_compute; reflexivity. Qed.

Lemma Online_run :
  Online.init = Ok Online.start /\
  run_actions Online.step Online.schedule_to_download Online.start
  = Some Online.at_download /\
  run_actions Online.step Online.schedule_to_end Online.at_download
  = Some Online.at_end.
Proof. repeat split; vm_compute; reflexivity. Defined.

Lemma run_actions_app step acts1 acts2 s s1 s2 :
  run_actions step acts1 s = Some s1 -> run_actions step acts2 s1 = Some s2 ->
  run_actions step (acts1 ++ acts2) s = Some s2.
Proof.
  revert s. induction acts1 as [|a acts1 IH]; intros s H1 H2; simpl in *.
  - by injection H1 as ->.
  - destruct (step a s); [|done]. eauto.
Defined.

Lemma Forall_True {A} (l : list A) : Forall (fun _ => True) l.
Proof. induction l; constructor; auto. Defined.


Lemma Online_reachable_at_end :
  reachable GoURL.Parse GoURL.String Online.http_get Online.NewDocumentFromReader
            Online.web Online.conf Online.start Online.at_end.
Proof.
  eapply run_actions_reachable; [apply Forall_True|].
  eapply run_actions_app; [exact (proj1 (proj2 Online_run))|].
  exact (proj2 (proj2 Online_run)).
Defined.

Lemma each_URL_fetched_at_most_once_witness :
  Recurse_init GoURL.Parse Online.web Online.conf None 0 = Ok Online.start /\
  reachable GoURL.Parse GoURL.String Online.http_get Online.NewDocumentFromReader
            Online.web Online.conf Online.start Online.at_end /\
  NoDup (gets (trace Online.at_end)) /\
  (forall x, x ∈ gets (trace Online.at_end) -> x ∈ done Online.at_end).
Proof.
  split; [exact (proj1 Online_run)|]. split; [exact Online_reachable_at_end|].
  exact (each_URL_fetched_at_most_once
           GoURL.Parse GoURL.String Online.http_get Online.NewDocumentFromReader
           Online.web Online.conf None 0 Online.start Online.at_end
           (proj1 Online_run) Online_reachable_at_end).
Defined.

Lemma progress_current_le_total_witness :
  Recurse_init GoURL.Parse Online.web Online.conf None 0 = Ok Online.start /\
  reachable GoURL.Parse GoURL.String Online.http_get Online.NewDocumentFromReader
            Online.web Online.conf Online.start Online.at_end /\
  (Z.of_nat (List.length (RecursiveConfig.URLs Online.conf))
   + Z.of_nat (discovered (trace Online.at_end)) < 2 ^ 64)%Z /\
  (forall err current total,
     EvProgress err current total ∈ trace Online.at_end -> (current <= total)%Z) /\
  dlTotal Online.start = Z.of_nat (List.length (RecursiveConfig.URLs Online.conf)) /\
  (dlCount Online.at_end + Z.of_nat (queued Online.at_end) <= dlTotal Online.at_end)%Z.
Proof.
  assert (Hb : (Z.of_nat (List.length (RecursiveConfig.URLs Online.conf))
                + Z.of_nat (discovered (trace Online.at_end)) < 2 ^ 64)%Z)
    by (vm_compute; reflexivity).
  split; [exact (proj1 Online_run)|]. split; [exact Online_reachable_at_end|].
  split; [exact Hb|].
  exact (progress_current_le_total
           GoURL.Parse GoURL.String Online.http_get Online.NewDocumentFromReader
           Online.web Online.conf None 0 Online.start Online.at_end
           (proj1 Online_run) Online_reachable_at_end Hb).
Defined.



(** ** Runs without cancellation *)

Lemma download_tasks_in URL_String U rev p u n i l :
  Forall (fun su => URL_String su ∈ U) l ->
  Forall (task_in URL_String U) (download_tasks rev p u n i l).
Proof.
  revert i. induction l as [|su l IH]; intros i H; simpl; [constructor|].
  apply Forall_cons in H as [H1 H2]. constructor; [exact H1|by apply IH].
Qed.

Lemma link_tasks_in URL_String U rev p n i l :
  Forall (fun su => URL_String su ∈ U) l ->
  Forall (task_in URL_String U) (link_tasks rev p n i l).
Proof.
  revert i. induction l as [|su l IH]; intros i H; simpl; [constructor|].
  apply Forall_cons in H as [H1 H2]. constructor; [exact H1|by apply IH].
Qed.

Lemma spawned_in URL_String U B c u p :
  page_in URL_String U B p -> Forall (task_in URL_String U) (spawned c u p).
Proof.
  intros (Hd & Hl & _). unfold spawned. apply Forall_app. split.
  - by apply download_tasks_in.
  - by apply link_tasks_in.
Qed.

Lemma size_difference_insert (U D : gset string) x :
  x ∈ U -> x ∉ D -> size (U ∖ D) = S (size (U ∖ ({[x]} ∪ D))).
Proof.
  intros HU HD.
  replace (U ∖ D) with ({[x]} ∪ U ∖ ({[x]} ∪ D)).
  - rewrite size_union, size_singleton; [done|].
    apply disjoint_singleton_l. rewrite elem_of_difference, elem_of_union,
      elem_of_singleton. tauto.
  - apply set_eq. intros y. rewrite !elem_of_union, !elem_of_difference,
      elem_of_union, elem_of_singleton.
    split.
    + intros [->|[? ?]]; [done|]. split; [done|]. intros ?. tauto.
    + intros [? ?]. destruct (decide (y = x)); [by left|]. right. split; [done|].
      intros [?|?]; done.
Qed.

Lemma sum_list_with_pos {A} (g : A -> nat) (l : list A) :
  (0 < sum_list_with g l)%nat -> exists i x, l !! i = Some x /\ (0 < g x)%nat.
Proof.
  induction l as [|a l IH]; simpl; [lia|]. intros H.
  destruct (decide (0 < g a)%nat).
  - exists 0%nat, a. done.
  - destruct IH as (i & x & Hi & Hx); [lia|]. exists (S i), x. done.
Qed.

Lemma NoDup_length_le_size (l : list string) (X : gset string) :
  NoDup l -> (forall x, x ∈ l -> x ∈ X) -> (List.length l <= size X)%nat.
Proof.
  intros Hnd Hin. rewrite <-(size_list_to_set (C := gset string) l Hnd).
  apply subseteq_size. intros x Hx. apply Hin. by apply elem_of_list_to_set in Hx.
Qed.

Lemma workers_pos w : (1 <= workers w)%nat.
Proof. unfold workers. case_match; [lia|]. apply Z.leb_gt in H. lia. Qed.

Section Quiet.

Context (url_Parse : string -> result URL) (URL_String : URL -> string).
Context (http_get : string -> option string -> Z -> option error -> result string).
Context (NewDocumentFromReader : string -> result Document).
Context (w : Web) (c : RecursiveConfig.t).

#[local] Abbreviation stepq :=
  (step url_Parse URL_String http_get NewDocumentFromReader w c).
#[local] Abbreviation worker_stepq :=
  (worker_step url_Parse URL_String http_get NewDocumentFromReader c).

(** Once no task is outstanding, none ever is again. *)
Lemma outstanding_zero_step a s s' :
  stepq a s = Some s' -> outstanding s = 0%nat -> outstanding s' = 0%nat.
Proof.
  unfold step, outstanding, queued. intros Hstep Hz.
  destruct (panicked s); [done|].
  destruct a; simpl in Hstep.
  - destruct (pool s !! i) as [ws|] eqn:Hws; [|done].
    pose proof (sum_list_with_lookup_le w_out _ _ _ Hws) as Hle.
    destruct ws; simpl in *; try lia.
    destruct (ch s) eqn:Hch; [done|]. simpl in Hz. lia.
  - destruct (feeders s !! j) as [[|t rest]|] eqn:Hj; try done.
    pose proof (sum_list_with_lookup_le (fun l : list pageTask.t => List.length l)
                  _ _ _ Hj) as Hle.
    simpl in Hle. lia.
  - unfold main_step, progress_step, errors_As_Canceled, send, log in Hstep.
    destruct (main s) eqn:Hm; simpl in *; repeat case_match; simplify_eq; simpl;
      rewrite ?Hm; simpl; lia.
  - unfold main_timeout in Hstep.
    destruct (main s) eqn:Hm; simpl in *; repeat case_match; simplify_eq; simpl;
      rewrite ?Hm; simpl; lia.
  - case_match; simplify_eq. simpl. done.
  - case_match; simplify_eq. simpl. done.
Qed.

(** A worker that is not waiting for a task and has not ended can move. *)
Lemma worker_step_enabled ws s :
  w_alive c ws -> ch s <> [] \/ (0 < w_out ws)%nat -> is_Some (worker_stepq ws s).
Proof.
  intros Ha Hne. destruct ws; simpl in *; try done;
    unfold progress_step, errors_As_Canceled, page, get; repeat case_match; eauto.
  destruct Hne; [done|lia].
Qed.

Hypothesis Hprogress : RecursiveConfig.Progress c = true.

Lemma quiet_inv_step a s s' :
  not_cancel a -> stepq a s = Some s' ->
  (tasks s = 0%Z -> outstanding s = 0%nat) ->
  quiet_inv c (workers w) s -> quiet_inv c (workers w) s'.
Proof.
  intros Hnc Hstep Hzero Hq.
  pose proof (outstanding_zero_step _ _ _ Hstep) as Hstay.
  destruct Hq as [Hctx Hgerr Hpan HchDone Hpool Hlen Hmain].
  unfold step in Hstep. rewrite Hpan in Hstep.
  destruct a; simpl in Hstep; try done.
  - destruct (pool s !! i) as [ws|] eqn:Hws; [|done].
    pose proof (Forall_lookup_1 _ _ _ _ Hpool Hws) as Hi.
    assert (Hm : forall s1, main s1 = main s -> (outstanding s = 0%nat -> outstanding s1 = 0%nat) ->
                            m_quiet s1).
    { intros s1 Hms Ho. unfold m_quiet in *. rewrite Hms.
      destruct (main s); try done; split; tauto. }
    destruct ws; simpl in Hstep;
      unfold progress_step, errors_As_Canceled, page, get, send, log, doDone in Hstep; simpl in Hstep;
      rewrite ?Hgerr, ?Hctx, ?Hprogress in Hstep;
      repeat case_match; simplify_eq; simpl in *; try done.
    all: split; simpl; try done.
    all: try (apply Forall_insert; simpl; try done; congruence).
    all: try (by rewrite length_insert).
    all: try (apply Hm; done).
    all: match goal with
         | H : extract _ _ ?doc ?pi ?sel = None |- _ =>
             destruct (extract_prints url_Parse URL_String doc pi sel) as (p & Hp & _);
             congruence
         end.
  - destruct (feeders s !! j) as [[|t rest]|] eqn:Hj; try done.
    unfold send in Hstep. repeat case_match; simplify_eq.
    split; simpl; try done.
    unfold m_quiet in *. simpl. destruct (main s); try done; split; tauto.
  - unfold main_step, progress_step, errors_As_Canceled, send, log in Hstep.
    rewrite ?HchDone, ?Hprogress in Hstep.
    unfold m_quiet in *.
    destruct (main s) eqn:Hmn; simpl in *; repeat case_match; simplify_eq.
    all: split; simpl; try done.
    all: unfold m_quiet; simpl; try done.
    all: try (split; tauto).
  - unfold main_timeout in Hstep. unfold m_quiet in *.
    destruct (main s) eqn:Hmn; simpl in *; repeat case_match; simplify_eq.
    all: split; simpl; try done.
    all: unfold m_quiet; simpl; try done.
    split; [done|]. apply Hstay, Hzero. by apply Z.eqb_eq.
  - case_match; simplify_eq. split; simpl; try done.
Qed.

(** While [Recurse] has not returned, some goroutine can move. *)
Lemma quiet_enabled s :
  quiet_inv c (workers w) s -> tasks s = Z.of_nat (outstanding s) ->
  returned s = None ->
  exists a s', not_cancel a /\ ~ idle a s /\ stepq a s = Some s'.
Proof.
  intros [Hctx Hgerr Hpan HchDone Hpool Hlen Hmain] Htasks Hret.
  pose proof (workers_pos w) as Hw.
  assert (Hworker : forall i ws, pool s !! i = Some ws ->
            is_Some (worker_stepq ws s) ->
            exists a s', not_cancel a /\ ~ idle a s /\ stepq a s = Some s').
  { intros i ws Hi [[ws' s1] Hs]. exists (AWorker i). eexists.
    split; [done|]. split; [by intros ?|].
    unfold step. rewrite Hpan, Hi, Hs. done. }
  assert (Hrecv : ch s <> [] ->
            exists a s', not_cancel a /\ ~ idle a s /\ stepq a s = Some s').
  { intros Hne. destruct (pool s) as [|ws0 pl] eqn:Hp; [simpl in Hlen; lia|].
    apply (Hworker 0%nat ws0); [first [by rewrite Hp|done]|].
    apply worker_step_enabled; [|by left].
    rewrite ?Hp in Hpool. by inversion Hpool. }
  unfold returned in Hret.
  destruct (main s) as [[|u urls]|cnt|ret pc|ret] eqn:Hm; try done.
  - exists AMain. eexists. split; [done|]. split; [by intros ?|].
    unfold step. rewrite Hpan, Hm. simpl. done.
  - destruct (List.length (ch s) <? workers w)%nat eqn:Hfull.
    + exists AMain. eexists. split; [done|]. split; [by intros ?|].
      unfold step. rewrite Hpan, Hm. simpl. unfold send. rewrite Hfull. done.
    + apply Hrecv. apply Nat.ltb_ge in Hfull. intros Hnil. rewrite Hnil in Hfull.
      simpl in Hfull. lia.
  - destruct (decide (tasks s = 0%Z)) as [Hz|Hnz].
    + exists ATimeout. eexists. split; [done|]. split; [simpl; tauto|].
      unfold step. rewrite Hpan, Hm. simpl. apply Z.eqb_eq in Hz. rewrite Hz. done.
    + assert (Hpos : (0 < outstanding s)%nat) by lia.
      unfold outstanding, queued in Hpos. rewrite Hm in Hpos. simpl in Hpos.
      destruct (ch s) as [|t l] eqn:Hch; [|by apply Hrecv].
      simpl in Hpos.
      destruct (decide (0 < sum_list_with w_out (pool s))%nat) as [Hwo|Hwo].
      * apply sum_list_with_pos in Hwo as (i & ws & Hi & Hx).
        apply (Hworker i ws Hi). apply worker_step_enabled.
        -- exact (Forall_lookup_1 _ _ _ _ Hpool Hi).
        -- by right.
      * destruct (sum_list_with_pos (fun l : list pageTask.t => List.length l)
                    (feeders s)) as (j & l & Hj & Hl); [lia|].
        destruct l as [|t rest]; [simpl in Hl; lia|].
        exists (AFeeder j). eexists. split; [done|]. split; [by intros ?|].
        unfold step. rewrite Hpan. simpl. rewrite Hj. unfold send. rewrite Hch.
        simpl. destruct (workers w); [lia|]. simpl. done.
  - destruct (progress_step c None true pc s) as [[pc'|] s1] eqn:Hps.
    all: exists AMain; eexists; split; [done|]; split; [by intros ?|].
    all: unfold step; rewrite Hpan, Hm; simpl; rewrite Hps; done.
Qed.

End Quiet.

Section Termination.

Context (url_Parse : string -> result URL) (URL_String : URL -> string).
Context (http_get : string -> option string -> Z -> option error -> result string).
Context (NewDocumentFromReader : string -> result Document).
Context (w : Web) (c : RecursiveConfig.t).
Context (U : gset string) (B : nat).

(** The pages that can be fetched from [U] have their children in [U],
    and at most [B] of them. *)
Hypothesis Hclosed : forall pi clock ctx body doc p,
  URL_String (PageInfo.URL pi) ∈ U ->
  http_get (URL_String (PageInfo.URL pi)) (referer URL_String pi) clock ctx = Ok body ->
  NewDocumentFromReader body = Ok doc ->
  extract url_Parse URL_String doc pi (RecursiveConfig.Selectors c) = Some p ->
  page_in URL_String U B p.

#[local] Abbreviation stepc :=
  (step url_Parse URL_String http_get NewDocumentFromReader w c).

Lemma universe_inv_step a s s' :
  stepc a s = Some s' -> universe_inv URL_String U B s -> universe_inv URL_String U B s'.
Proof.
  intros Hstep [Hch Hfe Hpool Hmain Hdone Hdisc]. unfold step in Hstep.
  destruct (panicked s); [done|].
  destruct a; simpl in Hstep.
  1:{ destruct (pool s !! i) as [ws|] eqn:Hws; [|done].
    pose proof (Forall_lookup_1 _ _ _ _ Hpool Hws) as Hi.
    destruct ws; simpl in Hstep;
      unfold progress_step, errors_As_Canceled, page, get, send, log, doDone, url_key in Hstep;
      simpl in Hstep; repeat case_match; simplify_eq.
    all: try match goal with
         | H : ch ?s = _ :: _ |- _ => rewrite ?H in Hch; inversion Hch; subst
         end.
    all: try match goal with
         | H1 : http_get _ _ _ _ = Ok _, H2 : NewDocumentFromReader _ = Ok _,
           H3 : extract _ _ _ _ _ = Some _ |- _ =>
             pose proof (Hclosed _ _ _ _ _ _ Hi H1 H2 H3) as Hpage;
             pose proof Hpage as (_ & _ & Hcc)
         end.
    all: split; simpl in *; try done.
    all: try (apply Forall_insert; simpl; done).
    all: try lia.
    all: try (apply union_subseteq; split; [by apply singleton_subseteq_l|done]).
    apply Forall_app. split; [done|].
    constructor; [by eapply spawned_in|constructor]. }
  all: unfold main_step, main_timeout, progress_step, errors_As_Canceled, send, log in Hstep;
    simpl in Hstep; repeat case_match; simplify_eq.
  all: try match goal with
       | H : feeders ?s !! _ = Some _ |- _ =>
           pose proof (Forall_lookup_1 _ _ _ _ Hfe H) as Hj; inversion Hj; subst
       end.
  all: try match goal with
       | H : main ?s = _ |- _ => rewrite ?H in Hmain; simpl in Hmain
       end.
  all: split; simpl in *; try done.
  all: try (apply Forall_insert; simpl; done).
  all: try (apply Forall_app; split; [done|]; constructor; [|constructor]; try done).
  all: by inversion Hmain.
Qed.

(** The steps of the goroutines use up the potential. *)
Lemma potential_step a s s' :
  stepc a s = Some s' -> universe_inv URL_String U B s ->
  match a with
  | ATick _ | ACancel _ => True
  | ATimeout => if decide (tasks s = 0%Z) then (potential U B s' < potential U B s)%nat
                else s' = s
  | _ => (potential U B s' < potential U B s)%nat
  end.
Proof.
  intros Hstep [Hch Hfe Hpool Hmain Hdone Hdisc]. unfold step in Hstep.
  destruct (panicked s); [done|].
  destruct a; simpl in Hstep; try done.
  1:{ destruct (pool s !! i) as [ws|] eqn:Hws; [|done].
    pose proof (Forall_lookup_1 _ _ _ _ Hpool Hws) as Hi.
    pose proof (sum_list_with_insert (w_cost B) (pool s) i ws) as Hsum.
    destruct ws; simpl in Hstep;
      unfold progress_step, errors_As_Canceled, page, get, send, log, doDone, url_key in Hstep;
      simpl in Hstep; repeat case_match; simplify_eq.
    all: try match goal with
         | H1 : http_get _ _ _ _ = Ok _, H2 : NewDocumentFromReader _ = Ok _,
           H3 : extract _ _ _ _ _ = Some _ |- _ =>
             pose proof (Hclosed _ _ _ _ _ _ Hi H1 H2 H3) as (_ & _ & Hcc)
         end.
    all: unfold potential; simpl.
    all: match goal with
         | |- context [<[_ := ?y]> (pool _)] => specialize (Hsum y Hws)
         end.
    all: simpl in *.
    all: rewrite ?sum_list_with_snoc, ?spawned_length in *.
    all: try match goal with H : ch ?s = _ |- _ => rewrite H in * end; simpl.
    all: try lia.
    apply bool_decide_eq_false in H1.
    pose proof (size_difference_insert U (done s) _ Hi H1) as Hsz.
    nia. }
  - destruct (feeders s !! j) as [[|t rest]|] eqn:Hj; try done.
    pose proof (sum_list_with_insert (fun l : list pageTask.t => List.length l)
                  (feeders s) j (t :: rest) rest Hj) as Hsum.
    unfold send in Hstep. repeat case_match; simplify_eq.
    unfold potential; simpl in *. rewrite length_app. simpl. lia.
  - unfold main_step, progress_step, errors_As_Canceled, send, log in Hstep.
    repeat case_match; simplify_eq; unfold potential; simpl;
      rewrite ?length_app; simpl; try lia.
    all: match goal with H : main ?s = _ |- _ => rewrite H end; simpl; lia.
  - unfold main_timeout in Hstep.
    destruct (main s) eqn:Hm; try done.
    destruct (tasks s =? 0)%Z eqn:Ht; simplify_eq.
    + apply Z.eqb_eq in Ht. rewrite decide_True by done.
      unfold potential; simpl. rewrite Hm. simpl. lia.
    + apply Z.eqb_neq in Ht. rewrite decide_False by done.
      rewrite <-Hm. by destruct s.
Qed.

End Termination.


Section Finite.

Context (url_Parse : string -> result URL) (URL_String : URL -> string).
Context (http_get : string -> option string -> Z -> option error -> result string).
Context (NewDocumentFromReader : string -> result Document).
Context (w : Web) (c : RecursiveConfig.t).
Context (U : gset string) (B : nat).

Hypothesis Hprogress : RecursiveConfig.Progress c = true.

Hypothesis Hclosed : forall pi clock ctx body doc p,
  URL_String (PageInfo.URL pi) ∈ U ->
  http_get (URL_String (PageInfo.URL pi)) (referer URL_String pi) clock ctx = Ok body ->
  NewDocumentFromReader body = Ok doc ->
  extract url_Parse URL_String doc pi (RecursiveConfig.Selectors c) = Some p ->
  page_in URL_String U B p.

Hypothesis Hseeds : forall urls,
  parse_seeds url_Parse (RecursiveConfig.URLs c) = Ok urls ->
  Forall (fun u => URL_String u ∈ U) urls.

Hypothesis Hbound :
  (Z.of_nat (List.length (RecursiveConfig.URLs c)) + Z.of_nat B * Z.of_nat (size U)
   < 2 ^ 64)%Z.

Context (t0 : Z) (s0 : state).
Context (Hinit : Recurse_init url_Parse w c None t0 = Ok s0).

#[local] Abbreviation stepf :=
  (step url_Parse URL_String http_get NewDocumentFromReader w c).
#[local] Abbreviation quiet_run :=
  (reachable_by url_Parse URL_String http_get NewDocumentFromReader w c not_cancel).
#[local] Abbreviation nseeds := (List.length (RecursiveConfig.URLs c)).

Lemma universe_inv_init : universe_inv URL_String U B s0.
Proof.
  destruct (init_state _ _ _ _ _ _ Hinit) as (urls & Hp & ->).
  split; simpl; try done.
  - by apply Forall_replicate.
  - by apply Hseeds.
  - lia.
Qed.

Lemma quiet_inv_init : quiet_inv c (workers w) s0.
Proof.
  destruct (init_state _ _ _ _ _ _ Hinit) as (urls & Hp & ->).
  split; simpl; try done.
  - by apply Forall_replicate.
  - apply length_replicate.
Qed.

(** Fewer than [2^64] children are ever found. *)
Lemma discovered_bound s :
  fetch_inv URL_String s -> universe_inv URL_String U B s ->
  (Z.of_nat nseeds + Z.of_nat (discovered (trace s)) < 2 ^ 64)%Z.
Proof.
  intros Hf [_ _ _ _ Hdone Hdisc].
  assert (Hlen : (List.length (gets (trace s)) <= size U)%nat).
  { apply NoDup_length_le_size.
    - apply get_count_NoDup. intros x. destruct (Hf x). lia.
    - intros x Hx%get_count_elem. apply Hdone. destruct (Hf x) as [_ H]. apply H. lia. }
  nia.
Qed.

Lemma quiet_run_inv s :
  quiet_run s0 s ->
  counts_inv nseeds s /\ fetch_inv URL_String s /\
  universe_inv URL_String U B s /\ quiet_inv c (workers w) s.
Proof.
  induction 1 as [|s a s' Hr IH Ha Hs].
  - split; [by eapply counts_inv_init|].
    split; [by eapply fetch_inv_init|].
    split; [apply universe_inv_init|apply quiet_inv_init].
  - destruct IH as (Hc & Hf & Hu & Hq).
    split; [|split; [|split]].
    + eapply counts_inv_step; eauto.
    + eapply fetch_inv_step; eauto.
    + eapply universe_inv_step; eauto.
    + eapply quiet_inv_step; eauto.
      intros Hz. destruct Hc as [_ Hex].
      destruct (Hex (discovered_bound _ Hf Hu)) as (E1 & _). lia.
Qed.

Lemma quiet_run_tasks s : quiet_run s0 s -> tasks s = Z.of_nat (outstanding s).
Proof.
  intros (Hc & Hf & Hu & _)%quiet_run_inv. destruct Hc as [_ Hex].
  by destruct (Hex (discovered_bound _ Hf Hu)) as (E1 & _).
Qed.

Lemma reachable_in_by n s :
  reachable_in url_Parse URL_String http_get NewDocumentFromReader w c not_cancel s0 n s ->
  quiet_run s0 s.
Proof.
  induction 1; [apply reachable_start|eapply reachable_next; eauto..].
Qed.

(** A run takes no more steps that are not idle than its potential at
    the start. *)
Lemma busy_steps_bounded n s :
  reachable_in url_Parse URL_String http_get NewDocumentFromReader w c not_cancel s0 n s ->
  (n + potential U B s <= potential U B s0)%nat.
Proof.
  induction 1 as [|n s a s' Hr IH Ha Hi Hs|n s a s' Hr IH Ha Hi Hs]; [lia| |].
  - apply reachable_in_by, quiet_run_inv in Hr as (_ & _ & Hu & Hq).
    pose proof (potential_step _ _ _ _ _ _ _ _ Hclosed _ _ _ Hs Hu) as Hpot.
    destruct a; try done.
    + simpl in Hi. rewrite decide_False in Hpot by done. by subst s'.
    + unfold step in Hs. rewrite (qi_panicked _ _ _ Hq) in Hs. simpl in Hs.
      case_match; simplify_eq. done.
  - apply reachable_in_by, quiet_run_inv in Hr as (_ & _ & Hu & Hq).
    pose proof (potential_step _ _ _ _ _ _ _ _ Hclosed _ _ _ Hs Hu) as Hpot.
    destruct a; simpl in Hi; try done; try lia.
    all: try (destruct (decide (tasks s = 0%Z)); [lia|done]).
Qed.

Lemma quiet_run_trans s s' : quiet_run s0 s -> quiet_run s s' -> quiet_run s0 s'.
Proof.
  intros H0 H. induction H as [|s1 a s2 Hr IH Ha Hs]; [done|].
  eapply reachable_next; eauto.
Qed.

Lemma quiet_run_zero s s' :
  quiet_run s s' -> outstanding s = 0%nat -> outstanding s' = 0%nat.
Proof.
  intros H Hz. induction H as [|s1 a s2 Hr IH Ha Hs]; [done|].
  eapply outstanding_zero_step; eauto.
Qed.

End Finite.

(** C2, as the code has it: with a [Progress] that is not [nil].  Take
    a run that is not cancelled, whose seeds lie in a finite set [U] of
    URLs that holds the children of every page fetched from it, a page
    having at most [B] children, with fewer than [2^64] tasks in all
    and a [Progress] that is not [nil].  In every state of
    the run [tasks] is the number of outstanding tasks, [doDone] is only
    called when [tasks] is at least one, and takes one off; every step
    other than the passing of time and the timer firing early uses up
    some of a potential that is a natural number, so the run takes
    finitely many steps, no more than the potential of its first state;
    as long as [Recurse] has not returned some goroutine can take such
    a step; when [Recurse] has returned it has returned [nil] and
    [tasks] is zero; and once [tasks] is zero it stays zero. *)
Theorem Recurse_terminates
    (url_Parse : string -> result URL) (URL_String : URL -> string)
    (http_get : string -> option string -> Z -> option error -> result string)
    (NewDocumentFromReader : string -> result Document)
    (w : Web) (c : RecursiveConfig.t) (U : gset string) (B : nat)
    (t0 : Z) (s0 s : state) :
  RecursiveConfig.Progress c = true ->
  (forall pi clock ctx body doc p,
     URL_String (PageInfo.URL pi) ∈ U ->
     http_get (URL_String (PageInfo.URL pi)) (referer URL_String pi) clock ctx = Ok body ->
     NewDocumentFromReader body = Ok doc ->
     extract url_Parse URL_String doc pi (RecursiveConfig.Selectors c) = Some p ->
     page_in URL_String U B p) ->
  (forall urls,
     parse_seeds url_Parse (RecursiveConfig.URLs c) = Ok urls ->
     Forall (fun u => URL_String u ∈ U) urls) ->
  (Z.of_nat (List.length (RecursiveConfig.URLs c)) + Z.of_nat B * Z.of_nat (size U)
   < 2 ^ 64)%Z ->
  Recurse_init url_Parse w c None t0 = Ok s0 ->
  reachable_by url_Parse URL_String http_get NewDocumentFromReader w c not_cancel s0 s ->
  tasks s = Z.of_nat (outstanding s) /\
  (forall i s',
     pool s !! i = Some WDoDone ->
     step url_Parse URL_String http_get NewDocumentFromReader w c (AWorker i) s = Some s' ->
     (1 <= tasks s)%Z /\ tasks s' = (tasks s - 1)%Z) /\
  (forall a s',
     not_cancel a ->
     step url_Parse URL_String http_get NewDocumentFromReader w c a s = Some s' ->
     (idle a s /\ potential U B s' = potential U B s /\ tasks s' = tasks s) \/
     (potential U B s' < potential U B s)%nat) /\
  (returned s = None ->
   exists a s',
     not_cancel a /\ ~ idle a s /\
     step url_Parse URL_String http_get NewDocumentFromReader w c a s = Some s') /\
  (forall ret, returned s = Some ret -> ret = None /\ tasks s = 0%Z) /\
  (tasks s = 0%Z ->
   forall s',
     reachable_by url_Parse URL_String http_get NewDocumentFromReader w c not_cancel s s' ->
     tasks s' = 0%Z) /\
  (forall n,
     reachable_in url_Parse URL_String http_get NewDocumentFromReader w c not_cancel s0 n s ->
     (n + potential U B s <= potential U B s0)%nat).
Proof.
  intros Hprogress Hclosed Hseeds Hbound Hinit Hr.
  pose proof (quiet_run_inv _ _ _ _ _ _ _ _ Hprogress Hclosed Hseeds Hbound _ _ Hinit _ Hr)
    as (Hc & Hf & Hu & Hq).
  pose proof (quiet_run_tasks _ _ _ _ _ _ _ _ Hprogress Hclosed Hseeds Hbound _ _ Hinit)
    as Htasks.
  split; [by apply Htasks|]. split; [|split; [|split; [|split; [|split]]]].
  - intros i s' Hi Hs.
    assert (Hr' : reachable_by url_Parse URL_String http_get NewDocumentFromReader w c
                    not_cancel s0 s') by (eapply reachable_next; eauto; done).
    rewrite (Htasks _ Hr), (Htasks _ Hr').
    pose proof (sum_list_with_lookup_le w_out _ _ _ Hi) as Hle.
    unfold step in Hs. rewrite (qi_panicked _ _ _ Hq), Hi in Hs. simpl in Hs.
    injection Hs as <-.
    pose proof (sum_list_with_insert w_out (pool s) i WDoDone WRecv Hi) as Hsum.
    unfold outstanding, queued in *. simpl in *. lia.
  - intros a s' Ha Hs.
    pose proof (potential_step _ _ _ _ _ _ _ _ Hclosed _ _ _ Hs Hu) as Hpot.
    destruct a; try done; try (by right).
    + destruct (decide (tasks s = 0%Z)); [by right|]. subst s'. left. done.
    + left. unfold step in Hs. rewrite (qi_panicked _ _ _ Hq) in Hs. simpl in Hs.
      case_match; simplify_eq. done.
  - intros Hret. eapply quiet_enabled; eauto.
  - intros ret Hret. unfold returned in Hret.
    pose proof (qi_main _ _ _ Hq) as Hm. unfold m_quiet in Hm.
    destruct (main s); simplify_eq. destruct Hm as [-> Hz].
    split; [done|]. rewrite (Htasks _ Hr). lia.
  - intros Hz s' Hr'.
    assert (Hr0 : reachable_by url_Parse URL_String http_get NewDocumentFromReader w c
                    not_cancel s0 s').
    { eapply quiet_run_trans; eauto. }
    rewrite (Htasks _ Hr0). rewrite (Htasks _ Hr) in Hz.
    rewrite (quiet_run_zero _ _ _ _ _ _ _ _ Hr'); [done|lia].
  - intros n Hn.
    exact (busy_steps_bounded _ _ _ _ _ _ _ _ Hprogress Hclosed Hseeds Hbound _ _ Hinit
             _ _ Hn).
Qed.

(** The example crawl stays within its two URLs. *)
Lemma Online_closed pi clock ctx body doc p :
  GoURL.String (PageInfo.URL pi) ∈ Online.universe ->
  Online.http_get (GoURL.String (PageInfo.URL pi)) (referer GoURL.String pi) clock ctx
  = Ok body ->
  Online.NewDocumentFromReader body = Ok doc ->
  extract GoURL.Parse GoURL.String doc pi (RecursiveConfig.Selectors Online.conf) = Some p ->
  page_in GoURL.String Online.universe 2 p.
Proof.
  intros _ _ Hdoc Hp. injection Hdoc as <-.
  vm_compute in Hp. injection Hp as <-.
  unfold page_in, children_count. simpl.
  split; [|split; [|lia]].
  all: repeat (apply Forall_cons; split; [|try apply Forall_nil_2]).
  all: refine (bool_decide_unpack _ _); vm_compute; exact I.
Defined.

Lemma Online_seeds urls :
  parse_seeds GoURL.Parse (RecursiveConfig.URLs Online.conf) = Ok urls ->
  Forall (fun u => GoURL.String u ∈ Online.universe) urls.
Proof.
  intros H. vm_compute in H. injection H as <-.
  apply Forall_cons. split; [|apply Forall_nil_2].
  refine (bool_decide_unpack _ _). vm_compute. exact I.
Defined.

Lemma Forall_not_cancel_Online :
  Forall not_cancel (Online.schedule_to_download ++ Online.schedule_to_end).
Proof. repeat constructor. Defined.

Lemma Online_quiet_run :
  reachable_by GoURL.Parse GoURL.String Online.http_get Online.NewDocumentFromReader
               Online.web Online.conf not_cancel Online.start Online.at_end.
Proof.
  eapply run_actions_reachable; [exact Forall_not_cancel_Online|].
  eapply run_actions_app; [exact (proj1 (proj2 Online_run))|].
  exact (proj2 (proj2 Online_run)).
Defined.

Lemma Recurse_terminates_witness :
  RecursiveConfig.Progress Online.conf = true /\
  (Z.of_nat (List.length (RecursiveConfig.URLs Online.conf))
   + Z.of_nat 2 * Z.of_nat (size Online.universe) < 2 ^ 64)%Z /\
  Recurse_init GoURL.Parse Online.web Online.conf None 0 = Ok Online.start /\
  reachable_by GoURL.Parse GoURL.String Online.http_get Online.NewDocumentFromReader
               Online.web Online.conf not_cancel Online.start Online.at_end /\
  returned Online.at_end = Some None /\
  tasks Online.at_end = Z.of_nat (outstanding Online.at_end) /\
  tasks Online.at_end = 0%Z /\
  (forall s',
     reachable_by GoURL.Parse GoURL.String Online.http_get Online.NewDocumentFromReader
                  Online.web Online.conf not_cancel Online.at_end s' ->
     tasks s' = 0%Z).
Proof.
  assert (Hb : (Z.of_nat (List.length (RecursiveConfig.URLs Online.conf))
                + Z.of_nat 2 * Z.of_nat (size Online.universe) < 2 ^ 64)%Z)
    by (vm_compute; reflexivity).
  destruct (Recurse_terminates
              GoURL.Parse GoURL.String Online.http_get Online.NewDocumentFromReader
              Online.web Online.conf Online.universe 2 0 Online.start Online.at_end
              eq_refl Online_closed Online_seeds Hb (proj1 Online_run) Online_quiet_run)
    as (Htasks & _ & _ & _ & Hret & Hzero & _).
  split; [reflexivity|]. split; [exact Hb|].
  split; [exact (proj1 Online_run)|]. split; [exact Online_quiet_run|].
  split; [reflexivity|]. split; [exact Htasks|].
  destruct (Hret None eq_refl) as [_ Hz].
  split; [exact Hz|]. exact (Hzero Hz).
Defined.

(** C2 as stated does not ask for a progress sink, and [Recurse]
    accepts a [RecursiveConfig] without one.  The crawl of [Online]
    without a sink is not cancelled and stays within the same two URLs,
    but it ends with the first call of [progress], which calls the
    [nil] [c.Progress] and panics: [tasks] is three, for the seed and
    its two children, [Recurse] has not returned, and nothing moves any
    more, so [tasks] never comes to zero. *)
Lemma Recurse_without_Progress_counterexample :
  RecursiveConfig.Progress Unwatched.conf = false /\
  (forall pi clock ctx body doc p,
     GoURL.String (PageInfo.URL pi) ∈ Online.universe ->
     Online.http_get (GoURL.String (PageInfo.URL pi)) (referer GoURL.String pi) clock ctx
     = Ok body ->
     Online.NewDocumentFromReader body = Ok doc ->
     extract GoURL.Parse GoURL.String doc pi (RecursiveConfig.Selectors Unwatched.conf)
     = Some p ->
     page_in GoURL.String Online.universe 2 p) /\
  (forall urls,
     parse_seeds GoURL.Parse (RecursiveConfig.URLs Unwatched.conf) = Ok urls ->
     Forall (fun u => GoURL.String u ∈ Online.universe) urls) /\
  (Z.of_nat (List.length (RecursiveConfig.URLs Unwatched.conf))
   + Z.of_nat 2 * Z.of_nat (size Online.universe) < 2 ^ 64)%Z /\
  Recurse_init GoURL.Parse Online.web Unwatched.conf None 0 = Ok Unwatched.start /\
  reachable_by GoURL.Parse GoURL.String Online.http_get Online.NewDocumentFromReader
               Online.web Unwatched.conf not_cancel Unwatched.start Unwatched.at_panic /\
  panicked Unwatched.at_panic = true /\
  tasks Unwatched.at_panic = 3%Z /\
  returned Unwatched.at_panic = None /\
  (forall a,
     step GoURL.Parse GoURL.String Online.http_get Online.NewDocumentFromReader
          Online.web Unwatched.conf a Unwatched.at_panic = None) /\
  (forall s',
     reachable_by GoURL.Parse GoURL.String Online.http_get Online.NewDocumentFromReader
                  Online.web Unwatched.conf not_cancel Unwatched.at_panic s' ->
     tasks s' = 3%Z /\ returned s' = None).
Proof.
  assert (Hstuck : forall a,
            step GoURL.Parse GoURL.String Online.http_get Online.NewDocumentFromReader
                 Online.web Unwatched.conf a Unwatched.at_panic = None)
    by (intros a; reflexivity).
  split; [reflexivity|]. split; [exact Online_closed|]. split; [exact Online_seeds|].
  split; [vm_compute; reflexivity|]. split; [vm_compute; reflexivity|].
  split.
  { apply (run_actions_reachable _ _ _ _ _ _ _ Unwatched.schedule);
      [repeat constructor|vm_compute; reflexivity]. }
  split; [reflexivity|]. split; [reflexivity|]. split; [reflexivity|].
  split; [exact Hstuck|].
  intros s' Hr.
  assert (s' = Unwatched.at_panic) as ->; [|split; reflexivity].
  induction Hr as [|s a s' _ IH _ Hs]; [reflexivity|].
  subst s. by rewrite Hstuck in Hs.
Qed.
(** ** Selector parsing: round trip and comma-separated lists *)

Lemma string_app_cons c (a b : string) : String c a ++ b = String c (a ++ b).
Proof. reflexivity. Qed.

Lemma string_app_nil_l (b : string) : "" ++ b = b.
Proof. reflexivity. Qed.

Lemma string_app_assoc (a b c : string) : (a ++ b) ++ c = a ++ b ++ c.
Proof. induction a; rewrite ?string_app_cons, ?string_app_nil_l; congruence. Qed.

Lemma string_app_nil_r (a : string) : a ++ "" = a.
Proof. induction a; rewrite ?string_app_cons, ?string_app_nil_l; congruence. Qed.

Lemma string_length_app (a b : string) :
  String.length (a ++ b) = (String.length a + String.length b)%nat.
Proof. induction a; rewrite ?string_app_cons, ?string_app_nil_l; simpl; congruence. Qed.

Lemma substring_0_app (a b : string) : String.substring 0 (String.length a) (a ++ b) = a.
Proof.
  induction a; rewrite ?string_app_cons, ?string_app_nil_l; simpl;
    [by destruct b|congruence].
Qed.

Lemma span_not_rbracket_spec s :
  let '(body, rest) := GoRegexp.span_not_rbracket s in
  s = body ++ rest /\ GoURL.count_byte "]" body = 0%nat.
Proof.
  induction s as [|c s IH]; simpl; [done|].
  destruct (Ascii.eqb c "]") eqn:Hc; [done|].
  destruct (GoRegexp.span_not_rbracket s) as [body rest]. destruct IH as [-> IH].
  split; [done|]. cbn [GoURL.count_byte]. rewrite Ascii.eqb_sym, Hc. exact IH.
Qed.

Lemma attrRE_at_spec s m0 m1 :
  GoRegexp.attrRE_at s = Some (m0, m1) ->
  m0 = s /\ s = "[" ++ m1 ++ "]" /\ m1 <> "" /\ GoURL.count_byte "]" m1 = 0%nat.
Proof.
  destruct s as [|c s]; [done|]. simpl.
  destruct (Ascii.eqb c "[") eqn:Hc; [|done]. apply Ascii.eqb_eq in Hc as ->.
  pose proof (span_not_rbracket_spec s) as Hs.
  destruct (GoRegexp.span_not_rbracket s) as [body rest]. destruct Hs as [-> Hn].
  destruct (String.eqb body "") eqn:Hb; [done|].
  destruct (String.eqb rest "]") eqn:Hr; [|done]. simpl.
  apply String.eqb_eq in Hr as ->. apply String.eqb_neq in Hb.
  intros [= <- <-]. done.
Qed.

Lemma attrRE_FindStringSubmatch_spec s m0 m1 :
  GoRegexp.attrRE_FindStringSubmatch s = Some (m0, m1) ->
  exists pre, s = pre ++ m0 /\ m0 = "[" ++ m1 ++ "]" /\ m1 <> "" /\
              GoURL.count_byte "]" m1 = 0%nat.
Proof.
  induction s as [|c s IH].
  - simpl. done.
  - cbn [GoRegexp.attrRE_FindStringSubmatch].
    destruct (GoRegexp.attrRE_at (String c s)) as [[a b]|] eqn:Hat.
    + intros [= <- <-]. apply attrRE_at_spec in Hat as (-> & H2 & H3 & H4).
      exists "". done.
    + intros H. destruct (IH H) as (pre & -> & Hrest). exists (String c pre). done.
Qed.

(** X1. [newSelector] loses nothing: the text of the clause it returns
    is the text it was given; the attribute, when there is one, holds
    no closing bracket. *)
Theorem newSelector_round_trip (s : string) :
  Selector_text (newSelector s) = s /\
  GoURL.count_byte "]" (Attr (newSelector s)) = 0%nat.
Proof.
  unfold newSelector, Selector_text.
  destruct (GoRegexp.attrRE_FindStringSubmatch s) as [[m0 m1]|] eqn:Hm; [|done].
  apply attrRE_FindStringSubmatch_spec in Hm as (pre & -> & -> & Hne & Hc).
  apply String.eqb_neq in Hne. cbn [Attr Query]. rewrite Hne. split; [|done].
  unfold GoStrings.slice_to. rewrite string_length_app, Nat.add_sub.
  by rewrite substring_0_app.
Qed.

Lemma re_space_space_rune c :
  GoRegexp.re_space c = true -> GoStrings.space_rune [GoStrings.byte_of c] = true.
Proof.
  unfold GoRegexp.re_space, GoStrings.byte_of.
  generalize (N_of_ascii c). intros b Hb.
  repeat (apply orb_true_iff in Hb as [Hb|Hb]);
    apply N.eqb_eq in Hb; subst b; reflexivity.
Qed.

Lemma trim_with_all_space s n :
  all_space s = true -> (String.length s <= n)%nat ->
  GoStrings.trim_with GoStrings.drop_space_rune n s = "".
Proof.
  revert n. induction s as [|c s IH]; intros n Hs Hn.
  - by destruct n.
  - simpl in Hs. apply andb_true_iff in Hs as [Hc Hs].
    destruct n as [|n]; [simpl in Hn; lia|].
    cbn [GoStrings.trim_with GoStrings.drop_space_rune].
    rewrite (re_space_space_rune _ Hc). apply IH; [done|simpl in Hn; lia].
Qed.

Lemma TrimSpace_all_space s : all_space s = true -> GoStrings.TrimSpace s = "".
Proof.
  intros Hs. unfold GoStrings.TrimSpace, GoStrings.TrimLeft_space.
  by rewrite trim_with_all_space.
Qed.

Lemma NewSelector_loop_app l1 l2 :
  NewSelector_loop (l1 ++ l2) = (NewSelector_loop l1 ++ NewSelector_loop l2)%list.
Proof.
  induction l1 as [|p l1 IH]; [done|]. cbn [NewSelector_loop app].
  destruct (String.eqb (GoStrings.TrimSpace p) ""); [done|].
  by rewrite IH.
Qed.

Lemma NewSelector_loop_blank ps :
  Forall (fun p => all_space p = true) ps -> NewSelector_loop ps = [].
Proof.
  induction 1 as [|p ps Hp _ IH]; [done|]. cbn [NewSelector_loop].
  by rewrite (TrimSpace_all_space _ Hp).
Qed.

Lemma NewSelector_loop_pieces sp :
  NewSelector_loop sp =
  newSelector <$> List.filter (fun p => negb (String.eqb p "")) (GoStrings.TrimSpace <$> sp).
Proof.
  induction sp as [|p sp IH]; [done|]. cbn [NewSelector_loop fmap list_fmap List.filter].
  destruct (String.eqb (GoStrings.TrimSpace p) ""); simpl; [done|]. by rewrite IH.
Qed.

Lemma Split_comma_cons c s :
  GoStrings.Split_comma (String c s) =
  if Ascii.eqb c "," then "" :: GoStrings.Split_comma s
  else match GoStrings.Split_comma s with
       | h :: t => String c h :: t
       | [] => [String c ""]
       end.
Proof. reflexivity. Qed.

Lemma Split_comma_nonempty s : exists h t, GoStrings.Split_comma s = h :: t.
Proof.
  induction s as [|c s (h & t & IH)]; [by eexists _, _|].
  rewrite Split_comma_cons, IH. destruct (Ascii.eqb c ","); by eexists _, _.
Qed.

Lemma Split_comma_join a b :
  GoStrings.Split_comma (a ++ "," ++ b) =
  (GoStrings.Split_comma a ++ GoStrings.Split_comma b)%list.
Proof.
  induction a as [|c a IH].
  - reflexivity.
  - rewrite string_app_cons, !Split_comma_cons, IH.
    destruct (Ascii.eqb c ","); [done|].
    by destruct (Split_comma_nonempty a) as (h & t & ->).
Qed.

(** The pieces of a text of commas and white space are blank, and the
    first one is empty when the text starts with a comma. *)
Lemma Split_comma_sepchars m :
  sepchars m = true ->
  Forall (fun p => all_space p = true) (GoStrings.Split_comma m) /\
  (forall m1, m = String "," m1 -> exists t, GoStrings.Split_comma m = "" :: t).
Proof.
  induction m as [|c m IH]; intros Hm.
  - split; [by repeat constructor|done].
  - simpl in Hm. apply andb_true_iff in Hm as [Hc Hm].
    destruct (IH Hm) as [IH1 _]. rewrite Split_comma_cons.
    destruct (Ascii.eqb c ",") eqn:Hcomma.
    + split; [by constructor|]. intros _ _. by eexists.
    + split.
      * destruct (Split_comma_nonempty m) as (h & t & Hht). rewrite Hht in *.
        apply Forall_cons in IH1 as [Hh Ht]. constructor; [|done].
        simpl. rewrite Hh. simpl in Hc. by rewrite Hc.
      * intros m1 [= -> _]. done.
Qed.

(** An anchored match of [commaRE] is a text of commas and white space
    that ends with a comma and, at the start of an iteration, starts
    with one. *)
Lemma comma_units_spec s : forall in_unit pos best,
  GoRegexp.comma_units in_unit pos best s = best \/
  exists m0 rest,
    s = m0 ++ "," ++ rest /\
    GoRegexp.comma_units in_unit pos best s = (pos + S (String.length m0))%nat /\
    sepchars m0 = true /\
    (in_unit = false -> exists m1, m0 = String "," m1).
Proof.
  induction s as [|c s IH]; intros in_unit pos best; [by left|].
  cbn [GoRegexp.comma_units]. destruct in_unit.
  - destruct (Ascii.eqb c ",") eqn:Hc.
    + apply Ascii.eqb_eq in Hc as ->. right.
      destruct (IH false (S pos) (S pos)) as [->|(m0 & rest & -> & -> & Hm & Hs)].
      * exists "", s. repeat split; [simpl; lia|done].
      * exists (String "," m0), rest. repeat split; [simpl; lia|by simpl|done].
    + destruct (GoRegexp.re_space c) eqn:Hsp; [|by left].
      destruct (IH true (S pos) best) as [->|(m0 & rest & -> & -> & Hm & Hs)]; [by left|].
      right. exists (String c m0), rest.
      repeat split; [simpl; lia|simpl; by rewrite Hc, Hsp, Hm|done].
  - destruct (Ascii.eqb c ",") eqn:Hc; [|by left].
    apply Ascii.eqb_eq in Hc as ->.
    destruct (IH true (S pos) best) as [->|(m0 & rest & -> & -> & Hm & Hs)]; [by left|].
    right. exists (String "," m0), rest.
    repeat split; [simpl; lia|by simpl|by eexists].
Qed.

Lemma commaRE_replace_skip a r :
  GoRegexp.commaRE_replace (String.length a) (a ++ r) = GoRegexp.commaRE_replace 0 r.
Proof.
  induction a as [|c a IH]; [done|].
  rewrite string_app_cons. cbn [String.length GoRegexp.commaRE_replace]. exact IH.
Qed.

(** Replacing the matches of [commaRE] keeps the first piece and
    changes the others by blank pieces only. *)
Lemma commaRE_replace_pieces n : forall s, (String.length s <= n)%nat ->
  exists h t1 t2,
    GoStrings.Split_comma (GoRegexp.commaRE_replace 0 s) = h :: t1 /\
    GoStrings.Split_comma s = h :: t2 /\
    NewSelector_loop t1 = NewSelector_loop t2.
Proof.
  induction n as [|n IH]; intros s Hn.
  { destruct s; [|simpl in Hn; lia]. by exists "", [], []. }
  destruct s as [|c s]; [by exists "", [], []|].
  cbn [GoRegexp.commaRE_replace].
  destruct (comma_units_spec (String c s) false 0 0)
    as [->|(m0 & rest & Hs & -> & Hm & Hst)].
  - destruct (IH s) as (h & t1 & t2 & H1 & H2 & H3); [simpl in Hn; lia|].
    rewrite !Split_comma_cons, H1, H2.
    destruct (Ascii.eqb c ",").
    + exists "", (h :: t1), (h :: t2). repeat split.
      cbn [NewSelector_loop]. by rewrite H3.
    + by exists (String c h), t1, t2.
  - destruct (Hst eq_refl) as [m1 ->]. rewrite string_app_cons in Hs.
    injection Hs as -> ->. cbn [Nat.add String.length].
    replace (S (String.length m1)) with (String.length (m1 ++ ",")) 
      by (rewrite string_length_app; simpl; lia).
    rewrite <-string_app_assoc, commaRE_replace_skip.
    destruct (IH rest) as (h & t1 & t2 & H1 & H2 & H3).
    { simpl in Hn. rewrite !string_length_app in Hn. simpl in Hn. lia. }
    rewrite Split_comma_cons. cbn [Ascii.eqb]. simpl Ascii.eqb.
    rewrite H1.
    change (String "," ((m1 ++ ",") ++ rest)) with (String "," (m1 ++ ",") ++ rest).
    rewrite <-string_app_cons, string_app_assoc, Split_comma_join, H2.
    destruct (Split_comma_sepchars _ Hm) as [Hbl Hhd].
    destruct (Hhd _ eq_refl) as [t Ht]. rewrite Ht in *.
    apply Forall_cons in Hbl as [_ Hbl].
    exists "", (h :: t1), (t ++ h :: t2)%list. repeat split.
    rewrite NewSelector_loop_app, (NewSelector_loop_blank _ Hbl).
    cbn [NewSelector_loop app]. by rewrite H3.
Qed.

(** [commaRE] removes nothing that the loop of [NewSelector] would not
    drop. *)
Lemma NewSelector_Split s : NewSelector s = NewSelector_loop (GoStrings.Split_comma s).
Proof.
  unfold NewSelector, GoRegexp.commaRE_ReplaceAllString.
  destruct (commaRE_replace_pieces _ s (le_n _)) as (h & t1 & t2 & -> & -> & H).
  cbn [NewSelector_loop]. by rewrite H.
Qed.

(** X2. The clauses that [NewSelector] returns are the texts between
    the commas of its argument, trimmed, without the empty ones, each
    parsed by [newSelector], in their order: collapsing the runs of
    commas first changes nothing. *)
Theorem NewSelector_pieces (s : string) :
  NewSelector s = newSelector <$> selector_pieces s.
Proof. rewrite NewSelector_Split. apply NewSelector_loop_pieces. Qed.

Lemma NewSelectors_app xs ys :
  NewSelectors (xs ++ ys) = (NewSelectors xs ++ NewSelectors ys)%list.
Proof.
  induction xs as [|x xs IH]; [done|]. cbn [NewSelectors app].
  by rewrite IH, app_assoc.
Qed.

(** X3. A selector list can be given in one text or in several: two
    texts joined by a comma parse as the two texts one after the other,
    and so do they among the arguments of [NewSelectors]. *)
Theorem NewSelectors_comma_join (xs ys : list string) (a b : string) :
  NewSelector (a ++ "," ++ b) = (NewSelector a ++ NewSelector b)%list /\
  NewSelectors (xs ++ [a ++ "," ++ b] ++ ys) = NewSelectors (xs ++ [a; b] ++ ys).
Proof.
  assert (H : NewSelector (a ++ "," ++ b) = (NewSelector a ++ NewSelector b)%list).
  { by rewrite !NewSelector_Split, Split_comma_join, NewSelector_loop_app. }
  split; [exact H|].
  rewrite !NewSelectors_app. cbn [NewSelectors app].
  by rewrite H, !app_nil_r, app_assoc.
Qed.

(** ** The extractor: links and titles *)

Lemma feed_app {St : Type} (add : nat -> string -> St -> option St) qix ds1 ds2 st :
  feed add qix (ds1 ++ ds2) st =
  match feed add qix ds1 st with
  | Some st' => feed add qix ds2 st'
  | None => None
  end.
Proof.
  revert st. induction ds1 as [|d ds1 IH]; intros st; [done|]. simpl.
  destruct (add qix d st); [apply IH|done].
Qed.

(** A closure that does not look at the index of the clause sees the
    data of the group as one list. *)
Lemma qry_loop_feed {St : Type} doc (add : nat -> string -> St -> option St) q :
  (forall i j d st, add i d st = add j d st) ->
  forall qix st, qry_loop doc q qix add st = feed add 0 (group_data doc q) st.
Proof.
  intros Hadd. induction q as [|sel q IH]; intros qix st; [done|].
  cbn [qry_loop]. rewrite qry_each_feed. unfold group_data. cbn [fmap list_fmap List.concat].
  rewrite feed_app. fold (clause_data doc sel).
  replace (feed add qix (clause_data doc sel) st)
    with (feed add 0 (clause_data doc sel) st).
  2:{ generalize (clause_data doc sel). intros ds. revert st.
      induction ds as [|d ds IHd]; intros st; [done|]. simpl.
      rewrite (Hadd 0%nat qix). destruct (add qix d st); [apply IHd|done]. }
  destruct (feed add 0 (clause_data doc sel) st); [apply IH|done].
Qed.

Section LinkFacts.

Context (url_Parse : string -> result URL) (URL_String : URL -> string).

Lemma feed_addLink pi ds : forall lst,
  feed (addLink url_Parse URL_String pi) 0 ds lst =
  Some (lst ++ omap (resolved url_Parse URL_String (PageInfo.URL pi)) ds)%list.
Proof.
  induction ds as [|d ds IH]; intros lst; simpl; [by rewrite app_nil_r|].
  unfold addLink at 1, resolved at 1.
  destruct (HREF url_Parse URL_String (PageInfo.URL pi) d); rewrite IH; [|done].
  by rewrite <-app_assoc.
Qed.

Lemma qry_addLink doc pi q :
  qry doc q (addLink url_Parse URL_String pi) [] =
  Some (omap (resolved url_Parse URL_String (PageInfo.URL pi)) (group_data doc q)).
Proof.
  unfold qry. rewrite qry_loop_feed; [|done]. by rewrite feed_addLink.
Qed.

Lemma feed_addTitle ds : forall t,
  feed addTitle 0 ds t =
  Some (if String.eqb t "" then first_nonempty (title_text <$> ds) else t).
Proof.
  induction ds as [|d ds IH]; intros t; simpl.
  - by destruct (String.eqb t "") eqn:Ht; [apply String.eqb_eq in Ht as ->|].
  - unfold addTitle at 1. fold (title_text d).
    destruct (String.eqb t "") eqn:Ht; rewrite IH; [|by rewrite Ht].
    done.
Qed.

Lemma qry_addTitle doc q t :
  qry doc q addTitle t =
  Some (if String.eqb t "" then first_nonempty (title_text <$> group_data doc q) else t).
Proof.
  unfold qry. rewrite qry_loop_feed; [|done]. apply feed_addTitle.
Qed.

End LinkFacts.

(** X4. The links of a page are the matches of the link clauses,
    clause after clause and in document order within a clause, each
    resolved against the URL of the page; a match that does not resolve
    is left out.  The same holds of the downloads. *)
Theorem extract_links
    (url_Parse : string -> result URL) (URL_String : URL -> string)
    (doc : Document) (pi : PageInfo.t) (s : Selectors.t) :
  exists p,
    extract url_Parse URL_String doc pi s = Some p /\
    Page.Links p =
      omap (resolved url_Parse URL_String (PageInfo.URL pi))
           (group_data doc (Selectors.Links s)) /\
    Page.Downloads p =
      omap (resolved url_Parse URL_String (PageInfo.URL pi))
           (group_data doc (Selectors.Downloads s)).
Proof.
  destruct (extract_prints url_Parse URL_String doc pi s) as (p & Hp & _).
  exists p. split; [exact Hp|]. unfold extract in Hp. cbn [newPage Page.Links Page.Downloads] in Hp.
  rewrite !qry_addLink in Hp. repeat case_match; simplify_eq. done.
Qed.

(** X5. The page keeps the URL, the referring page and the index of
    its task.  Its title is the title of the task when that is not
    empty; otherwise it is the first match of the title clauses whose
    text, with its white space collapsed and trimmed, is not empty, and
    it is empty when there is none. *)
Theorem extract_title
    (url_Parse : string -> result URL) (URL_String : URL -> string)
    (doc : Document) (pi : PageInfo.t) (s : Selectors.t) :
  exists p,
    extract url_Parse URL_String doc pi s = Some p /\
    PageInfo.URL (Page.PageInfo p) = PageInfo.URL pi /\
    PageInfo.Ref (Page.PageInfo p) = PageInfo.Ref pi /\
    PageInfo.Index (Page.PageInfo p) = PageInfo.Index pi /\
    PageInfo.Title (Page.PageInfo p) =
      if String.eqb (PageInfo.Title pi) ""
      then first_nonempty (title_text <$> group_data doc (Selectors.Titles s))
      else PageInfo.Title pi.
Proof.
  destruct (extract_prints url_Parse URL_String doc pi s) as (p & Hp & _).
  exists p. split; [exact Hp|]. unfold extract in Hp.
  cbn [newPage Page.PageInfo] in Hp. rewrite qry_addTitle in Hp.
  repeat case_match; simplify_eq; done.
Qed.

(** *** The form of a title *)

Lemma multispaceRE_replace_single_spaced s : forall b,
  single_spaced b (multispaceRE_replace b s) = true.
Proof.
  induction s as [|c s IH]; intros b; [done|]. cbn [multispaceRE_replace].
  destruct (GoRegexp.re_space c) eqn:Hc.
  - destruct b; [apply IH|]. cbn [single_spaced]. simpl Ascii.eqb. apply IH.
  - cbn [single_spaced]. rewrite Hc.
    destruct (Ascii.eqb c " ") eqn:Hsp; [|apply IH].
    apply Ascii.eqb_eq in Hsp as ->. done.
Qed.

Lemma single_spaced_weaken b s : single_spaced b s = true -> single_spaced false s = true.
Proof.
  destruct s as [|c s]; [done|]. cbn [single_spaced].
  destruct (Ascii.eqb c " "); [|done]. by intros [_ ->]%andb_true_iff.
Qed.

Lemma single_spaced_suffix a : forall b x,
  single_spaced b (a ++ x) = true -> single_spaced false x = true.
Proof.
  induction a as [|c a IH]; intros b x; [apply single_spaced_weaken|].
  rewrite string_app_cons. cbn [single_spaced].
  destruct (Ascii.eqb c " "); intros [_ H]%andb_true_iff; eapply IH, H.
Qed.

Lemma single_spaced_prefix x : forall b a,
  single_spaced b (x ++ a) = true -> single_spaced b x = true.
Proof.
  induction x as [|c x IH]; intros b a; [done|].
  rewrite string_app_cons. cbn [single_spaced].
  destruct (Ascii.eqb c " "); intros [-> H]%andb_true_iff; eapply IH, H.
Qed.

Lemma multispaceRE_replace_fixed s : forall b,
  single_spaced b s = true -> multispaceRE_replace b s = s.
Proof.
  induction s as [|c s IH]; intros b; [done|]. cbn [single_spaced multispaceRE_replace].
  destruct (Ascii.eqb c " ") eqn:Hsp.
  - apply Ascii.eqb_eq in Hsp as ->. intros [Hb H]%andb_true_iff.
    destruct b; [done|]. simpl GoRegexp.re_space. cbn iota. by rewrite IH.
  - intros [Hc H]%andb_true_iff. apply negb_true_iff in Hc. rewrite Hc. by rewrite IH.
Qed.

Lemma rev_append_string_app s : forall acc,
  GoStrings.rev_append_string s acc = GoStrings.rev_string s ++ acc.
Proof.
  unfold GoStrings.rev_string. induction s as [|c s IH]; intros acc; [done|].
  cbn [GoStrings.rev_append_string]. rewrite IH, (IH (String c "")).
  by rewrite string_app_assoc.
Qed.

Lemma rev_string_cons c s : GoStrings.rev_string (String c s) = GoStrings.rev_string s ++ String c "".
Proof. unfold GoStrings.rev_string at 1. cbn [GoStrings.rev_append_string]. apply rev_append_string_app. Qed.

Lemma rev_string_app a b :
  GoStrings.rev_string (a ++ b) = GoStrings.rev_string b ++ GoStrings.rev_string a.
Proof.
  induction a as [|c a IH]; [by rewrite string_app_nil_l, string_app_nil_r|].
  by rewrite string_app_cons, !rev_string_cons, IH, string_app_assoc.
Qed.

Lemma rev_string_involutive s : GoStrings.rev_string (GoStrings.rev_string s) = s.
Proof.
  induction s as [|c s IH]; [done|]. by rewrite rev_string_cons, rev_string_app, IH.
Qed.

Lemma drop_space_rune_suffix s s' :
  GoStrings.drop_space_rune s = Some s' ->
  exists r, s = r ++ s' /\ (1 <= String.length r)%nat.
Proof.
  unfold GoStrings.drop_space_rune. intros H.
  repeat case_match; simplify_eq.
  - eexists (String _ ""). split; [reflexivity|simpl; lia].
  - eexists (String _ (String _ "")). split; [reflexivity|simpl; lia].
  - eexists (String _ (String _ (String _ ""))). split; [reflexivity|simpl; lia].
Qed.

Lemma drop_space_rune_rev_suffix s s' :
  GoStrings.drop_space_rune_rev s = Some s' ->
  exists r, s = r ++ s' /\ (1 <= String.length r)%nat.
Proof.
  unfold GoStrings.drop_space_rune_rev. intros H.
  repeat case_match; simplify_eq.
  - eexists (String _ ""). split; [reflexivity|simpl; lia].
  - eexists (String _ (String _ "")). split; [reflexivity|simpl; lia].
  - eexists (String _ (String _ (String _ ""))). split; [reflexivity|simpl; lia].
Qed.

Section Trim.

Context (drop : string -> option string).
Hypothesis Hdrop : forall s s', drop s = Some s' ->
  exists r, s = r ++ s' /\ (1 <= String.length r)%nat.

Lemma trim_with_suffix n : forall s, exists pre, s = pre ++ GoStrings.trim_with drop n s.
Proof.
  induction n as [|n IH]; intros s; [by exists ""|]. cbn [GoStrings.trim_with].
  destruct (drop s) as [s'|] eqn:Hs; [|by exists ""].
  destruct (Hdrop _ _ Hs) as (r & -> & _). destruct (IH s') as [pre Hpre].
  exists (r ++ pre). by rewrite string_app_assoc, <-Hpre.
Qed.

Lemma trim_with_done n : forall s,
  (String.length s <= n)%nat -> drop (GoStrings.trim_with drop n s) = None.
Proof.
  induction n as [|n IH]; intros s Hn.
  - destruct s; [|simpl in Hn; lia]. simpl.
    destruct (drop "") as [s'|] eqn:Hs; [|done].
    destruct (Hdrop _ _ Hs) as (r & Hr & Hl). destruct r; [simpl in Hl; lia|done].
  - cbn [GoStrings.trim_with]. destruct (drop s) as [s'|] eqn:Hs; [|done].
    apply IH. destruct (Hdrop _ _ Hs) as (r & -> & Hl).
    rewrite string_length_app in Hn. lia.
Qed.

Lemma trim_with_fixed n s : drop s = None -> GoStrings.trim_with drop n s = s.
Proof. intros H. destruct n; [done|]. cbn [GoStrings.trim_with]. by rewrite H. Qed.

End Trim.

Lemma TrimLeft_space_suffix s : exists pre, s = pre ++ GoStrings.TrimLeft_space s.
Proof. apply trim_with_suffix, drop_space_rune_suffix. Qed.

Lemma TrimRight_space_prefix s : exists suf, s = GoStrings.TrimRight_space s ++ suf.
Proof.
  unfold GoStrings.TrimRight_space.
  destruct (trim_with_suffix _ drop_space_rune_rev_suffix
              (String.length s) (GoStrings.rev_string s)) as [pre Hpre].
  exists (GoStrings.rev_string pre).
  rewrite <-rev_string_app, <-Hpre. by rewrite rev_string_involutive.
Qed.

Lemma drop_space_rune_prefix x suf :
  GoStrings.drop_space_rune (x ++ suf) = None -> GoStrings.drop_space_rune x = None.
Proof.
  destruct x as [|a [|b [|c x]]]; [done| | |];
    rewrite ?string_app_cons, ?string_app_nil_l;
    unfold GoStrings.drop_space_rune; intros H; repeat case_match; simplify_eq; done.
Qed.

Lemma string_length_rev_string s :
  String.length (GoStrings.rev_string s) = String.length s.
Proof.
  induction s as [|c s IH]; [done|].
  rewrite rev_string_cons, string_length_app, IH. simpl. lia.
Qed.

Lemma TrimSpace_idempotent s :
  GoStrings.TrimSpace (GoStrings.TrimSpace s) = GoStrings.TrimSpace s.
Proof.
  unfold GoStrings.TrimSpace. set (t := GoStrings.TrimLeft_space s).
  assert (Ht : GoStrings.drop_space_rune t = None).
  { apply trim_with_done; [apply drop_space_rune_suffix|done]. }
  destruct (TrimRight_space_prefix t) as [suf Hsuf].
  set (r := GoStrings.TrimRight_space t) in *.
  assert (Hr : GoStrings.drop_space_rune r = None).
  { apply (drop_space_rune_prefix r suf). by rewrite <-Hsuf. }
  unfold GoStrings.TrimLeft_space at 1. rewrite trim_with_fixed by done.
  unfold GoStrings.TrimRight_space at 1. unfold r at 2 3, GoStrings.TrimRight_space.
  rewrite rev_string_involutive, trim_with_fixed; [done|].
  apply trim_with_done; [apply drop_space_rune_rev_suffix|].
  by rewrite string_length_rev_string.
Qed.

(** X6. A title has one form: white space of the class [\s] occurs in
    it as single spaces only (no tab, no line break, no two spaces in a
    row), trimming it again changes nothing, and making a title of a
    title gives the same title. *)
Theorem title_text_normal (data : string) :
  single_spaced false (title_text data) = true /\
  GoStrings.TrimSpace (title_text data) = title_text data /\
  title_text (title_text data) = title_text data.
Proof.
  assert (Hs : single_spaced false (title_text data) = true).
  { unfold title_text, GoStrings.TrimSpace.
    pose proof (multispaceRE_replace_single_spaced data false) as H.
    destruct (TrimLeft_space_suffix (multispaceRE_replace false data)) as [pre Hpre].
    rewrite Hpre in H. apply single_spaced_suffix in H.
    destruct (TrimRight_space_prefix
                (GoStrings.TrimLeft_space (multispaceRE_replace false data)))
      as [suf Hsuf].
    rewrite Hsuf in H. by apply single_spaced_prefix in H. }
  assert (Ht : GoStrings.TrimSpace (title_text data) = title_text data).
  { unfold title_text. apply TrimSpace_idempotent. }
  repeat split; [done..|].
  unfold title_text at 1. by rewrite multispaceRE_replace_fixed.
Qed.

(** ** More invariants of the runs *)

Section ReturnFacts.

Context (url_Parse : string -> result URL) (URL_String : URL -> string).
Context (http_get : string -> option string -> Z -> option error -> result string).
Context (NewDocumentFromReader : string -> result Document).
Context (w : Web) (c : RecursiveConfig.t).

#[local] Abbreviation stepr :=
  (step url_Parse URL_String http_get NewDocumentFromReader w c).

Lemma gerr_inv_step a s s' : stepr a s = Some s' -> gerr_inv s -> gerr_inv s'.
Proof.
  unfold gerr_inv, step. intros Hstep (Hg & HF & Hm).
  destruct (panicked s); [done|].
  destruct a; simpl in Hstep.
  1:{ destruct (pool s !! i) as [ws|] eqn:Hws; [|done].
    pose proof (Forall_lookup_1 _ _ _ _ HF Hws) as Hi.
    destruct ws; simpl in Hstep;
      unfold progress_step, errors_As_Canceled, page, get, send, log, doDone in Hstep;
      simpl in Hstep; repeat case_match; simplify_eq; simpl in *.
    all: split; [try done|split; [apply Forall_insert; simpl; try done|try done]].
    all: try (intros e' [= <-]; done).
    all: try match goal with H : ctx_err _ = _ |- _ => rewrite ?H end.
    all: try done; try (intros e' He'; first [apply Hg; congruence|congruence]). }
  5:{ destruct (ctx_err s) eqn:Hc; [done|]. injection Hstep as <-. simpl.
      split; [|split].
      - intros e' He'. by specialize (Hg _ He').
      - eapply Forall_impl; [exact HF|]. by intros [].
      - destruct (main s) as [| |[]|[]]; done. }
  all: unfold main_step, main_timeout, progress_step, errors_As_Canceled, send, log in Hstep;
    simpl in Hstep; repeat case_match; simplify_eq; simpl; try done.
  all: repeat split; try done.
  all: match goal with |- context [gerr ?s] => destruct (gerr s) eqn:?; auto end.
Qed.

(** A step of a worker leaves [Recurse] where it is and adds to the
    trace. *)
Lemma worker_step_frame ws s ws' s' :
  worker_step url_Parse URL_String http_get NewDocumentFromReader c ws s = Some (ws', s') ->
  main s' = main s /\ exists evs, trace s' = (evs ++ trace s)%list.
Proof.
  destruct ws; simpl;
    unfold progress_step, errors_As_Canceled, page, get, send, log, doDone;
    simpl; intros Hstep; repeat case_match; simplify_eq; simpl.
  all: split; [done|].
  all: first [by exists []|by eexists [_]|by eexists [_; _]].
Qed.

Lemma final_report_inv_step a s s' :
  RecursiveConfig.Progress c = true ->
  stepr a s = Some s' -> final_report_inv s -> final_report_inv s'.
Proof.
  unfold final_report_inv, step. intros Hsink Hstep Hm.
  destruct (panicked s); [done|].
  destruct a; simpl in Hstep.
  1:{ destruct (pool s !! i) as [ws|] eqn:Hws; [|done].
    destruct (worker_step _ _ _ _ _ ws s) as [[ws' s1]|] eqn:Hw; [|done].
    injection Hstep as <-. apply worker_step_frame in Hw as [Hmain [evs Htr]].
    simpl. rewrite Hmain, Htr, existsb_app.
    destruct (main s) as [| |? []|]; try done; by rewrite Hm, orb_true_r. }
  all: destruct (main s) as [urls|cnt|ret pc|ret] eqn:Hmain.
  all: unfold main_step, main_timeout, progress_step, errors_As_Canceled, send, log in Hstep;
    simpl in Hstep; rewrite ?Hsink in Hstep;
    repeat case_match; simplify_eq; simpl in *; rewrite ?Hmain; try done.
  all: try congruence.
  all: rewrite ?Hm, ?orb_true_r; done.
Qed.

Lemma final_panic_inv_step a s s' :
  RecursiveConfig.Progress c = false ->
  stepr a s = Some s' -> final_panic_inv s -> final_panic_inv s'.
Proof.
  unfold final_panic_inv, step. intros Hsink Hstep Hm.
  destruct (panicked s) eqn:Hp; [done|].
  assert (Hbefore : match main s with
                    | MReturn _ PStamp | MDone _ => False
                    | _ => True
                    end).
  { by destruct (main s) as [| |? []|]. }
  clear Hm. destruct a; simpl in Hstep.
  1:{ destruct (pool s !! i) as [ws|] eqn:Hws; [|done].
    destruct (worker_step _ _ _ _ _ ws s) as [[ws' s1]|] eqn:Hw; [|done].
    injection Hstep as <-. apply worker_step_frame in Hw as [Hmain _].
    simpl. rewrite Hmain. by destruct (main s) as [| |? []|]. }
  all: destruct (main s) as [urls|cnt|ret pc|ret] eqn:Hmain.
  all: unfold main_step, main_timeout, progress_step, errors_As_Canceled, send, log in Hstep;
    simpl in Hstep; rewrite ?Hsink in Hstep;
    repeat case_match; simplify_eq; simpl in *; rewrite ?Hmain; try done.
  all: try congruence.
  all: rewrite ?Hm, ?orb_true_r; done.
Qed.

End ReturnFacts.

(** X7. The error that [Recurse] returns, once the seeds have been
    parsed, is [nil] or the error of the context: in every state of
    every run, an error in [gerr] and an error returned are the value of
    [ctx.Err()].  That value need not be a cancellation or a deadline:
    a context reports what its implementation gives it, which for
    [context.WithCancel] is what [context.Canceled] holds by then. *)
Theorem Recurse_returns_context_error
    (url_Parse : string -> result URL) (URL_String : URL -> string)
    (http_get : string -> option string -> Z -> option error -> result string)
    (NewDocumentFromReader : string -> result Document)
    (w : Web) (c : RecursiveConfig.t)
    (ctx0 : option error) (t0 : Z) (s0 s : state) :
  Recurse_init url_Parse w c ctx0 t0 = Ok s0 ->
  reachable url_Parse URL_String http_get NewDocumentFromReader w c s0 s ->
  (forall e, gerr s = Some e -> ctx_err s = Some e) /\
  (forall e, returned s = Some (Some e) -> ctx_err s = Some e).
Proof.
  intros Hinit Hr.
  assert (Hinv : gerr_inv s).
  { eapply reachable_inv; eauto using gerr_inv_step.
    destruct (init_state _ _ _ _ _ _ Hinit) as (urls & Hp & ->).
    split; [done|]. split; [by apply Forall_replicate|done]. }
  destruct Hinv as (Hg & _ & Hm). split; [exact Hg|].
  unfold returned. intros e He. destruct (main s) as [| | |[]]; simplify_eq. exact Hm.
Qed.

Lemma Cancelled_run :
  Cancelled.init = Ok Cancelled.start /\
  run_actions Cancelled.step Cancelled.schedule Cancelled.start = Some Cancelled.at_end.
Proof. split; vm_compute; reflexivity. Qed.

Lemma Recurse_returns_context_error_witness :
  Cancelled.init = Ok Cancelled.start /\
  reachable GoURL.Parse GoURL.String Offline.http_get Offline.NewDocumentFromReader
            Offline.web Offline.conf Cancelled.start Cancelled.at_end /\
  returned Cancelled.at_end = Some (Some Canceled) /\
  (forall e, gerr Cancelled.at_end = Some e -> ctx_err Cancelled.at_end = Some e) /\
  (forall e, returned Cancelled.at_end = Some (Some e) ->
             ctx_err Cancelled.at_end = Some e).
Proof.
  assert (Hr : reachable GoURL.Parse GoURL.String Offline.http_get
                 Offline.NewDocumentFromReader Offline.web Offline.conf
                 Cancelled.start Cancelled.at_end).
  { eapply run_actions_reachable; [apply Forall_True|exact (proj2 Cancelled_run)]. }
  split; [exact (proj1 Cancelled_run)|]. split; [exact Hr|]. split; [reflexivity|].
  exact (Recurse_returns_context_error _ _ _ _ _ _ _ _ _ _ (proj1 Cancelled_run) Hr).
Defined.

(** X8. When [Recurse] has returned (the seeds having been parsed and
    [c.Progress] not being [nil]), it has called [c.Progress] with a
    [nil] error: the deferred call [progress(nil, true)] reports
    whatever [ProgressInterval] is and however short the run was. *)
Theorem Recurse_reports_before_returning
    (url_Parse : string -> result URL) (URL_String : URL -> string)
    (http_get : string -> option string -> Z -> option error -> result string)
    (NewDocumentFromReader : string -> result Document)
    (w : Web) (c : RecursiveConfig.t)
    (ctx0 : option error) (t0 : Z) (s0 s : state) (ret : option error) :
  RecursiveConfig.Progress c = true ->
  Recurse_init url_Parse w c ctx0 t0 = Ok s0 ->
  reachable url_Parse URL_String http_get NewDocumentFromReader w c s0 s ->
  returned s = Some ret ->
  exists current total, EvProgress None current total ∈ trace s.
Proof.
  intros Hsink Hinit Hr Hret.
  assert (Hinv : final_report_inv s).
  { eapply reachable_inv; eauto using final_report_inv_step.
    by destruct (init_state _ _ _ _ _ _ Hinit) as (urls & Hp & ->). }
  unfold final_report_inv, returned in *. destruct (main s); simplify_eq.
  apply existsb_exists in Hinv as ([] & Hin & He); try done.
  destruct err; [done|]. apply list_elem_of_In in Hin. eauto.
Qed.

Lemma Recurse_reports_before_returning_witness :
  RecursiveConfig.Progress Offline.conf = true /\
  Cancelled.init = Ok Cancelled.start /\
  reachable GoURL.Parse GoURL.String Offline.http_get Offline.NewDocumentFromReader
            Offline.web Offline.conf Cancelled.start Cancelled.at_end /\
  returned Cancelled.at_end = Some (Some Canceled) /\
  exists current total, EvProgress None current total ∈ trace Cancelled.at_end.
Proof.
  assert (Hr : reachable GoURL.Parse GoURL.String Offline.http_get
                 Offline.NewDocumentFromReader Offline.web Offline.conf
                 Cancelled.start Cancelled.at_end).
  { eapply run_actions_reachable; [apply Forall_True|exact (proj2 Cancelled_run)]. }
  split; [reflexivity|].
  split; [exact (proj1 Cancelled_run)|]. split; [exact Hr|]. split; [reflexivity|].
  exact (Recurse_reports_before_returning
           GoURL.Parse GoURL.String Offline.http_get Offline.NewDocumentFromReader
           Offline.web Offline.conf (Some Canceled) 0 _ _ _ eq_refl
           (proj1 Cancelled_run) Hr eq_refl).
Defined.

(** X9. Without a progress sink [Recurse] does not return normally:
    when its goroutine has come to its end, the run has panicked, the
    deferred call [progress(nil, true)] having called [c.Progress],
    which is [nil]. *)
Theorem Recurse_needs_Progress
    (url_Parse : string -> result URL) (URL_String : URL -> string)
    (http_get : string -> option string -> Z -> option error -> result string)
    (NewDocumentFromReader : string -> result Document)
    (w : Web) (c : RecursiveConfig.t)
    (ctx0 : option error) (t0 : Z) (s0 s : state) :
  RecursiveConfig.Progress c = false ->
  Recurse_init url_Parse w c ctx0 t0 = Ok s0 ->
  reachable url_Parse URL_String http_get NewDocumentFromReader w c s0 s ->
  forall ret, returned s = Some ret -> panicked s = true.
Proof.
  intros Hnil Hinit Hr.
  assert (Hinv : final_panic_inv s).
  { eapply reachable_inv; eauto using final_panic_inv_step.
    by destruct (init_state _ _ _ _ _ _ Hinit) as (urls & Hp & ->). }
  unfold returned, final_panic_inv in *. intros ret Hret.
  by destruct (main s) as [| |? []|].
Qed.

Lemma NoProgress_run :
  NoProgress.init = Ok NoProgress.start /\
  run_actions NoProgress.step NoProgress.schedule NoProgress.start
  = Some NoProgress.at_end.
Proof. split; vm_compute; reflexivity. Qed.

Lemma Recurse_needs_Progress_witness :
  RecursiveConfig.Progress NoProgress.conf = false /\
  NoProgress.init = Ok NoProgress.start /\
  reachable GoURL.Parse GoURL.String Offline.http_get Offline.NewDocumentFromReader
            Offline.web NoProgress.conf NoProgress.start NoProgress.at_end /\
  returned NoProgress.at_end = Some None /\
  panicked NoProgress.at_end = true.
Proof.
  assert (Hr : reachable GoURL.Parse GoURL.String Offline.http_get
                 Offline.NewDocumentFromReader Offline.web NoProgress.conf
                 NoProgress.start NoProgress.at_end).
  { eapply run_actions_reachable; [apply Forall_True|exact (proj2 NoProgress_run)]. }
  split; [reflexivity|]. split; [exact (proj1 NoProgress_run)|].
  split; [exact Hr|]. split; [reflexivity|].
  exact (Recurse_needs_Progress
           GoURL.Parse GoURL.String Offline.http_get Offline.NewDocumentFromReader
           Offline.web NoProgress.conf None 0 _ _ eq_refl (proj1 NoProgress_run) Hr
           None eq_refl).
Defined.

Lemma Gallery_run :
  Gallery.init = Ok Gallery.start /\
  run_actions Gallery.step Gallery.schedule Gallery.start = Some Gallery.at_end.
Proof. split; vm_compute; reflexivity. Qed.

Lemma Gallery_reachable :
  reachable GoURL.Parse GoURL.String Gallery.http_get Gallery.NewDocumentFromReader
            Gallery.web Gallery.conf Gallery.start Gallery.at_end.
Proof.
  eapply run_actions_reachable; [apply Forall_True|exact (proj2 Gallery_run)].
Qed.

(** ** The referer of a request *)

Lemma ref_ok_mono URL_String G x t :
  ref_ok URL_String G t -> ref_ok URL_String (x :: G) t.
Proof. unfold ref_ok. destruct (PageInfo.Ref _); [|done]. by apply list_elem_of_further. Qed.

Lemma w_ref_ok_mono URL_String G x ws :
  w_ref_ok URL_String G ws -> w_ref_ok URL_String (x :: G) ws.
Proof.
  destruct ws; simpl; try done; try apply ref_ok_mono; by apply list_elem_of_further.
Qed.

Lemma extract_PageInfo url_Parse URL_String doc pi sel p :
  extract url_Parse URL_String doc pi sel = Some p ->
  exists title, Page.PageInfo p = PageInfo.set_Title pi title.
Proof.
  unfold extract. intros H. repeat case_match; simplify_eq. simpl. eauto.
Qed.

Lemma spawned_ref_ok URL_String G c u p :
  URL_String (PageInfo.URL (Page.PageInfo p)) ∈ G ->
  Forall (ref_ok URL_String G) (spawned c u p).
Proof.
  intros Hp. unfold spawned. apply Forall_app. split.
  - generalize (List.length (Page.Downloads p)) 0%nat.
    induction (Page.Downloads p) as [|su l IH]; intros n i; simpl; constructor; auto.
  - generalize (List.length (Page.Links p)) 0%nat.
    induction (Page.Links p) as [|su l IH]; intros n i; simpl; constructor; auto.
Qed.

Section RefererFacts.

Context (url_Parse : string -> result URL) (URL_String : URL -> string).
Context (http_get : string -> option string -> Z -> option error -> result string).
Context (NewDocumentFromReader : string -> result Document).
Context (w : Web) (c : RecursiveConfig.t).

#[local] Abbreviation stepg :=
  (step url_Parse URL_String http_get NewDocumentFromReader w c).

Lemma referer_inv_step a s s' :
  stepg a s = Some s' -> referer_inv URL_String s -> referer_inv URL_String s'.
Proof.
  unfold referer_inv, step. intros Hstep (Hch & Hfe & Hpool & Htr).
  destruct (panicked s); [done|].
  destruct a; simpl in Hstep.
  1:{ destruct (pool s !! i) as [ws|] eqn:Hws; [|done].
    pose proof (Forall_lookup_1 _ _ _ _ Hpool Hws) as Hi.
    destruct ws; simpl in Hstep, Hi.
    all: try (unfold progress_step, errors_As_Canceled, log, doDone in Hstep;
      simpl in Hstep; repeat case_match; simplify_eq; simpl;
      repeat split; try done; try (apply Forall_insert; simpl; done); fail).
    - (* WRecv *)
      destruct (ch s) as [|u rest] eqn:Hc; [done|]. injection Hstep as <-. simpl.
      apply Forall_cons in Hch as [Hu Hrest].
      repeat split; try done. by apply Forall_insert.
    - (* WDownload *)
      unfold get, log in Hstep. simpl in Hstep.
      assert (Hr : referers_known
                (EvGet (URL_String (PageInfo.URL (pageTask.PageInfo u)))
                       (referer URL_String (pageTask.PageInfo u)) :: trace s)).
      { unfold referer, ref_ok in *. simpl.
        destruct (PageInfo.Ref (pageTask.PageInfo u)); simpl; auto. }
      repeat case_match; simplify_eq; simpl.
      all: repeat split; try done.
      all: try (eapply Forall_impl; [eassumption|]; intros; by apply ref_ok_mono).
      all: try (eapply Forall_impl; [eassumption|]; intros ? HF;
                eapply Forall_impl; [exact HF|]; intros; by apply ref_ok_mono).
      all: apply Forall_insert; simpl; try done.
      all: eapply Forall_impl; [eassumption|]; intros; by apply w_ref_ok_mono.
    - (* WPage *)
      unfold page, get, log in Hstep. simpl in Hstep.
      assert (Hr : referers_known
                (EvGet (URL_String (PageInfo.URL (pageTask.PageInfo u)))
                       (referer URL_String (pageTask.PageInfo u)) :: trace s)).
      { unfold referer, ref_ok in *. simpl.
        destruct (PageInfo.Ref (pageTask.PageInfo u)); simpl; auto. }
      repeat case_match; simplify_eq; simpl.
      all: repeat split; try done.
      all: try (eapply Forall_impl; [eassumption|]; intros; by apply ref_ok_mono).
      all: try (eapply Forall_impl; [eassumption|]; intros ? HF;
                eapply Forall_impl; [exact HF|]; intros; by apply ref_ok_mono).
      all: apply Forall_insert; simpl; try done.
      all: try (eapply Forall_impl; [eassumption|]; intros; by apply w_ref_ok_mono).
      match goal with
      | H : extract _ _ _ _ _ = Some _ |- _ =>
          apply extract_PageInfo in H as [title ->]
      end.
      simpl. apply list_elem_of_here.
    - (* WSpawn *)
      injection Hstep as <-. simpl. repeat split; try done.
      + apply Forall_app. split; [done|]. constructor; [|done].
        by apply spawned_ref_ok.
      + by apply Forall_insert. }
  - (* AFeeder *)
    destruct (feeders s !! j) as [[|t rest]|] eqn:Hj; try done.
    unfold send in Hstep.
    destruct (List.length (ch s) <? workers w)%nat; [|done].
    injection Hstep as <-. simpl.
    pose proof (Forall_lookup_1 _ _ _ _ Hfe Hj) as [Ht Hrest]%Forall_cons.
    repeat split; try done.
    + apply Forall_app. split; [done|]. by constructor.
    + by apply Forall_insert.
  - (* AMain *)
    unfold main_step, progress_step, errors_As_Canceled, send, log in Hstep.
    simpl in Hstep; repeat case_match; simplify_eq; simpl; repeat split; try done.
    apply Forall_app. split; [done|]. by constructor.
  - unfold main_timeout in Hstep. repeat case_match; simplify_eq; done.
  - by case_match; simplify_eq.
  - by case_match; simplify_eq.
Qed.

End RefererFacts.

(** X10. In every state of every run, each request that was sent with a
    referer names the URL of a page that had been requested earlier in
    the run. *)
Theorem referers_were_requested
    (url_Parse : string -> result URL) (URL_String : URL -> string)
    (http_get : string -> option string -> Z -> option error -> result string)
    (NewDocumentFromReader : string -> result Document)
    (w : Web) (c : RecursiveConfig.t)
    (ctx0 : option error) (t0 : Z) (s0 s : state) :
  Recurse_init url_Parse w c ctx0 t0 = Ok s0 ->
  reachable url_Parse URL_String http_get NewDocumentFromReader w c s0 s ->
  referers_known (trace s).
Proof.
  intros Hinit Hr.
  assert (Hinv : referer_inv URL_String s).
  { eapply reachable_inv; eauto using referer_inv_step.
    destruct (init_state _ _ _ _ _ _ Hinit) as (urls & Hp & ->).
    repeat split; simpl; try done. by apply Forall_replicate. }
  apply Hinv.
Qed.

Lemma referers_were_requested_witness :
  Gallery.init = Ok Gallery.start /\
  reachable GoURL.Parse GoURL.String Gallery.http_get Gallery.NewDocumentFromReader
            Gallery.web Gallery.conf Gallery.start Gallery.at_end /\
  gets (trace Gallery.at_end)
  = ["https://a.com/b"; "https://a.com/i.png"; "https://a.com/"] /\
  referers_known (trace Gallery.at_end).
Proof.
  split; [exact (proj1 Gallery_run)|]. split; [exact Gallery_reachable|].
  split; [reflexivity|].
  exact (referers_were_requested
           GoURL.Parse GoURL.String Gallery.http_get Gallery.NewDocumentFromReader
           Gallery.web Gallery.conf None 0 _ _ (proj1 Gallery_run) Gallery_reachable).
Defined.

(** ** What the callbacks are given *)

Lemma from_page_mono c tr e pi : from_page c tr pi -> from_page c (e :: tr) pi.
Proof. intros (p & Hp & Hf). exists p. split; [by apply list_elem_of_further|done]. Qed.

Lemma task_shape_mono c tr e t : task_shape c tr t -> task_shape c (e :: tr) t.
Proof. intros [H1 H2]. split; [done|]. intros Hd. by apply from_page_mono, H2. Qed.

Lemma Forall_task_shape_mono c tr e l :
  Forall (task_shape c tr) l -> Forall (task_shape c (e :: tr)) l.
Proof. intros H. eapply Forall_impl; [exact H|]. intros. by apply task_shape_mono. Qed.

Lemma feeders_shape_mono c tr e ll :
  Forall (Forall (task_shape c tr)) ll -> Forall (Forall (task_shape c (e :: tr))) ll.
Proof.
  intros H. eapply Forall_impl; [exact H|]. intros. by apply Forall_task_shape_mono.
Qed.

Lemma w_shape_mono URL_String c tr e ws :
  w_shape URL_String c tr ws -> w_shape URL_String c (e :: tr) ws.
Proof.
  unfold w_shape. intros [H1 H2]. split.
  - destruct (w_task ws); [by apply task_shape_mono|done].
  - destruct ws; simpl in *; try done.
    all: repeat split; try apply list_elem_of_further; tauto.
Qed.

Lemma Forall_w_shape_mono URL_String c tr e l :
  Forall (w_shape URL_String c tr) l -> Forall (w_shape URL_String c (e :: tr)) l.
Proof. intros H. eapply Forall_impl; [exact H|]. intros. by apply w_shape_mono. Qed.

(** The tasks that the goroutine of line 180 sends for the page [p],
    which [page] has returned. *)
Lemma spawned_task_shape c tr u p :
  PageInfo.Title (pageTask.PageInfo u) = "" -> EvExtracted p ∈ tr ->
  Forall (task_shape c tr) (spawned c u p).
Proof.
  intros Hu Hp. unfold spawned. apply Forall_app. split.
  - apply Forall_lookup_2. intros j t Hj.
    rewrite download_tasks_lookup in Hj.
    destruct (Page.Downloads p !! j) as [su|] eqn:Hsu; [|done].
    injection Hj as <-. split; [done|]. intros _. exists p. split; [done|].
    split; [done|]. exists j. split; [done|]. simpl. by destruct (RecursiveConfig.ReverseDownloads c).
  - apply Forall_lookup_2. intros j t Hj.
    rewrite link_tasks_lookup in Hj.
    destruct (Page.Links p !! j) as [su|] eqn:Hsu; [|done].
    injection Hj as <-. split; [done|discriminate].
Qed.

Section CallbackFacts.

Context (url_Parse : string -> result URL) (URL_String : URL -> string).
Context (http_get : string -> option string -> Z -> option error -> result string).
Context (NewDocumentFromReader : string -> result Document).
Context (w : Web) (c : RecursiveConfig.t).

#[local] Abbreviation stepk :=
  (step url_Parse URL_String http_get NewDocumentFromReader w c).

Ltac mono :=
  first
    [ assumption
    | repeat apply Forall_task_shape_mono; assumption
    | repeat apply feeders_shape_mono; assumption
    | repeat apply Forall_w_shape_mono; assumption
    | repeat apply from_page_mono; assumption
    | repeat apply task_shape_mono; assumption ].

Ltac close_pool Hpool :=
  apply Forall_insert;
  [repeat apply Forall_w_shape_mono; exact Hpool|].

Ltac close_shape :=
  repeat match goal with H : task_shape _ _ _ |- _ => destruct H end;
  repeat split; simpl; auto;
  first [done|mono|apply list_elem_of_here|apply list_elem_of_further; assumption
        |intros; repeat apply from_page_mono; auto; congruence|eauto].

Ltac split_inv := split; [|split; [|split; [|split]]].

Lemma callback_inv_step a s s' :
  stepk a s = Some s' -> callback_inv URL_String c s -> callback_inv URL_String c s'.
Proof.
  unfold callback_inv, step. intros Hstep (Hch & Hfe & Hpool & Hdl & Hpr).
  destruct (panicked s); [done|].
  destruct a; simpl in Hstep.
  1:{ destruct (pool s !! i) as [ws|] eqn:Hws; [|done].
    pose proof (Forall_lookup_1 _ _ _ _ Hpool Hws) as [Hi1 Hi2].
    destruct ws; simpl in Hstep, Hi1, Hi2.
    all: try (unfold progress_step, errors_As_Canceled, log, doDone in Hstep;
      simpl in Hstep; repeat case_match; simplify_eq; simpl;
      split_inv; try done; try mono; close_pool Hpool; split; simpl; first [done|mono]).
    - (* WRecv *)
      destruct (ch s) as [|u rest] eqn:Hc; [done|]. injection Hstep as <-. simpl.
      apply Forall_cons in Hch as [Hu Hrest].
      split_inv; try done. close_pool Hpool. split; simpl; done.
    - (* WWork *)
      unfold log in Hstep. destruct Hi1 as [Ht Hr].
      repeat case_match; simplify_eq; simpl.
      all: split_inv; try done; try mono.
      all: try (close_pool Hpool; close_shape).
      all: repeat split; auto; congruence.
    - (* WDownload *)
      unfold get, log in Hstep. simpl in Hstep. destruct Hi2 as [Hd Hin].
      repeat case_match; simplify_eq; simpl.
      all: split_inv; try done; try mono.
      all: close_pool Hpool; close_shape.
    - (* WCallback *)
      unfold log in Hstep. destruct Hi1 as [Ht Hr]. destruct Hi2 as (Hd & Hin & Hget).
      repeat case_match; simplify_eq; simpl.
      all: split_inv; try done; try mono.
      all: try (close_pool Hpool; close_shape).
      all: repeat split; auto.
    - (* WPage *)
      unfold page, get, log in Hstep. simpl in Hstep.
      repeat case_match; simplify_eq; simpl.
      all: split_inv; try done; try mono.
      all: close_pool Hpool; close_shape.
    - (* WPrint *)
      unfold log in Hstep. repeat case_match; simplify_eq; simpl.
      all: split_inv; try done; try mono.
      all: try (close_pool Hpool; split; simpl; first [done|mono|by apply list_elem_of_further]).
      all: repeat split; try done.
      all: try match goal with
           | H : _ && _ = true |- _ => apply andb_true_iff in H as [? ?]
           end.
      all: try (intros Hnil; rewrite Hnil in *; done).
      all: eauto.
    - (* WSpawn *)
      injection Hstep as <-. simpl. split_inv; try done.
      + apply Forall_app. split; [done|]. constructor; [|done].
        apply spawned_task_shape; [by destruct Hi1|done].
      + close_pool Hpool. split; simpl; done. }
  - (* AFeeder *)
    destruct (feeders s !! j) as [[|t rest]|] eqn:Hj; try done.
    unfold send in Hstep.
    destruct (List.length (ch s) <? workers w)%nat; [|done].
    injection Hstep as <-. simpl.
    pose proof (Forall_lookup_1 _ _ _ _ Hfe Hj) as [Ht Hrest]%Forall_cons.
    split_inv; try done.
    + apply Forall_app. split; [done|]. by constructor.
    + by apply Forall_insert.
  - (* AMain *)
    unfold main_step, progress_step, errors_As_Canceled, send, log in Hstep.
    simpl in Hstep; repeat case_match; simplify_eq; simpl; split_inv; try done; try mono.
    apply Forall_app. split; [done|]. constructor; [|done]. split; simpl; [done|discriminate].
  - unfold main_timeout in Hstep. repeat case_match; simplify_eq; done.
  - by case_match; simplify_eq.
  - by case_match; simplify_eq.
Qed.

Lemma callback_inv_reachable ctx0 t0 s0 s :
  Recurse_init url_Parse w c ctx0 t0 = Ok s0 ->
  reachable url_Parse URL_String http_get NewDocumentFromReader w c s0 s ->
  callback_inv URL_String c s.
Proof.
  intros Hinit Hr. eapply reachable_inv; eauto using callback_inv_step.
  destruct (init_state _ _ _ _ _ _ Hinit) as (urls & Hp & ->).
  repeat split; simpl; try done. by apply Forall_replicate.
Qed.

End CallbackFacts.

(** X11. In every state of every run, each call of the predicate
    [c.Download] and of [c.DownloadCallback] was given a task whose own
    title is empty and that was found on a page that [page] had
    returned before: the task refers to the information of that page,
    its URL is one of the downloads of the page, and its index is the
    position of that download, counted from the end when
    [c.ReverseDownloads] is set.  Each call of the callback was for a
    task that the predicate had accepted and whose URL had been
    requested, with the URL of that page as referer. *)
Theorem download_calls_justified
    (url_Parse : string -> result URL) (URL_String : URL -> string)
    (http_get : string -> option string -> Z -> option error -> result string)
    (NewDocumentFromReader : string -> result Document)
    (w : Web) (c : RecursiveConfig.t)
    (ctx0 : option error) (t0 : Z) (s0 s : state) :
  Recurse_init url_Parse w c ctx0 t0 = Ok s0 ->
  reachable url_Parse URL_String http_get NewDocumentFromReader w c s0 s ->
  downloads_ok URL_String c (trace s).
Proof. intros Hinit Hr. by eapply callback_inv_reachable. Qed.

Lemma download_calls_justified_witness :
  Gallery.init = Ok Gallery.start /\
  reachable GoURL.Parse GoURL.String Gallery.http_get Gallery.NewDocumentFromReader
            Gallery.web Gallery.conf Gallery.start Gallery.at_end /\
  List.length (List.filter is_callback_event (trace Gallery.at_end)) = 1%nat /\
  downloads_ok GoURL.String Gallery.conf (trace Gallery.at_end).
Proof.
  split; [exact (proj1 Gallery_run)|]. split; [exact Gallery_reachable|].
  split; [reflexivity|].
  exact (download_calls_justified
           GoURL.Parse GoURL.String Gallery.http_get Gallery.NewDocumentFromReader
           Gallery.web Gallery.conf None 0 _ _ (proj1 Gallery_run) Gallery_reachable).
Defined.

(** X12. In every state of every run, each call of [c.PrintCallback] was
    made with the callback set, and was given the page information and
    the rows of a page that [page] had returned, the rows being at least
    one: a page without a print is not announced. *)
Theorem print_calls_justified
    (url_Parse : string -> result URL) (URL_String : URL -> string)
    (http_get : string -> option string -> Z -> option error -> result string)
    (NewDocumentFromReader : string -> result Document)
    (w : Web) (c : RecursiveConfig.t)
    (ctx0 : option error) (t0 : Z) (s0 s : state) :
  Recurse_init url_Parse w c ctx0 t0 = Ok s0 ->
  reachable url_Parse URL_String http_get NewDocumentFromReader w c s0 s ->
  prints_ok c (trace s).
Proof. intros Hinit Hr. by eapply callback_inv_reachable. Qed.

Lemma print_calls_justified_witness :
  Gallery.init = Ok Gallery.start /\
  reachable GoURL.Parse GoURL.String Gallery.http_get Gallery.NewDocumentFromReader
            Gallery.web Gallery.conf Gallery.start Gallery.at_end /\
  prints_ok Gallery.conf (trace Gallery.at_end).
Proof.
  split; [exact (proj1 Gallery_run)|]. split; [exact Gallery_reachable|].
  exact (print_calls_justified
           GoURL.Parse GoURL.String Gallery.http_get Gallery.NewDocumentFromReader
           Gallery.web Gallery.conf None 0 _ _ (proj1 Gallery_run) Gallery_reachable).
Defined.

(** ** One call of the predicate and of the callback for a URL *)

Lemma key_count_elem f x tr : x ∈ omap f tr -> (1 <= key_count f x tr)%nat.
Proof.
  induction tr as [|e tr IH]; simpl; [by intros ?%elem_of_nil|].
  unfold key_count in *. simpl. destruct (f e) as [y|]; [|by intros ?%IH; lia].
  intros [->|Hin]%elem_of_cons; [rewrite decide_True by done; lia|].
  apply IH in Hin. lia.
Qed.

Lemma key_count_NoDup f tr : (forall x, key_count f x tr <= 1)%nat -> NoDup (omap f tr).
Proof.
  induction tr as [|e tr IH]; intros H; simpl; [constructor|].
  unfold key_count in *. simpl in H. destruct (f e) as [y|] eqn:Hf.
  - constructor.
    + intros Hin%key_count_elem. specialize (H y). unfold key_count in Hin.
      rewrite decide_True in H by done. lia.
    + apply IH. intros x. specialize (H x). lia.
  - apply IH. intros x. specialize (H x). lia.
Qed.

Section OnceFacts.

Context (url_Parse : string -> result URL) (URL_String : URL -> string).
Context (http_get : string -> option string -> Z -> option error -> result string).
Context (NewDocumentFromReader : string -> result Document).
Context (w : Web) (c : RecursiveConfig.t).

#[local] Abbreviation stepo :=
  (step url_Parse URL_String http_get NewDocumentFromReader w c).

Ltac pool_sums :=
  repeat match goal with
  | H : pool ?s !! ?i = Some ?x |- context [sum_list_with ?g (<[?i := ?y]> (pool ?s))] =>
      lazymatch goal with
      | _ : (sum_list_with g (<[i := y]> (pool s)) + g x = _)%nat |- _ => fail
      | _ => pose proof (sum_list_with_insert g (pool s) i x y H)
      end
  end.

Lemma once_inv_step a s s' : stepo a s = Some s' -> once_inv URL_String s -> once_inv URL_String s'.
Proof.
  intros Hstep Hinv x. destruct (Hinv x) as (H1 & H2 & H3 & H4).
  unfold key_count in *. unfold step in Hstep.
  destruct (panicked s); [done|].
  destruct a; simpl in Hstep.
  1:{ destruct (pool s !! i) as [ws|] eqn:Hws; [|done].
    pose proof (sum_list_with_lookup_le (w_before_predicate URL_String x) _ _ _ Hws) as Hle1.
    pose proof (sum_list_with_lookup_le (w_before_callback URL_String x) _ _ _ Hws) as Hle2.
    destruct ws; simpl in Hstep;
      unfold progress_step, errors_As_Canceled, page, get, send, log, doDone, url_key, task_URL in *;
      simpl in Hstep; repeat case_match; simplify_eq.
    all: simpl in *; pool_sums; simpl in *; unfold task_URL in *.
    all: repeat case_decide; simplify_eq.
    all: try match goal with
         | Hn : ?k ∉ done ?s, Hd : (1 <= ?cnt)%nat -> ?k ∈ done ?s,
           Hd' : (1 <= ?cnt')%nat -> ?k ∈ done ?s |- _ =>
             assert (cnt = 0%nat)
               by (destruct (decide (1 <= cnt)%nat); [exfalso; apply Hn, Hd; done|lia]);
             assert (cnt' = 0%nat)
               by (destruct (decide (1 <= cnt')%nat); [exfalso; apply Hn, Hd'; done|lia])
         end.
    all: repeat split; try lia; try (intros; apply H3; lia); try (intros; apply H4; lia);
      try (intros; apply elem_of_union; right; apply H3; lia);
      try (intros; apply elem_of_union; right; apply H4; lia);
      try (intros; set_solver). }
  all: unfold main_step, main_timeout, progress_step, errors_As_Canceled, send, log in Hstep;
    simpl in Hstep; repeat case_match; simplify_eq; simpl; done.
Qed.

End OnceFacts.

(** X13. In every state of every run, the predicate [c.Download] has
    been called at most once for a URL, and so has
    [c.DownloadCallback]: a file that several pages show is offered and
    downloaded once. *)
Theorem download_once
    (url_Parse : string -> result URL) (URL_String : URL -> string)
    (http_get : string -> option string -> Z -> option error -> result string)
    (NewDocumentFromReader : string -> result Document)
    (w : Web) (c : RecursiveConfig.t)
    (ctx0 : option error) (t0 : Z) (s0 s : state) :
  Recurse_init url_Parse w c ctx0 t0 = Ok s0 ->
  reachable url_Parse URL_String http_get NewDocumentFromReader w c s0 s ->
  NoDup (omap (predicate_call URL_String) (trace s)) /\
  NoDup (omap (callback_call URL_String) (trace s)).
Proof.
  intros Hinit Hr.
  assert (Hinv : once_inv URL_String s).
  { eapply reachable_inv; eauto using once_inv_step.
    destruct (init_state _ _ _ _ _ _ Hinit) as (urls & Hp & ->).
    intros x. simpl. unfold key_count. simpl.
    rewrite !sum_list_with_replicate. simpl. repeat split; lia. }
  split; apply key_count_NoDup; intros x; destruct (Hinv x) as (H1 & H2 & _); lia.
Qed.

Lemma download_once_witness :
  Gallery.init = Ok Gallery.start /\
  reachable GoURL.Parse GoURL.String Gallery.http_get Gallery.NewDocumentFromReader
            Gallery.web Gallery.conf Gallery.start Gallery.at_end /\
  omap (callback_call GoURL.String) (trace Gallery.at_end) = ["https://a.com/i.png"] /\
  NoDup (omap (predicate_call GoURL.String) (trace Gallery.at_end)) /\
  NoDup (omap (callback_call GoURL.String) (trace Gallery.at_end)).
Proof.
  split; [exact (proj1 Gallery_run)|]. split; [exact Gallery_reachable|].
  split; [reflexivity|].
  exact (download_once
           GoURL.Parse GoURL.String Gallery.http_get Gallery.NewDocumentFromReader
           Gallery.web Gallery.conf None 0 _ _ (proj1 Gallery_run) Gallery_reachable).
Defined.

(** ** The seeds *)

(** X14. [Recurse] fails before it starts a goroutine exactly when a
    seed does not parse, and then with the error of the first seed that
    does not; otherwise it starts with the parsed seeds in their order,
    [tasks] and [dlTotal] being their number, and with its workers
    waiting. *)
Theorem Recurse_seeds
    (url_Parse : string -> result URL) (w : Web) (c : RecursiveConfig.t)
    (ctx0 : option error) (t0 : Z) :
  (forall e,
     Recurse_init url_Parse w c ctx0 t0 = Err e <->
     exists pre uri post,
       RecursiveConfig.URLs c = (pre ++ uri :: post)%list /\
       Forall (fun x => exists u, url_Parse x = Ok u) pre /\
       url_Parse uri = Err e) /\
  (forall s0,
     Recurse_init url_Parse w c ctx0 t0 = Ok s0 ->
     exists urls,
       Forall2 (fun x u => url_Parse x = Ok u) (RecursiveConfig.URLs c) urls /\
       main s0 = MSeed urls /\
       tasks s0 = uint64_of_nat (List.length (RecursiveConfig.URLs c)) /\
       dlTotal s0 = uint64_of_nat (List.length (RecursiveConfig.URLs c)) /\
       pool s0 = replicate (workers w) WRecv /\
       ch s0 = [] /\ trace s0 = []).
Proof.
  unfold Recurse_init. generalize (RecursiveConfig.URLs c). intros uris.
  assert (Herr : forall e, parse_seeds url_Parse uris = Err e <->
    exists pre uri post, uris = (pre ++ uri :: post)%list /\
      Forall (fun x => exists u, url_Parse x = Ok u) pre /\ url_Parse uri = Err e).
  { intros e. induction uris as [|x uris IH]; simpl.
    - split; [done|]. intros (pre & uri & post & H & _). by destruct pre.
    - destruct (url_Parse x) as [u|e'] eqn:Hx.
      + destruct (parse_seeds url_Parse uris) as [us|e2]; split.
        * done.
        * intros (pre & uri & post & H & Hpre & Huri). exfalso.
          destruct pre as [|y pre]; simplify_eq/=; [congruence|].
          apply Forall_cons in Hpre as [_ Hpre].
          assert (Hf : @Ok (list URL) us = Err e) by (apply IH; by exists pre, uri, post).
          done.
        * intros [= ->].
          destruct (proj1 IH eq_refl) as (pre & uri & post & -> & Hpre & Huri).
          exists (x :: pre), uri, post. repeat split; [|done]. constructor; eauto.
        * intros (pre & uri & post & H & Hpre & Huri).
          destruct pre as [|y pre]; simplify_eq/=; [congruence|].
          apply Forall_cons in Hpre as [_ Hpre]. apply IH. by exists pre, uri, post.
      + split.
        * intros [= ->]. exists [], x, uris. by repeat split.
        * intros (pre & uri & post & H & Hpre & Huri).
          destruct pre as [|y pre]; simplify_eq/=; [congruence|].
          apply Forall_cons in Hpre as [[u Hu] _]. congruence. }
  assert (Hok : forall urls, parse_seeds url_Parse uris = Ok urls ->
    Forall2 (fun x u => url_Parse x = Ok u) uris urls).
  { clear Herr. induction uris as [|x uris IH]; simpl; intros urls H.
    - injection H as <-. constructor.
    - destruct (url_Parse x) as [u|] eqn:Hx; [|done].
      destruct (parse_seeds url_Parse uris) as [us|]; [|done].
      injection H as <-. constructor; auto. }
  split.
  - intros e. rewrite <-Herr.
    destruct (parse_seeds url_Parse uris); split; intros H; by simplify_eq.
  - intros s0 H. destruct (parse_seeds url_Parse uris) as [urls|] eqn:Hp; [|done].
    injection H as <-. exists urls. simpl.
    rewrite (Forall2_length _ _ _ (Hok _ eq_refl)). by repeat split; auto.
Qed.

(** ** The channels *)

Lemma sum_list_with_le_length {A} (g : A -> nat) (l : list A) :
  (forall x, g x <= 1)%nat -> (sum_list_with g l <= List.length l)%nat.
Proof. intros H. induction l as [|x l IH]; simpl; [lia|]. specialize (H x). lia. Qed.

Section ChannelFacts.

Context (url_Parse : string -> result URL) (URL_String : URL -> string).
Context (http_get : string -> option string -> Z -> option error -> result string).
Context (NewDocumentFromReader : string -> result Document).
Context (w : Web) (c : RecursiveConfig.t).

#[local] Abbreviation stepn :=
  (step url_Parse URL_String http_get NewDocumentFromReader w c).

Ltac pool_sums :=
  repeat match goal with
  | H : pool ?s !! ?i = Some ?x |- context [sum_list_with ?g (<[?i := ?y]> (pool ?s))] =>
      lazymatch goal with
      | _ : (sum_list_with g (<[i := y]> (pool s)) + g x = _)%nat |- _ => fail
      | _ => pose proof (sum_list_with_insert g (pool s) i x y H)
      end
  end.

Lemma channel_inv_step a s s' :
  stepn a s = Some s' -> channel_inv (workers w) s -> channel_inv (workers w) s'.
Proof.
  unfold channel_inv, step. intros Hstep (Hch & Hdone & Hlen).
  destruct (panicked s); [done|].
  destruct a; simpl in Hstep.
  1:{ destruct (pool s !! i) as [ws|] eqn:Hws; [|done].
    pose proof (sum_list_with_lookup_le w_exited _ _ _ Hws) as Hle.
    destruct ws; simpl in Hstep;
      unfold progress_step, errors_As_Canceled, page, get, send, log, doDone in Hstep;
      simpl in Hstep; repeat case_match; simplify_eq.
    all: simpl in *; pool_sums; simpl in *; rewrite ?length_insert.
    all: repeat match goal with H : ch _ = _ |- _ => rewrite H in *; clear H end.
    all: simpl in *; repeat split; lia. }
  all: unfold main_step, main_timeout, progress_step, errors_As_Canceled, send, log in Hstep;
    simpl in Hstep; repeat case_match; simplify_eq; simpl in *.
  all: repeat match goal with
       | H : (_ <? _)%nat = true |- _ => apply Nat.ltb_lt in H
       | H : chDone _ = _ |- _ => rewrite H in *; clear H
       end.
  all: rewrite ?length_app; simpl; repeat split; lia.
Qed.

Lemma cancelled_inv_step e n a s s' :
  (1 <= n < workers w)%nat ->
  stepn a s = Some s' ->
  cancelled_inv e n (workers w) s -> cancelled_inv e n (workers w) s'.
Proof.
  unfold step. intros Hn Hstep [Hctx Hpan Htr Hfe Hta Hpool Hlen Hcnt Hm].
  rewrite Hpan in Hstep. unfold m_waiting in Hm.
  assert (Hcnt' : (seeds_left (main s) + List.length (ch s)
                   + sum_list_with w_busy (pool s)
                   + sum_list_with w_exited (pool s) <= n <=
                   seeds_left (main s) + List.length (ch s)
                   + sum_list_with w_busy (pool s)
                   + sum_list_with w_exited (pool s))%nat) by lia.
  clear Hcnt.
  destruct (main s) as [urls|cnt|ret pc|ret] eqn:Hmain; try done.
  all: destruct a; simpl in Hstep; rewrite ?Hmain, ?Hfe, ?Hctx in Hstep; try done.
  all: try (destruct (pool s !! i) as [ws|] eqn:Hws; [|done];
    pose proof (Forall_lookup_1 _ _ _ _ Hpool Hws) as Hi;
    pose proof (sum_list_with_lookup_le w_exited _ _ _ Hws) as Hle1;
    pose proof (sum_list_with_lookup_le w_busy _ _ _ Hws) as Hle2;
    destruct ws; simpl in Hi; try done; simpl in Hstep;
      rewrite ?Hctx in Hstep; repeat case_match; simplify_eq;
    split; unfold m_waiting; simpl in *; rewrite ?Hmain; try done;
      pool_sums; simpl in *; rewrite ?length_insert; try done;
    try (apply Forall_insert; done);
    repeat match goal with H : ch _ = _ |- _ => rewrite H in *; clear H end;
    simpl in *; lia).
  - (* the seeds *)
    unfold main_step, send in Hstep. destruct urls as [|u urls].
    + injection Hstep as <-.
      split; unfold m_waiting; simpl; rewrite ?Hmain; try done; simpl in *; lia.
    + destruct (List.length (ch s) <? workers w)%nat; [|done]. injection Hstep as <-.
      split; unfold m_waiting; simpl; rewrite ?Hmain; try done.
      simpl in *. rewrite length_app. simpl. lia.
  - case_match; [|done]. injection Hstep as <-.
    split; unfold m_waiting; simpl; rewrite ?Hmain; try done; simpl in *; lia.
  - (* a value from [chDone] *)
    unfold main_step in Hstep.
    destruct (chDone s) as [|k] eqn:Hk; [done|]. simpl in Hstep.
    assert ((cnt - 1 =? 0)%Z = false) as Hz by (apply Z.eqb_neq; simpl in *; lia).
    rewrite Hz in Hstep. injection Hstep as <-.
    split; unfold m_waiting; simpl; rewrite ?Hmain; try done; simpl in *; lia.
  - (* the timer *)
    unfold main_timeout in Hstep.
    assert ((tasks s =? 0)%Z = false) as Hz by (apply Z.eqb_neq; lia).
    rewrite Hz in Hstep. injection Hstep as <-.
    split; unfold m_waiting; simpl; rewrite ?Hmain; try done; simpl in *; lia.
  - case_match; [|done]. injection Hstep as <-.
    split; unfold m_waiting; simpl; rewrite ?Hmain; try done; simpl in *; lia.
Qed.

End ChannelFacts.

(** X15. In every state of every run, neither channel holds more values
    than it has room for: [ch] holds at most as many tasks as there are
    workers, and so does [chDone], each worker sending on it once; the
    send that ends a worker does not block. *)
Theorem channels_within_capacity
    (url_Parse : string -> result URL) (URL_String : URL -> string)
    (http_get : string -> option string -> Z -> option error -> result string)
    (NewDocumentFromReader : string -> result Document)
    (w : Web) (c : RecursiveConfig.t)
    (ctx0 : option error) (t0 : Z) (s0 s : state) :
  Recurse_init url_Parse w c ctx0 t0 = Ok s0 ->
  reachable url_Parse URL_String http_get NewDocumentFromReader w c s0 s ->
  (List.length (ch s) <= workers w)%nat /\
  (chDone s <= workers w)%nat /\
  List.length (pool s) = workers w.
Proof.
  intros Hinit Hr.
  assert (Hinv : channel_inv (workers w) s).
  { eapply reachable_inv; eauto using channel_inv_step.
    destruct (init_state _ _ _ _ _ _ Hinit) as (urls & Hp & ->).
    repeat split; simpl; [lia..|apply length_replicate]. }
  destruct Hinv as (H1 & H2 & H3). repeat split; [done| |done].
  assert (H : (sum_list_with w_exited (pool s) <= List.length (pool s))%nat).
  { apply sum_list_with_le_length. intros []; simpl; lia. }
  lia.
Qed.

Lemma channels_within_capacity_witness :
  Cancelled.init = Ok Cancelled.start /\
  reachable GoURL.Parse GoURL.String Offline.http_get Offline.NewDocumentFromReader
            Offline.web Offline.conf Cancelled.start Cancelled.at_end /\
  (List.length (ch Cancelled.at_end) <= workers Offline.web)%nat /\
  (chDone Cancelled.at_end <= workers Offline.web)%nat /\
  List.length (pool Cancelled.at_end) = workers Offline.web.
Proof.
  assert (Hr : reachable GoURL.Parse GoURL.String Offline.http_get
                 Offline.NewDocumentFromReader Offline.web Offline.conf
                 Cancelled.start Cancelled.at_end).
  { eapply run_actions_reachable; [apply Forall_True|exact (proj2 Cancelled_run)]. }
  split; [exact (proj1 Cancelled_run)|]. split; [exact Hr|].
  exact (channels_within_capacity
           GoURL.Parse GoURL.String Offline.http_get Offline.NewDocumentFromReader
           Offline.web Offline.conf (Some Canceled) 0 _ _ (proj1 Cancelled_run) Hr).
Defined.

(** X16. When the context is cancelled before the call and the seeds
    are fewer than the workers (and at least one), [Recurse] does not
    return: no request is made and no report, the workers that take a
    seed leave their loop without reporting it done, so that [tasks]
    stays at the number of the seeds, and the other workers wait for a
    task from a channel that nobody closes. *)
Theorem Recurse_cancelled_before_call_hangs
    (url_Parse : string -> result URL) (URL_String : URL -> string)
    (http_get : string -> option string -> Z -> option error -> result string)
    (NewDocumentFromReader : string -> result Document)
    (w : Web) (c : RecursiveConfig.t)
    (e : error) (t0 : Z) (s0 s : state) :
  Recurse_init url_Parse w c (Some e) t0 = Ok s0 ->
  (1 <= List.length (RecursiveConfig.URLs c) < workers w)%nat ->
  (Z.of_nat (List.length (RecursiveConfig.URLs c)) < 2 ^ 64)%Z ->
  reachable url_Parse URL_String http_get NewDocumentFromReader w c s0 s ->
  returned s = None /\ panicked s = false /\ trace s = [] /\
  tasks s = Z.of_nat (List.length (RecursiveConfig.URLs c)).
Proof.
  intros Hinit Hn Hb Hr.
  assert (Hinv : cancelled_inv e (List.length (RecursiveConfig.URLs c)) (workers w) s).
  { eapply reachable_inv; eauto using cancelled_inv_step.
    destruct (init_state _ _ _ _ _ _ Hinit) as (urls & Hp & ->).
    apply parse_seeds_length in Hp.
    split; unfold m_waiting; simpl; rewrite ?Hp; try done.
    - by apply uint64_of_nat_small.
    - by apply Forall_replicate.
    - apply length_replicate.
    - rewrite !sum_list_with_replicate. simpl. lia.
    - by rewrite sum_list_with_replicate. }
  destruct Hinv as [Hctx Hpan Htr Hfe Hta Hpool Hlen Hcnt Hm].
  repeat split; try done. unfold returned, m_waiting in *.
  by destruct (main s).
Qed.

Lemma Stuck_run :
  Stuck.init = Ok Stuck.start /\
  run_actions Stuck.step Stuck.schedule Stuck.start = Some Stuck.at_end.
Proof. split; vm_compute; reflexivity. Qed.

Lemma Recurse_cancelled_before_call_hangs_witness :
  Stuck.init = Ok Stuck.start /\
  (1 <= List.length (RecursiveConfig.URLs Offline.conf) < workers Stuck.web)%nat /\
  (Z.of_nat (List.length (RecursiveConfig.URLs Offline.conf)) < 2 ^ 64)%Z /\
  reachable GoURL.Parse GoURL.String Offline.http_get Offline.NewDocumentFromReader
            Stuck.web Offline.conf Stuck.start Stuck.at_end /\
  pool Stuck.at_end = [WExit; WRecv] /\
  returned Stuck.at_end = None /\ panicked Stuck.at_end = false /\
  trace Stuck.at_end = [] /\
  tasks Stuck.at_end = Z.of_nat (List.length (RecursiveConfig.URLs Offline.conf)).
Proof.
  assert (Hr : reachable GoURL.Parse GoURL.String Offline.http_get
                 Offline.NewDocumentFromReader Stuck.web Offline.conf
                 Stuck.start Stuck.at_end).
  { eapply run_actions_reachable; [apply Forall_True|exact (proj2 Stuck_run)]. }
  assert (Hn : (1 <= List.length (RecursiveConfig.URLs Offline.conf)
                < workers Stuck.web)%nat) by (vm_compute; lia).
  assert (Hb : (Z.of_nat (List.length (RecursiveConfig.URLs Offline.conf)) < 2 ^ 64)%Z)
    by (vm_compute; reflexivity).
  split; [exact (proj1 Stuck_run)|]. split; [exact Hn|]. split; [exact Hb|].
  split; [exact Hr|]. split; [reflexivity|].
  exact (Recurse_cancelled_before_call_hangs
           GoURL.Parse GoURL.String Offline.http_get Offline.NewDocumentFromReader
           Stuck.web Offline.conf Canceled 0 _ _ (proj1 Stuck_run) Hn Hb Hr).
Defined.

(** X17. In every state of every run, every call of [c.Progress] was
    made with a [nil] error: [progress] returns at its first test
    whenever its error is not [nil], so that no error of a request, of
    the extraction or of a callback is reported. *)
Theorem progress_reports_no_error
    (url_Parse : string -> result URL) (URL_String : URL -> string)
    (http_get : string -> option string -> Z -> option error -> result string)
    (NewDocumentFromReader : string -> result Document)
    (w : Web) (c : RecursiveConfig.t)
    (ctx0 : option error) (t0 : Z) (s0 s : state) :
  Recurse_init url_Parse w c ctx0 t0 = Ok s0 ->
  reachable url_Parse URL_String http_get NewDocumentFromReader w c s0 s ->
  forall err current total, EvProgress err current total ∈ trace s -> err = None.
Proof.
  intros Hinit Hr.
  assert (Hinv : silent_inv s).
  { eapply reachable_inv; eauto using silent_inv_init, silent_inv_step. }
  destruct Hinv as [Hinv _]. intros err current total Hin.
  destruct err as [e|]; [|done]. exfalso.
  assert (Hf : EvProgress (Some e) current total ∈ error_reports (trace s)).
  { unfold error_reports. apply list_elem_of_In, filter_In.
    split; [by apply list_elem_of_In|done]. }
  rewrite Hinv in Hf. by apply elem_of_nil in Hf.
Qed.

Lemma progress_reports_no_error_witness :
  Offline.init = Ok Offline.start /\
  reachable GoURL.Parse GoURL.String Offline.http_get Offline.NewDocumentFromReader
            Offline.web Offline.conf Offline.start Offline.at_end /\
  trace Offline.at_end = [EvProgress None 1 1; EvGet "https://a.com/" None] /\
  forall err current total,
    EvProgress err current total ∈ trace Offline.at_end -> err = None.
Proof.
  assert (Hr : reachable GoURL.Parse GoURL.String Offline.http_get
                 Offline.NewDocumentFromReader Offline.web Offline.conf
                 Offline.start Offline.at_end).
  { eapply run_actions_reachable; [apply Forall_True|exact (proj2 Offline_run)]. }
  split; [exact (proj1 Offline_run)|]. split; [exact Hr|]. split; [reflexivity|].
  exact (progress_reports_no_error
           GoURL.Parse GoURL.String Offline.http_get Offline.NewDocumentFromReader
           Offline.web Offline.conf None 0 _ _ (proj1 Offline_run) Hr).
Defined.

(** ** The command [webdl]: file names *)

Lemma substring_app_skip (p t : string) k n :
  String.substring (String.length p + k) n (p ++ t) = String.substring k n t.
Proof. induction p as [|c p IH]; [done|]. rewrite string_app_cons. simpl. exact IH. Qed.

Lemma cleanup_keeps_webdl_tmp (p : string) : cleanup_removes (p ++ ".webdl.tmp") = false.
Proof.
  unfold cleanup_removes, strings_HasSuffix. rewrite string_length_app.
  replace (String.length p + String.length ".webdl.tmp" - String.length ".webl.tmp")%nat
    with (String.length p + 1)%nat by (simpl; lia).
  rewrite substring_app_skip. apply andb_false_r.
Qed.

(** X18. [cleanup] removes none of the temporary files that
    [DownloadCallback] makes: their names end in [.webdl.tmp], and
    [cleanup] looks for the suffix [.webl.tmp]. *)
Theorem cleanup_misses_tmp_files (dest stamp rnd : string) :
  cleanup_removes (tmp_name dest stamp rnd) = false.
Proof.
  unfold tmp_name.
  replace (dest ++ "." ++ stamp ++ "-" ++ rnd ++ ".webdl.tmp")
    with ((dest ++ "." ++ stamp ++ "-" ++ rnd) ++ ".webdl.tmp")
    by (by rewrite !string_app_assoc).
  apply cleanup_keeps_webdl_tmp.
Qed.

(** *** The name and the extension of a file *)

Lemma count_byte_app c (a b : string) :
  GoURL.count_byte c (a ++ b) = (GoURL.count_byte c a + GoURL.count_byte c b)%nat.
Proof.
  induction a as [|d a IH]; [done|]. rewrite string_app_cons. simpl. rewrite IH. lia.
Qed.

Lemma count_byte_rev c s : GoURL.count_byte c (GoStrings.rev_string s) = GoURL.count_byte c s.
Proof.
  induction s as [|d s IH]; [done|].
  rewrite rev_string_cons, count_byte_app, IH. simpl. lia.
Qed.

(** The extension that the loop of [path.Ext] finds: nothing, or a dot
    and the bytes after it, which hold no dot and no slash. *)
Lemma Ext_scan_spec r : forall acc,
  GoPath.Ext_scan r acc = "" \/
  exists e0 r',
    r = e0 ++ String "." r' /\
    GoPath.Ext_scan r acc = String "." (GoStrings.rev_string e0 ++ acc) /\
    GoURL.count_byte "." e0 = 0%nat /\ GoURL.count_byte "/" e0 = 0%nat.
Proof.
  induction r as [|c r IH]; intros acc; [by left|]. cbn [GoPath.Ext_scan].
  destruct (Ascii.eqb c "/") eqn:Hs; [by left|].
  destruct (Ascii.eqb c ".") eqn:Hd.
  - apply Ascii.eqb_eq in Hd as ->. right. by exists "", r.
  - destruct (IH (String c acc)) as [->|(e0 & r' & -> & -> & H1 & H2)]; [by left|].
    right. exists (String c e0), r'. repeat split.
    + by rewrite rev_string_cons, string_app_assoc.
    + cbn [GoURL.count_byte]. rewrite Ascii.eqb_sym, Hd. exact H1.
    + cbn [GoURL.count_byte]. rewrite Ascii.eqb_sym, Hs. exact H2.
Qed.

Lemma Ext_spec fn :
  GoPath.Ext fn = "" \/
  exists pre e,
    fn = pre ++ "." ++ e /\ GoPath.Ext fn = "." ++ e /\
    GoURL.count_byte "." e = 0%nat /\ GoURL.count_byte "/" e = 0%nat.
Proof.
  unfold GoPath.Ext.
  destruct (Ext_scan_spec (GoStrings.rev_string fn) "")
    as [->|(e0 & r' & Hr & -> & H1 & H2)]; [by left|].
  right. exists (GoStrings.rev_string r'), (GoStrings.rev_string e0).
  rewrite string_app_nil_r, !count_byte_rev. repeat split; try done.
  rewrite <-(rev_string_involutive fn), Hr.
  change (String "." r') with ("." ++ r').
  rewrite !rev_string_app, string_app_assoc. reflexivity.
Qed.

Lemma name_ext_split fn :
  let ext := match GoPath.Ext fn with
             | String c ext' => if Ascii.eqb c "." then ext' else GoPath.Ext fn
             | EmptyString => GoPath.Ext fn
             end in
  let name := GoStrings.slice_to fn (String.length fn - String.length ext) in
  name ++ ext = fn /\
  GoURL.count_byte "." ext = 0%nat /\
  GoURL.count_byte "/" ext = 0%nat /\
  (GoURL.count_byte "." fn = 0%nat -> name = fn /\ ext = "") /\
  (ext <> "" -> exists pre, name = pre ++ ".").
Proof.
  destruct (Ext_spec fn) as [->|(pre & e & Hfn & -> & H1 & H2)]; cbv zeta.
  - rewrite Nat.sub_0_r. unfold GoStrings.slice_to.
    assert (Hs : String.substring 0 (String.length fn) fn = fn).
    { rewrite <-(string_app_nil_r fn) at 2. apply substring_0_app. }
    rewrite Hs, string_app_nil_r. by repeat split.
  - change ("." ++ e) with (String "." e). cbn beta iota. rewrite !Ascii.eqb_refl.
    assert (Hname : GoStrings.slice_to fn (String.length fn - String.length e)
                    = pre ++ ".").
    { unfold GoStrings.slice_to.
      rewrite Hfn, <-string_app_assoc, string_length_app, Nat.add_sub.
      apply substring_0_app. }
    rewrite Hname. repeat split; try done.
    + by rewrite string_app_assoc.
    + rewrite Hfn, !count_byte_app in H. simpl in H. lia.
    + rewrite Hfn, !count_byte_app in H. simpl in H. lia.
    + by exists pre.
Qed.

(** X19. The name and the extension that [pageToTpl] gives to the
    templates make up the file name, the last element of the URL,
    trimmed: the name is the file name up to and with its last dot, the
    extension is what follows that dot and holds no dot and no slash;
    a file name without a dot is all name. *)
Theorem pageToTpl_name_ext (URL_String : URL -> string) (p : PageInfo.t) :
  let fn := GoStrings.TrimSpace (GoPath.Base (URL_String (PageInfo.URL p))) in
  let d := pageToTpl URL_String p in
  TplData.Name d ++ TplData.Ext d = fn /\
  GoURL.count_byte "." (TplData.Ext d) = 0%nat /\
  GoURL.count_byte "/" (TplData.Ext d) = 0%nat /\
  (GoURL.count_byte "." fn = 0%nat -> TplData.Name d = fn /\ TplData.Ext d = "") /\
  (TplData.Ext d <> "" -> exists pre, TplData.Name d = pre ++ ".").
Proof.
  intros fn d. unfold d, pageToTpl. fold fn.
  destruct (PageInfo.Ref p) as [r|]; cbn [TplData.Name TplData.Ext];
    apply name_ext_split.
Qed.

(** *** The texts that [alphanum] and [path] return *)

Lemma TrimLeft_byte_suffix c s :
  exists d, s = d ++ TrimLeft_byte c s /\ string_forallb (Ascii.eqb c) d = true.
Proof.
  induction s as [|a s (d & IH & Hd)]; [by exists ""|]. simpl.
  destruct (Ascii.eqb a c) eqn:Ha; [|by exists ""].
  apply Ascii.eqb_eq in Ha as ->. exists (String c d). split.
  - rewrite string_app_cons. by rewrite <-IH.
  - simpl. by rewrite Ascii.eqb_refl.
Qed.

Lemma TrimLeft_byte_first c s : first_byte (TrimLeft_byte c s) <> Some c.
Proof.
  induction s as [|a s IH]; [done|]. simpl.
  destruct (Ascii.eqb a c) eqn:Ha; [done|]. simpl. intros [= ->].
  by rewrite Ascii.eqb_refl in Ha.
Qed.

Lemma string_forallb_app f (a b : string) :
  string_forallb f (a ++ b) = string_forallb f a && string_forallb f b.
Proof.
  induction a as [|c a IH]; [done|]. rewrite string_app_cons. simpl.
  by rewrite IH, andb_assoc.
Qed.

Lemma string_forallb_rev f s :
  string_forallb f (GoStrings.rev_string s) = string_forallb f s.
Proof.
  induction s as [|c s IH]; [done|].
  rewrite rev_string_cons, string_forallb_app, IH. simpl.
  by rewrite andb_true_r, andb_comm.
Qed.

Lemma Trim_byte_parts c s :
  exists a b, s = a ++ Trim_byte c s ++ b.
Proof.
  unfold Trim_byte, TrimRight_byte.
  destruct (TrimLeft_byte_suffix c (GoStrings.rev_string s)) as (d1 & H1 & _).
  set (y := GoStrings.rev_string (TrimLeft_byte c (GoStrings.rev_string s))).
  destruct (TrimLeft_byte_suffix c y) as (d2 & H2 & _).
  exists d2, (GoStrings.rev_string d1).
  rewrite <-string_app_assoc, <-H2. unfold y.
  rewrite <-rev_string_app, <-H1. by rewrite rev_string_involutive.
Qed.

Lemma Trim_byte_forallb f c s :
  string_forallb f s = true -> string_forallb f (Trim_byte c s) = true.
Proof.
  destruct (Trim_byte_parts c s) as (a & b & Hs). intros H. rewrite Hs in H.
  rewrite !string_forallb_app in H.
  by apply andb_true_iff in H as [_ [H _]%andb_true_iff].
Qed.

Lemma Trim_byte_count d c s :
  GoURL.count_byte d s = 0%nat -> GoURL.count_byte d (Trim_byte c s) = 0%nat.
Proof.
  destruct (Trim_byte_parts c s) as (a & b & Hs). intros H. rewrite Hs in H.
  rewrite !count_byte_app in H. lia.
Qed.

(** The text that [strings.Trim] returns neither starts nor ends with
    the byte of the cutset. *)
Lemma Trim_byte_ends c s :
  first_byte (Trim_byte c s) <> Some c /\ last_byte (Trim_byte c s) <> Some c.
Proof.
  split; [apply TrimLeft_byte_first|].
  unfold Trim_byte, TrimRight_byte, last_byte.
  set (z := TrimLeft_byte c (GoStrings.rev_string s)).
  pose proof (TrimLeft_byte_first c (GoStrings.rev_string s)) as Hz. fold z in Hz.
  destruct (TrimLeft_byte_suffix c (GoStrings.rev_string z)) as (d & Hd & _).
  set (t := TrimLeft_byte c (GoStrings.rev_string z)) in *.
  assert (Hrz : z = GoStrings.rev_string t ++ GoStrings.rev_string d).
  { by rewrite <-rev_string_app, <-Hd, rev_string_involutive. }
  destruct (GoStrings.rev_string t) as [|a r]; [done|].
  rewrite Hrz, string_app_cons in Hz. exact Hz.
Qed.

Lemma substring_0_0 s : String.substring 0 0 s = "".
Proof. by destruct s. Qed.

Lemma folded_rune_tail_high c s k :
  folded_rune_tail (String c s) = Some k ->
  (128 <=? N_of_ascii c)%N = true /\
  string_forallb (fun c => (128 <=? N_of_ascii c)%N) (String.substring 0 k s) = true.
Proof.
  unfold folded_rune_tail. destruct s as [|b s]; [done|].
  destruct ((N_of_ascii c =? 197) && (N_of_ascii b =? 191))%N eqn:H1.
  - intros [= <-]. apply andb_true_iff in H1 as [Hc Hb].
    apply N.eqb_eq in Hc, Hb. simpl. rewrite substring_0_0, Hc, Hb. done.
  - destruct s as [|d s]; [done|].
    destruct ((N_of_ascii c =? 226) && (N_of_ascii b =? 132)
              && (N_of_ascii d =? 170))%N eqn:H2; [|done].
    intros [= <-]. apply andb_true_iff in H2 as [[Hc Hb]%andb_true_iff Hd].
    apply N.eqb_eq in Hc, Hb, Hd. simpl. rewrite substring_0_0, Hc, Hb, Hd. done.
Qed.

Lemma alphanumRE_replace_bytes s : forall copy in_run,
  string_forallb (fun c => (128 <=? N_of_ascii c)%N)
                 (String.substring 0 copy s) = true ->
  string_forallb alphanum_byte (alphanumRE_replace copy in_run s) = true.
Proof.
  induction s as [|c s IH]; intros copy in_run Hc; [done|].
  cbn [alphanumRE_replace]. destruct copy as [|k].
  - destruct (alphanum_keep c) eqn:Hk.
    + cbn [string_forallb]. unfold alphanum_byte at 1. rewrite Hk. simpl.
      apply IH. by rewrite substring_0_0.
    + destruct (folded_rune_tail (String c s)) as [k|] eqn:Hf.
      * cbn [string_forallb]. apply folded_rune_tail_high in Hf as [Hc' Hs].
        unfold alphanum_byte at 1. rewrite Hc', orb_true_r. simpl. by apply IH.
      * destruct in_run; [apply IH; by rewrite substring_0_0|]. cbn [string_forallb].
        rewrite (IH 0%nat true) by (by rewrite substring_0_0). done.
  - simpl in Hc. apply andb_true_iff in Hc as [Hc Hk].
    cbn [string_forallb]. unfold alphanum_byte at 1. rewrite Hc, orb_true_r. simpl.
    by apply IH.
Qed.

(** X20. The text that the template function [alphanum] returns holds
    no ASCII byte other than letters, digits, [-], [_] and space (so no
    slash, no backslash, no dot and no control byte), and it neither
    starts nor ends with [-]. *)
Theorem tpl_alphanum_safe (s : string) :
  string_forallb alphanum_byte (tpl_alphanum s) = true /\
  first_byte (tpl_alphanum s) <> Some "-"%char /\
  last_byte (tpl_alphanum s) <> Some "-"%char.
Proof.
  unfold tpl_alphanum. split; [|apply Trim_byte_ends].
  apply Trim_byte_forallb, alphanumRE_replace_bytes. by rewrite substring_0_0.
Qed.

Lemma slashRE_replace_count s : forall start run,
  GoURL.count_byte "/" (slashRE_replace start run s) = 0%nat /\
  GoURL.count_byte backslash (slashRE_replace start run s) = 0%nat.
Proof.
  induction s as [|c s IH]; intros start run; [done|]. cbn [slashRE_replace].
  case_bool_decide; [apply IH|].
  destruct (Ascii.eqb c backslash) eqn:Hb; [simpl; apply IH|].
  destruct (Ascii.eqb c "/") eqn:Hs; [simpl; apply IH|]. cbn [orb].
  match goal with |- context [if ?b then _ else _] => destruct b end;
    [simpl; apply IH|].
  cbn [GoURL.count_byte]. rewrite (Ascii.eqb_sym "/"), Hs, (Ascii.eqb_sym backslash), Hb.
  apply IH.
Qed.

(** X21. The text that the template function [path] returns holds no
    slash and no backslash, and it neither starts nor ends with [-]. *)
Theorem tpl_path_safe (s : string) :
  GoURL.count_byte "/" (tpl_path s) = 0%nat /\
  GoURL.count_byte backslash (tpl_path s) = 0%nat /\
  first_byte (tpl_path s) <> Some "-"%char /\
  last_byte (tpl_path s) <> Some "-"%char.
Proof.
  unfold tpl_path. destruct (slashRE_replace_count s true None) as [H1 H2].
  repeat split; [by apply Trim_byte_count..| |]; apply Trim_byte_ends.
Qed.

(** ** [HREF] on simple URLs *)

Lemma string_eqb_app_cons_nil a c b : String.eqb (a ++ String c b) "" = false.
Proof. by destruct a. Qed.

Lemma URL_String_simple scheme host path :
  simple_scheme scheme = true -> simple_host host = true -> simple_path path = true ->
  GoURL.String (simple_URL scheme host path "") = scheme ++ "://" ++ host ++ path.
Proof.
  intros Hs Hh Hp. unfold GoURL.String, simple_URL.
  cbn [Scheme Opaque User Host Path RawPath OmitHost ForceQuery RawQuery Fragment].
  destruct scheme as [|c scheme]; [done|].
  destruct host as [|d host]; [done|].
  cbn [String.eqb negb orb andb].
  assert (Hpre : negb (String.eqb path "") && negb (GoStrings.HasPrefix path "/") = false).
  { destruct path as [|e path]; [done|]. simpl in Hp.
    apply andb_true_iff in Hp as [He _]. apply Ascii.eqb_eq in He as ->.
    unfold GoStrings.HasPrefix. simpl. by destruct path. }
  rewrite Hpre. cbn [andb].
  rewrite !string_app_assoc, string_app_cons. cbn [String.eqb andb].
  rewrite string_app_cons, !string_app_assoc. reflexivity.
Qed.

Lemma forallb_list_ascii f s :
  forallb f (list_ascii_of_string s) = string_forallb f s.
Proof. induction s as [|c s IH]; [done|]. simpl. by rewrite IH. Qed.

Lemma string_forallb_impl (f g : ascii -> bool) s :
  (forall c, f c = true -> g c = true) ->
  string_forallb f s = true -> string_forallb g s = true.
Proof.
  intros Hfg. induction s as [|c s IH]; [done|]. simpl.
  intros [Hc Hs]%andb_true_iff. by rewrite (Hfg _ Hc), IH.
Qed.

Lemma string_forallb_count (f : ascii -> bool) c s :
  f c = false -> string_forallb f s = true -> GoURL.count_byte c s = 0%nat.
Proof.
  intros Hc. induction s as [|d s IH]; [done|]. simpl.
  intros [Hd Hs]%andb_true_iff. rewrite (IH Hs).
  destruct (Ascii.eqb c d) eqn:Hcd; [|done].
  apply Ascii.eqb_eq in Hcd as ->. congruence.
Qed.

Lemma is_lower_is_alpha c : is_lower c = true -> GoURL.is_alpha c = true.
Proof.
  unfold is_lower, GoURL.is_alpha. generalize (N_of_ascii c). intros b H.
  apply andb_true_iff in H as [H1 H2]. apply N.leb_le in H1, H2.
  apply orb_true_iff. right. apply andb_true_iff. split; by apply N.leb_le.
Qed.

Lemma scheme_byte_host_byte c : scheme_byte c = true -> host_byte c = true.
Proof.
  unfold scheme_byte, host_byte.
  destruct (is_lower c) eqn:Hl; [by rewrite (is_lower_is_alpha _ Hl)|].
  destruct (GoURL.is_alpha c); [done|].
  destruct (GoURL.is_digit c); [done|].
  cbn [orb]. intros H. apply orb_true_iff in H as [H|H]; rewrite H, ?orb_true_r; done.
Qed.

Lemma host_byte_path_byte c : host_byte c = true -> path_byte c = true.
Proof. unfold path_byte. by intros ->. Qed.

Lemma path_byte_plain c : path_byte c = true -> GoURL.plain_byte c = true.
Proof.
  unfold path_byte, host_byte, GoURL.plain_byte.
  destruct (GoURL.is_alpha c); [done|]. destruct (GoURL.is_digit c); [done|].
  cbn [orb existsb]. intros H.
  repeat match type of H with
         | (_ || _ = true) => apply orb_true_iff in H as [H|H]
         end;
    apply Ascii.eqb_eq in H as ->; done.
Qed.

Lemma is_alpha_not c d :
  GoURL.is_alpha d = false -> Ascii.eqb c d = true -> GoURL.is_alpha c = false.
Proof. by intros H ->%Ascii.eqb_eq. Qed.

Lemma path_byte_not c d :
  path_byte d = false -> Ascii.eqb c d = true -> path_byte c = false.
Proof. by intros H ->%Ascii.eqb_eq. Qed.

Lemma host_byte_not c d :
  host_byte d = false -> Ascii.eqb c d = true -> host_byte c = false.
Proof. by intros H ->%Ascii.eqb_eq. Qed.

Lemma Cut_absent sep s :
  GoURL.count_byte sep s = 0%nat -> GoURL.Cut sep s = (s, "", false).
Proof.
  induction s as [|c s IH]; [done|]. simpl.
  rewrite (Ascii.eqb_sym c sep). destruct (Ascii.eqb sep c); [done|].
  simpl. intros H. by rewrite (IH H).
Qed.

Lemma Cut_app sep a b :
  GoURL.count_byte sep a = 0%nat -> GoURL.Cut sep (a ++ String sep b) = (a, b, true).
Proof.
  induction a as [|c a IH].
  - intros _. rewrite string_app_nil_l. simpl. by rewrite Ascii.eqb_refl.
  - rewrite string_app_cons. cbn [GoURL.count_byte GoURL.Cut].
    rewrite (Ascii.eqb_sym c sep). destruct (Ascii.eqb sep c); [done|].
    intros H. by rewrite (IH H).
Qed.

Lemma scheme_byte_cases c :
  scheme_byte c = true ->
  GoURL.is_alpha c = true \/
  (is_lower c = false /\
   GoURL.is_digit c || Ascii.eqb c "+" || Ascii.eqb c "-" || Ascii.eqb c "." = true).
Proof.
  unfold scheme_byte. destruct (is_lower c) eqn:Hl.
  - left. by apply is_lower_is_alpha.
  - right. split; [done|]. destruct (GoURL.is_digit c); [done|]. cbn [orb] in *.
    apply orb_true_iff in H as [->| ->]; by rewrite ?orb_true_r.
Qed.

Lemma getScheme_loop_scheme raw rest sch : forall i acc,
  string_forallb scheme_byte sch = true ->
  (i = 0%nat -> match sch with
                | String c _ => is_lower c = true
                | EmptyString => False
                end) ->
  GoURL.getScheme_loop raw i acc (sch ++ ":" ++ rest)
  = Ok (GoStrings.rev_string (GoStrings.rev_append_string sch acc), rest).
Proof.
  induction sch as [|c sch IH]; intros i acc Hs Hi.
  - rewrite string_app_nil_l. change (":" ++ rest) with (String ":" rest).
    cbn [GoURL.getScheme_loop]. simpl.
    destruct i; [by destruct Hi|]. done.
  - rewrite string_app_cons. cbn [GoURL.getScheme_loop GoStrings.rev_append_string].
    simpl in Hs. apply andb_true_iff in Hs as [Hc Hs].
    assert (Hnext : S i = 0%nat -> match sch with
                                   | String c _ => is_lower c = true
                                   | EmptyString => False
                                   end) by done.
    destruct (scheme_byte_cases _ Hc) as [Ha|[Hl Hd]].
    + rewrite Ha. by apply IH.
    + destruct (GoURL.is_alpha c); [by apply IH|]. rewrite Hd.
      destruct i; [specialize (Hi eq_refl); congruence|].
      simpl. by apply IH.
Qed.

Lemma getScheme_simple scheme rest :
  simple_scheme scheme = true ->
  GoURL.getScheme (scheme ++ ":" ++ rest) = Ok (scheme, rest).
Proof.
  intros Hs. unfold GoURL.getScheme. destruct scheme as [|c scheme]; [done|].
  simpl in Hs. apply andb_true_iff in Hs as [Hc Hs].
  rewrite getScheme_loop_scheme.
  - fold (GoStrings.rev_string (String c scheme)). by rewrite rev_string_involutive.
  - simpl. rewrite Hs. unfold scheme_byte. by rewrite Hc.
  - done.
Qed.

Lemma ToLower_scheme s : string_forallb scheme_byte s = true -> GoURL.ToLower s = s.
Proof.
  induction s as [|c s IH]; [done|]. simpl. intros [Hc Hs]%andb_true_iff.
  rewrite (IH Hs). f_equal. unfold GoURL.to_lower_byte.
  destruct ((65 <=? N_of_ascii c) && (N_of_ascii c <=? 90))%N eqn:Hu; [|done].
  exfalso. unfold scheme_byte, is_lower, GoURL.is_digit in Hc.
  apply andb_true_iff in Hu as [H1 H2]. apply N.leb_le in H1, H2.
  repeat (apply orb_true_iff in Hc as [Hc|Hc]).
  - apply andb_true_iff in Hc as [H3 H4]. apply N.leb_le in H3. lia.
  - apply andb_true_iff in Hc as [H3 H4]. apply N.leb_le in H4. lia.
  - apply Ascii.eqb_eq in Hc as ->. simpl in *. lia.
  - apply Ascii.eqb_eq in Hc as ->. simpl in *. lia.
Qed.

Lemma from_last_colon_absent h :
  GoURL.count_byte ":" h = 0%nat -> GoURL.from_last_colon h = None.
Proof.
  induction h as [|c h IH]; [done|]. cbn [GoURL.count_byte GoURL.from_last_colon].
  rewrite (Ascii.eqb_sym c ":"). destruct (Ascii.eqb ":" c); [done|].
  intros H. by rewrite (IH H).
Qed.

Lemma substring_all s : String.substring 0 (String.length s) s = s.
Proof. rewrite <-(string_app_nil_r s) at 2. apply substring_0_app. Qed.

(** [url.Parse] reads a simple URL as its parts. *)
Lemma Parse_simple scheme host path :
  simple_scheme scheme = true -> simple_host host = true -> simple_path path = true ->
  GoURL.Parse (scheme ++ "://" ++ host ++ path) = Ok (simple_URL scheme host path "").
Proof.
  intros Hs Hh Hp.
  assert (Hsb : string_forallb scheme_byte scheme = true).
  { destruct scheme as [|c scheme]; [done|]. simpl in *.
    apply andb_true_iff in Hs as [Hc Hs]. rewrite Hs. unfold scheme_byte. by rewrite Hc. }
  assert (Hhb : string_forallb host_byte host = true).
  { unfold simple_host in Hh. by apply andb_true_iff in Hh as [_ ?]. }
  assert (Hpb : string_forallb path_byte path = true).
  { destruct path as [|c path]; [done|]. unfold simple_path in Hp.
    by apply andb_true_iff in Hp as [_ ?]. }
  assert (Hrest : string_forallb path_byte ("//" ++ host ++ path) = true).
  { rewrite !string_forallb_app, Hpb.
    rewrite (string_forallb_impl _ _ _ host_byte_path_byte Hhb). done. }
  assert (Hall : string_forallb path_byte (scheme ++ "://" ++ host ++ path) = true).
  { change ("://" ++ host ++ path) with (":" ++ "//" ++ host ++ path).
    rewrite string_forallb_app, (string_forallb_app _ ":"), Hrest.
    rewrite (string_forallb_impl scheme_byte path_byte scheme); [done| |done].
    intros c Hc. by apply host_byte_path_byte, scheme_byte_host_byte. }
  unfold GoURL.Parse, GoURL.plain.
  rewrite forallb_list_ascii, (string_forallb_impl _ _ _ path_byte_plain Hall).
  rewrite (string_forallb_count path_byte "#" _ eq_refl Hall). cbn [Nat.leb andb negb].
  rewrite Cut_absent by (by apply (string_forallb_count path_byte)).
  unfold GoURL.parse.
  assert (Hstar : String.eqb (scheme ++ "://" ++ host ++ path) "*" = false).
  { destruct scheme as [|c scheme]; [done|]. rewrite string_app_cons.
    simpl in Hs. apply andb_true_iff in Hs as [Hc _].
    cbn [String.eqb]. destruct (Ascii.eqb c "*") eqn:E; [|done].
    apply Ascii.eqb_eq in E as ->. done. }
  rewrite Hstar.
  change ("://" ++ host ++ path) with (":" ++ "//" ++ host ++ path).
  rewrite getScheme_simple by done. rewrite ToLower_scheme by done.
  rewrite Cut_absent by (by apply (string_forallb_count path_byte)).
  cbn [andb].
  assert (Hne : String.eqb scheme "" = false) by (by destruct scheme).
  rewrite Hne.
  change ("//" ++ host ++ path) with (String "/" (String "/" (host ++ path))).
  unfold GoStrings.HasPrefix. cbn [String.prefix]. 
  destruct (ascii_dec "/" "/") as [_|Hn]; [|done].
  cbn [negb andb orb].
  assert (Hp1 : String.prefix "" (host ++ path) = true) by (by destruct (host ++ path)).
  rewrite Hp1. cbn [String.length Nat.sub String.substring].
  rewrite Nat.sub_0_r, substring_all.
  assert (Hnoslash : GoURL.count_byte "/" host = 0%nat)
    by (by apply (string_forallb_count host_byte)).
  assert (Hnocolon : GoURL.count_byte ":" host = 0%nat)
    by (by apply (string_forallb_count host_byte)).
  assert (Hcut : (let '(a, b, found) := GoURL.Cut "/" (host ++ path) in
                  if found then (a, String "/" b) else (host ++ path, ""))
                 = (host, path)).
  { destruct path as [|c path].
    - rewrite string_app_nil_r, Cut_absent by done. done.
    - simpl in Hp. apply andb_true_iff in Hp as [Hc _]. apply Ascii.eqb_eq in Hc as ->.
      by rewrite Cut_app. }
  rewrite Hcut. unfold GoURL.parseHost. rewrite from_last_colon_absent by done.
  reflexivity.
Qed.

Lemma simple_path_app path ref :
  simple_path path = true -> string_forallb path_byte ref = true ->
  simple_path (path ++ "/" ++ ref) = true.
Proof.
  intros Hp Hr. destruct path as [|c path].
  - rewrite string_app_nil_l. change ("/" ++ ref) with (String "/" ref).
    simpl. by rewrite Hr.
  - rewrite string_app_cons. unfold simple_path in *.
    apply andb_true_iff in Hp as [-> Hp]. rewrite <-string_app_cons.
    rewrite string_forallb_app, Hp. change ("/" ++ ref) with (String "/" ref).
    simpl. by rewrite Hr.
Qed.

Lemma HasPrefix_slashes c s :
  Ascii.eqb c "/" = false -> GoStrings.HasPrefix (String c s) "//" = false.
Proof.
  intros Hc. unfold GoStrings.HasPrefix. cbn [String.prefix].
  destruct (ascii_dec "/" c) as [<-|]; [by rewrite Ascii.eqb_refl in Hc|done].
Qed.

Lemma absURLRE_slash s : absURLRE_MatchString (String "/" s) = false.
Proof.
  unfold absURLRE_MatchString, GoStrings.HasPrefix. cbn [String.prefix].
  destruct (ascii_dec "h" "/") as [E|]; [discriminate E|done].
Qed.

Lemma simple_ref_spec ref :
  simple_ref ref = true ->
  exists c ref', ref = String c ref' /\ Ascii.eqb c "/" = false /\
    string_forallb path_byte ref = true /\
    absURLRE_MatchString ref || GoStrings.HasPrefix ref "//" = false.
Proof.
  destruct ref as [|c ref']; [done|]. unfold simple_ref.
  intros [[Hc Hb]%andb_true_iff Ha]%andb_true_iff.
  apply negb_true_iff in Hc, Ha. exists c, ref'. repeat split; try done.
  by rewrite Ha, HasPrefix_slashes.
Qed.

Lemma HREF_simple_parts (scheme host path query ref : string) :
  simple_scheme scheme = true -> simple_host host = true ->
  simple_path path = true -> simple_ref ref = true ->
  HREF GoURL.Parse GoURL.String (simple_URL scheme host path query) ref
  = Ok (simple_URL scheme host (path ++ "/" ++ ref) "") /\
  HREF GoURL.Parse GoURL.String (simple_URL scheme host path query) ("/" ++ ref)
  = Ok (simple_URL scheme host ("/" ++ ref) "").
Proof.
  intros Hs Hh Hp Hr.
  destruct (simple_ref_spec _ Hr) as (c & ref' & -> & Hc & Hb & Habs).
  split.
  - unfold HREF. rewrite Habs, Hc.
    change (set_RawQuery (simple_URL scheme host path query) "")
      with (simple_URL scheme host path "").
    rewrite URL_String_simple by done.
    rewrite !string_app_assoc. apply Parse_simple; try done.
    by apply simple_path_app.
  - change ("/" ++ String c ref') with (String "/" (String c ref')).
    unfold HREF.
    assert (Habs' : absURLRE_MatchString (String "/" (String c ref'))
                    || GoStrings.HasPrefix (String "/" (String c ref')) "//" = false).
    { rewrite absURLRE_slash. unfold GoStrings.HasPrefix. cbn [String.prefix orb].
      destruct (ascii_dec "/" "/") as [_|]; [|done].
      destruct (ascii_dec "/" c) as [<-|]; [by rewrite Ascii.eqb_refl in Hc|done]. }
    rewrite Habs'. rewrite Ascii.eqb_refl.
    change (set_RawQuery (set_Path (simple_URL scheme host path query) "") "")
      with (simple_URL scheme host "" "").
    rewrite URL_String_simple by done.
    rewrite !string_app_assoc, string_app_nil_l. by apply Parse_simple.
Qed.


(** X22. On a simple base URL [scheme://host/path] (with any query),
    [HREF] appends a relative reference to the whole path of the base,
    behind a slash, and replaces the path by a reference that starts
    with one slash; in both cases the scheme and the host are kept and
    the query of the base is dropped. *)
Theorem HREF_simple (scheme host path query ref : string) :
  simple_scheme scheme = true -> simple_host host = true ->
  simple_path path = true -> simple_ref ref = true ->
  HREF GoURL.Parse GoURL.String (simple_URL scheme host path query) ref
  = Ok (simple_URL scheme host (path ++ "/" ++ ref) "") /\
  HREF GoURL.Parse GoURL.String (simple_URL scheme host path query) ("/" ++ ref)
  = Ok (simple_URL scheme host ("/" ++ ref) "").
Proof. apply HREF_simple_parts. Qed.

Lemma HREF_simple_witness :
  HREF GoURL.Parse GoURL.String (simple_URL "https" "a.com" "/x/y" "q=1") "z"
  = Ok (simple_URL "https" "a.com" "/x/y/z" "") /\
  HREF GoURL.Parse GoURL.String (simple_URL "https" "a.com" "/x/y" "q=1") "/z"
  = Ok (simple_URL "https" "a.com" "/z" "").
Proof.
  exact (HREF_simple "https" "a.com" "/x/y" "q=1" "z" eq_refl eq_refl eq_refl eq_refl).
Defined.

(** X23. On the text of a simple URL, the template function [href]
    appends a relative reference to the base behind a slash, puts a
    reference that starts with one slash behind the host, and returns
    the base for the empty reference. *)
Theorem tpl_href_simple (scheme host path ref : string) :
  simple_scheme scheme = true -> simple_host host = true ->
  simple_path path = true -> simple_ref ref = true ->
  let base := scheme ++ "://" ++ host ++ path in
  tpl_href GoURL.Parse GoURL.String base ref = Some (base ++ "/" ++ ref) /\
  tpl_href GoURL.Parse GoURL.String base ("/" ++ ref)
  = Some (scheme ++ "://" ++ host ++ "/" ++ ref) /\
  tpl_href GoURL.Parse GoURL.String base "" = Some base.
Proof.
  intros Hs Hh Hp Hr base. unfold tpl_href, base.
  rewrite Parse_simple by done.
  destruct (HREF_simple_parts scheme host path "" ref Hs Hh Hp Hr) as [-> ->].
  destruct (simple_ref_spec _ Hr) as (c & ref' & -> & Hc & Hb & _).
  repeat split.
  - rewrite URL_String_simple; try done; [by rewrite !string_app_assoc|].
    by apply simple_path_app.
  - by rewrite URL_String_simple.
  - cbn [HREF]. by rewrite URL_String_simple.
Qed.

Lemma tpl_href_simple_witness :
  tpl_href GoURL.Parse GoURL.String "https://a.com/x/y" "z" = Some "https://a.com/x/y/z" /\
  tpl_href GoURL.Parse GoURL.String "https://a.com/x/y" "/z" = Some "https://a.com/z" /\
  tpl_href GoURL.Parse GoURL.String "https://a.com/x/y" "" = Some "https://a.com/x/y".
Proof.
  exact (tpl_href_simple "https" "a.com" "/x/y" "z" eq_refl eq_refl eq_refl eq_refl).
Defined.

(** ** [New] *)

(** X24. A [Web] made by [New] has at least one worker; [Recurse] runs
    the same number of workers for a [Web] whose configuration was not
    passed through [New]: eight when [Concurrency] is not positive, and
    [Concurrency] otherwise.  [New] changes nothing in a configuration
    that it has made. *)
Theorem New_workers (c : Config.t) :
  (0 < Config.Concurrency (Web_c (New c)))%Z /\
  workers (New c) = workers (mkWeb c) /\
  ((Config.Concurrency c <= 0)%Z -> workers (New c) = 8%nat) /\
  ((0 < Config.Concurrency c)%Z -> workers (New c) = Z.to_nat (Config.Concurrency c)) /\
  New (Web_c (New c)) = New c.
Proof.
  unfold New, workers. cbn [Web_c].
  destruct (Config.Concurrency c <=? 0)%Z eqn:Hc; cbn [Config.Concurrency].
  - apply Z.leb_le in Hc. repeat split; try done; lia.
  - rewrite Hc. apply Z.leb_gt in Hc. repeat split; try done; lia.
Qed.

(** ** What [progress] leaves in [context.Canceled] *)





Section OverwriteFacts.

Context (url_Parse : string -> result URL) (URL_String : URL -> string).
Context (http_get : string -> option string -> Z -> option error -> result string).
Context (NewDocumentFromReader : string -> result Document).
Context (w : Web) (c : RecursiveConfig.t).

#[local] Abbreviation stepo :=
  (step url_Parse URL_String http_get NewDocumentFromReader w c).






End OverwriteFacts.





